(** * The sequence theory core of [src/smt/theory_seq.cpp]

    A shallow embedding of the solver-side state of [theory_seq] (solution
    map, exclusion table, equation frames, trail) and of its callbacks,
    followed by the properties established about them.

    Conventions.
    - Terms are hash-consed in the host, so pointer equality of [expr*] is
      structural equality here.
    - An e-node is identified with its owner term, a boolean variable with
      the atom it stands for.
    - Loops whose termination depends on the contents of the solution map
      or on the external rewriter take a [fuel] argument and return [None]
      when it runs out.
    - An out-of-range vector access (undefined behaviour in the source) is
      [None]. *)

From Stdlib Require Import ZArith String List Bool Lia.
From stdpp Require Import base decidable option countable list strings gmap.

Local Open Scope string_scope.
Local Open Scope nat_scope.
Local Open Scope list_scope.

(** ** Term layer *)

(** Modelled from the spec: the term universe of the host ([ast.h] and
    [seq_decl_plugin.h] are declared outside the sources).  A term is an
    application of a head symbol to arguments; the head symbols are the
    sequence operators, string literals, skolems with a name, uninterpreted
    constants, and the boolean and arithmetic symbols the axioms are built
    from.  Every symbol carries what is needed to read off the sort. *)
Inductive sort :=
| bool_sort
| int_sort
| seq_sort (elem : string)
| other_sort (name : string).

Inductive seq_op :=
| OP_SEQ_UNIT | OP_SEQ_EMPTY | OP_SEQ_CONCAT
| OP_SEQ_PREFIX | OP_SEQ_SUFFIX | OP_SEQ_CONTAINS
| OP_SEQ_EXTRACT | OP_SEQ_REPLACE | OP_SEQ_INDEX
| OP_SEQ_LENGTH | OP_SEQ_IN_RE.

Inductive basic_op := OP_TRUE | OP_FALSE | OP_EQ | OP_NOT | OP_AND | OP_OR.

Inductive arith_op := OP_NUM (z : Z) | OP_ADD | OP_LE.

(** A function declaration: the head symbol of an application.  A skolem
    declaration carries its name as parameter 0, as [mk_skolem] builds it. *)
Inductive func_decl :=
| d_uninterp (name : string) (range : sort)
| d_seq (k : seq_op) (range : sort)
| d_string (s : string)
| d_skolem (name : string) (range : sort)
| d_basic (k : basic_op)
| d_arith (k : arith_op).

#[local] Unset Elimination Schemes.
Inductive expr := app (f : func_decl) (args : list expr).
#[local] Set Elimination Schemes.

#[global] Instance sort_eq_dec : EqDecision sort.
Proof. solve_decision. Defined.
#[global] Instance seq_op_eq_dec : EqDecision seq_op.
Proof. solve_decision. Defined.
#[global] Instance basic_op_eq_dec : EqDecision basic_op.
Proof. solve_decision. Defined.
#[global] Instance arith_op_eq_dec : EqDecision arith_op.
Proof. solve_decision. Defined.
#[global] Instance func_decl_eq_dec : EqDecision func_decl.
Proof. solve_decision. Defined.

Definition sort_code (s : sort) : nat + (string + string) :=
  match s with
  | bool_sort => inl 0
  | int_sort => inl 1
  | seq_sort e => inr (inl e)
  | other_sort n => inr (inr n)
  end.

Definition sort_uncode (c : nat + (string + string)) : sort :=
  match c with
  | inl 0 => bool_sort
  | inl _ => int_sort
  | inr (inl e) => seq_sort e
  | inr (inr n) => other_sort n
  end.

#[global] Instance sort_countable : Countable sort.
Proof.
  refine (inj_countable' sort_code sort_uncode _).
  intros []; reflexivity.
Defined.

Definition seq_op_code (k : seq_op) : nat :=
  match k with
  | OP_SEQ_UNIT => 0 | OP_SEQ_EMPTY => 1 | OP_SEQ_CONCAT => 2
  | OP_SEQ_PREFIX => 3 | OP_SEQ_SUFFIX => 4 | OP_SEQ_CONTAINS => 5
  | OP_SEQ_EXTRACT => 6 | OP_SEQ_REPLACE => 7 | OP_SEQ_INDEX => 8
  | OP_SEQ_LENGTH => 9 | OP_SEQ_IN_RE => 10
  end.

Definition seq_op_uncode (n : nat) : seq_op :=
  match n with
  | 0 => OP_SEQ_UNIT | 1 => OP_SEQ_EMPTY | 2 => OP_SEQ_CONCAT
  | 3 => OP_SEQ_PREFIX | 4 => OP_SEQ_SUFFIX | 5 => OP_SEQ_CONTAINS
  | 6 => OP_SEQ_EXTRACT | 7 => OP_SEQ_REPLACE | 8 => OP_SEQ_INDEX
  | 9 => OP_SEQ_LENGTH | _ => OP_SEQ_IN_RE
  end.

Definition basic_op_code (k : basic_op) : nat :=
  match k with
  | OP_TRUE => 0 | OP_FALSE => 1 | OP_EQ => 2
  | OP_NOT => 3 | OP_AND => 4 | OP_OR => 5
  end.

Definition basic_op_uncode (n : nat) : basic_op :=
  match n with
  | 0 => OP_TRUE | 1 => OP_FALSE | 2 => OP_EQ
  | 3 => OP_NOT | 4 => OP_AND | _ => OP_OR
  end.

Definition arith_op_code (k : arith_op) : Z + nat :=
  match k with
  | OP_NUM z => inl z
  | OP_ADD => inr 0
  | OP_LE => inr 1
  end.

Definition arith_op_uncode (c : Z + nat) : arith_op :=
  match c with
  | inl z => OP_NUM z
  | inr 0 => OP_ADD
  | inr _ => OP_LE
  end.

Definition decl_code (d : func_decl)
  : (string * sort) + (nat * sort) + string + (string * sort) + nat + (Z + nat) :=
  match d with
  | d_uninterp n r => inl (inl (inl (inl (inl (n, r)))))
  | d_seq k r => inl (inl (inl (inl (inr (seq_op_code k, r)))))
  | d_string s => inl (inl (inl (inr s)))
  | d_skolem n r => inl (inl (inr (n, r)))
  | d_basic k => inl (inr (basic_op_code k))
  | d_arith k => inr (arith_op_code k)
  end.

Definition decl_uncode
  (c : (string * sort) + (nat * sort) + string + (string * sort) + nat + (Z + nat))
  : func_decl :=
  match c with
  | inl (inl (inl (inl (inl (n, r))))) => d_uninterp n r
  | inl (inl (inl (inl (inr (k, r))))) => d_seq (seq_op_uncode k) r
  | inl (inl (inl (inr s))) => d_string s
  | inl (inl (inr (n, r))) => d_skolem n r
  | inl (inr k) => d_basic (basic_op_uncode k)
  | inr k => d_arith (arith_op_uncode k)
  end.

#[global] Instance func_decl_countable : Countable func_decl.
Proof.
  refine (inj_countable' decl_code decl_uncode _).
  intros [n r|k r|s|n r|k|k]; try reflexivity; destruct k; reflexivity.
Defined.

(** Structural induction on terms, reaching through the argument list. *)
Fixpoint expr_nested_ind (P : expr -> Prop)
    (IH : forall f args, Forall P args -> P (app f args)) (e : expr) : P e :=
  match e with
  | app f args =>
      IH f args
        ((fix go (l : list expr) : Forall P l :=
            match l with
            | [] => @List.Forall_nil _ P
            | x :: l' => @List.Forall_cons _ P x l' (expr_nested_ind P IH x) (go l')
            end) args)
  end.

Fixpoint expr_eqb (a b : expr) {struct a} : bool :=
  match a, b with
  | app f xs, app g ys =>
      bool_decide (f = g) &&
      (fix go (l1 l2 : list expr) {struct l1} : bool :=
         match l1, l2 with
         | [], [] => true
         | x :: l1', y :: l2' => expr_eqb x y && go l1' l2'
         | _, _ => false
         end) xs ys
  end.

Fixpoint expr_tree (e : expr) : gen_tree func_decl :=
  match e with
  | app f args => GenNode 0 (GenLeaf f :: map expr_tree args)
  end.

Fixpoint tree_expr (t : gen_tree func_decl) : expr :=
  match t with
  | GenNode _ (GenLeaf f :: ts) => app f (map tree_expr ts)
  | _ => app (d_basic OP_TRUE) []
  end.

Lemma expr_eqb_spec (a b : expr) : expr_eqb a b = true <-> a = b.
Proof.
  revert b. induction a as [f xs IH] using expr_nested_ind. intros [g ys].
  cbn [expr_eqb]. rewrite andb_true_iff, bool_decide_eq_true.
  split.
  - intros [-> Hgo]. f_equal. revert ys Hgo.
    induction IH as [|x xs Hx _ IHxs]; intros [|y ys] Hgo; try discriminate; auto.
    apply andb_true_iff in Hgo as [Hxy Hgo].
    apply Hx in Hxy as ->. f_equal. auto.
  - intros Heq. injection Heq as -> <-. split; [reflexivity|].
    induction IH as [|x xs Hx _ IHxs]; [reflexivity|].
    apply andb_true_iff. split; [apply Hx; reflexivity|exact IHxs].
Qed.

#[global] Instance expr_eq_dec : EqDecision expr.
Proof.
  intros a b. destruct (expr_eqb a b) eqn:E.
  - left. apply expr_eqb_spec, E.
  - right. intros Heq. apply expr_eqb_spec in Heq. congruence.
Defined.

Lemma tree_expr_tree (e : expr) : tree_expr (expr_tree e) = e.
Proof.
  induction e as [f xs IH] using expr_nested_ind. cbn. f_equal.
  induction IH as [|x xs Hx _ IHxs]; cbn; [reflexivity|]. by rewrite Hx, IHxs.
Qed.

#[global] Instance expr_countable : Countable expr :=
  inj_countable' expr_tree tree_expr tree_expr_tree.

(** *** Recognizers and constructors ([ast_manager], [seq_util], [arith_util]) *)

(** Modelled from the spec: the recognizers and constructors below are the
    thin wrappers of [ast_manager], [seq_util] and [arith_util] over the term
    universe (declared outside the sources); each tests or builds the
    application its name says. *)
Definition string_sort : sort := seq_sort "Char".

Definition get_sort (e : expr) : sort :=
  match e with
  | app (d_uninterp _ r) _ => r
  | app (d_seq _ r) _ => r
  | app (d_string _) _ => string_sort
  | app (d_skolem _ r) _ => r
  | app (d_basic _) _ => bool_sort
  | app (d_arith OP_LE) _ => bool_sort
  | app (d_arith _) _ => int_sort
  end.

Definition is_seq_sort (s : sort) : bool :=
  match s with seq_sort _ => true | _ => false end.

(** [m_util.is_seq(e)] *)
Definition is_seq (e : expr) : bool := is_seq_sort (get_sort e).

(** [m.is_bool(e)] *)
Definition is_bool (e : expr) : bool := bool_decide (get_sort e = bool_sort).

(** The one-argument recognizers [m_util.str.is_concat(e)], ... test the head
    symbol only. *)
Definition is_seq_app (k : seq_op) (e : expr) : bool :=
  match e with
  | app (d_seq k' _) _ => bool_decide (k' = k)
  | _ => false
  end.

(** The recognizers with out-parameters, such as
    [m_util.str.is_concat(e, e1, e2)], also bind the two arguments. *)
Definition match_seq2 (k : seq_op) (e : expr) : option (expr * expr) :=
  match e with
  | app (d_seq k' _) [e1; e2] => if bool_decide (k' = k) then Some (e1, e2) else None
  | _ => None
  end.

Definition is_concat (e : expr) : option (expr * expr) := match_seq2 OP_SEQ_CONCAT e.
Definition is_prefix (e : expr) : option (expr * expr) := match_seq2 OP_SEQ_PREFIX e.
Definition is_suffix (e : expr) : option (expr * expr) := match_seq2 OP_SEQ_SUFFIX e.
Definition is_contains (e : expr) : option (expr * expr) := match_seq2 OP_SEQ_CONTAINS e.
Definition is_index (e : expr) : option (expr * expr) := match_seq2 OP_SEQ_INDEX e.
Definition is_in_re (e : expr) : option (expr * expr) := match_seq2 OP_SEQ_IN_RE e.

Definition is_length (e : expr) : option expr :=
  match e with
  | app (d_seq OP_SEQ_LENGTH _) [x] => Some x
  | _ => None
  end.

Definition is_empty (e : expr) : bool := is_seq_app OP_SEQ_EMPTY e.
Definition is_unit (e : expr) : bool := is_seq_app OP_SEQ_UNIT e.

(** [m_util.str.is_string(e, s)] *)
Definition is_string (e : expr) : option string :=
  match e with
  | app (d_string s) _ => Some s
  | _ => None
  end.

Definition is_skolem (e : expr) : bool :=
  match e with app (d_skolem _ _) _ => true | _ => false end.

Definition is_uninterp (e : expr) : bool :=
  match e with app (d_uninterp _ _) _ => true | _ => false end.

Definition is_eq (e : expr) : option (expr * expr) :=
  match e with
  | app (d_basic OP_EQ) [e1; e2] => Some (e1, e2)
  | _ => None
  end.

Definition mk_true : expr := app (d_basic OP_TRUE) [].
Definition is_true (e : expr) : bool := bool_decide (e = mk_true).

Definition mk_eq (a b : expr) : expr := app (d_basic OP_EQ) [a; b].
Definition mk_not (a : expr) : expr := app (d_basic OP_NOT) [a].
Definition mk_or (es : list expr) : expr := app (d_basic OP_OR) es.
Definition mk_and (es : list expr) : expr := app (d_basic OP_AND) es.

Definition mk_int (z : Z) : expr := app (d_arith (OP_NUM z)) [].
Definition mk_add (a b : expr) : expr := app (d_arith OP_ADD) [a; b].
Definition mk_le (a b : expr) : expr := app (d_arith OP_LE) [a; b].

Definition mk_empty (s : sort) : expr := app (d_seq OP_SEQ_EMPTY s) [].
Definition mk_string (s : string) : expr := app (d_string s) [].
Definition mk_concat (a b : expr) : expr := app (d_seq OP_SEQ_CONCAT (get_sort a)) [a; b].
Definition mk_length (a : expr) : expr := app (d_seq OP_SEQ_LENGTH int_sort) [a].
Definition mk_prefix (a b : expr) : expr := app (d_seq OP_SEQ_PREFIX bool_sort) [a; b].
Definition mk_suffix (a b : expr) : expr := app (d_seq OP_SEQ_SUFFIX bool_sort) [a; b].
Definition mk_contains (a b : expr) : expr := app (d_seq OP_SEQ_CONTAINS bool_sort) [a; b].

(** Modelled from the spec: the three-argument [mk_concat(a, b, c)] of
    [seq_util] (declared outside the sources) builds the concatenation
    written a⌢b⌢c; it is taken left-nested. *)
Definition mk_concat3 (a b c : expr) : expr := mk_concat (mk_concat a b) c.

(** [m_util.mk_skolem(name, n, args, range)] *)
Definition util_mk_skolem (name : string) (args : list expr) (range : sort) : expr :=
  app (d_skolem name range) args.

(** Modelled from the spec: [get_concat] of [seq_util] (declared outside the
    sources) decomposes a term into its list of concat-atoms, left to right. *)
Fixpoint get_concat (e : expr) : list expr :=
  match e with
  | app (d_seq OP_SEQ_CONCAT _) [e1; e2] => get_concat e1 ++ get_concat e2
  | _ => [e]
  end.

(** Modelled from the spec: [mk_eq_atom] of the theory base class builds the
    atom [t1 = t2] that [new_diseq_eh] records. *)
Definition mk_eq_atom (a b : expr) : expr := mk_eq a b.

(** Term identifiers ([e->get_id()]) are assigned by the host's term manager. *)
Class AstIds := get_id : expr -> N.

(** The host's rewriters: the theory rewriter [m_rewrite] and the structural
    equality reducer [seq_rewriter::reduce_eq], which answers [None] for an
    inconsistent equation and otherwise the two vectors of subproblem sides. *)
Class Rewriter := {
  m_rewrite : expr -> expr;
  reduce_eq : expr -> expr -> option (list expr * list expr)
}.

(** ** Dependency manager *)

Definition enode := expr.
Definition enode_pair := (enode * enode)%type.
Definition theory_var := nat.

(** Modelled from the spec: the dependency manager ([enode_pair_dependency],
    declared outside the sources).  A dependency is a shared tree of leaves
    and joins; the null pointer is the empty dependency.  [mk_join] absorbs
    the empty dependency and a join of a dependency with itself. *)
Inductive dep_node :=
| dep_leaf (p : enode_pair)
| dep_join (d1 d2 : dep_node).

#[global] Instance dep_node_eq_dec : EqDecision dep_node.
Proof. solve_decision. Defined.

Definition enode_pair_dependency := option dep_node.

Definition mk_leaf (p : enode_pair) : enode_pair_dependency := Some (dep_leaf p).

Definition mk_join (d1 d2 : enode_pair_dependency) : enode_pair_dependency :=
  match d1, d2 with
  | None, _ => d2
  | _, None => d1
  | Some a, Some b => if decide (a = b) then d1 else Some (dep_join a b)
  end.

Fixpoint linearize_node (d : dep_node) : list enode_pair :=
  match d with
  | dep_leaf p => [p]
  | dep_join d1 d2 => linearize_node d1 ++ linearize_node d2
  end.

Definition linearize (d : enode_pair_dependency) : list enode_pair :=
  match d with
  | None => []
  | Some n => linearize_node n
  end.

(** ** Host context *)

Definition bool_var := expr.

Record literal := mk_literal { lit_var : bool_var; lit_sign : bool }.

(** The justification objects handed to the host; the theory id and the
    region are left out. *)
Inductive justification :=
| ext_theory_propagation_justification
    (lits : list literal) (eqs : list enode_pair) (consequent : literal)
| ext_theory_conflict_justification
    (lits : list literal) (eqs : list enode_pair)
| ext_theory_eq_propagation_justification
    (lits : list literal) (eqs : list enode_pair) (n1 n2 : enode).

(** The operations of [smt::context] (and of the theory base class and the
    model factory, which live on the host's side) that the core calls.  A
    host operation is a transformer of the host's own context.  What the
    host in turn asks of the theory (internalizing an argument of the
    sequence family, the relevancy call-back) is not nested inside the call:
    it reaches the theory as an operation of its own ([op_internalize_term],
    [op_relevant]), after the call that caused it. *)
Class SmtContext (C : Type) := {
  ctx_inconsistent : C -> bool;
  ctx_e_internalized : C -> expr -> bool;
  ctx_internalize : expr -> C -> C;
  ctx_get_literal : C -> expr -> literal;
  ctx_mark_as_relevant : literal -> C -> C;
  ctx_assign : literal -> justification -> C -> C;
  ctx_assign_eq : enode -> enode -> justification -> C -> C;
  ctx_set_conflict : justification -> C -> C;
  ctx_assume_eq : enode -> enode -> C -> C;
  ctx_mk_th_axiom : list literal -> C -> C;
  ctx_mk_bool_var : expr -> C -> C;
  ctx_set_var_theory : bool_var -> C -> C;
  ctx_set_enode_flag : bool_var -> C -> C;
  ctx_mk_enode : expr -> C -> C;
  ctx_is_attached_to_var : C -> enode -> bool;
  ctx_attach_th_var : enode -> C -> C;
  ctx_var2enode : C -> theory_var -> enode;
  ctx_get_root : C -> enode -> enode;
  ctx_eq_class : C -> enode -> list enode;
  ctx_enodes_of : C -> func_decl -> list enode;
  theory_push_scope_eh : C -> C;
  theory_pop_scope_eh : nat -> C -> C;
  factory_get_fresh_value : sort -> C -> option expr * C;
  factory_add_trail : expr -> C -> C
}.

(** ** Solution map *)

Module solution_map.

Inductive map_update := INS | DEL.

(** One row of the update trail.  The vectors [m_updates], [m_lhs], [m_rhs]
    and [m_deps] are only pushed together (by [add_trail]) and resized
    together (by [pop_scope]); [m_updates] holds their rows. *)
Definition row := (map_update * expr * expr * enode_pair_dependency)%type.

Record t := mk {
  m_map : gmap expr (expr * enode_pair_dependency);
  m_updates : list row;
  m_limit : list nat
}.

Definition empty : t := mk ∅ [] [].

Definition add_trail (op : map_update) (l r : expr) (d : enode_pair_dependency) (s : t) : t :=
  mk (m_map s) (m_updates s ++ [(op, l, r, d)]) (m_limit s).

Definition update (e r : expr) (d : enode_pair_dependency) (s : t) : t :=
  let s :=
    match m_map s !! e with
    | Some value => add_trail DEL e value.1 value.2 s
    | None => s
    end in
  let s := mk (<[e := (r, d)]> (m_map s)) (m_updates s) (m_limit s) in
  add_trail INS e r d s.

(** The [while] loop of [find]: [result], [d] and [num_finds] are the loop
    variables. *)
Fixpoint find_loop (fuel : nat) (m : gmap expr (expr * enode_pair_dependency))
    (result : expr) (d : enode_pair_dependency) (num_finds : nat)
  : option (expr * enode_pair_dependency * nat) :=
  match m !! result with
  | None => Some (result, d, num_finds)
  | Some value =>
      match fuel with
      | 0 => None
      | S fuel' => find_loop fuel' m value.1 (mk_join d value.2) (S num_finds)
      end
  end.

Definition find (fuel : nat) (e : expr) (s : t)
  : option (expr * enode_pair_dependency * t) :=
  '(result, d, num_finds) ← find_loop fuel (m_map s) e None 0;
  Some (result, d, if 1 <? num_finds then update e result d s else s).

(** Modelled from the spec: [push_scope] (declared outside the sources)
    saves the current trail size as the mark [pop_scope] returns to. *)
Definition push_scope (s : t) : t :=
  mk (m_map s) (m_updates s) (m_limit s ++ [length (m_updates s)]).

Definition undo (rw : row) (m : gmap expr (expr * enode_pair_dependency))
  : gmap expr (expr * enode_pair_dependency) :=
  match rw with
  | (INS, l, _, _) => delete l m
  | (DEL, l, r, d) => <[l := (r, d)]> m
  end.

(** The rows above [start] are undone from the last one down ([foldr] applies
    the last row first).  The marks never exceed the trail size, so the
    [resize] calls only shrink. *)
Definition pop_scope (num_scopes : nat) (s : t) : option t :=
  if num_scopes =? 0 then Some s
  else if length (m_limit s) <? num_scopes then None
  else
    start ← m_limit s !! (length (m_limit s) - num_scopes);
    Some (mk (foldr undo (m_map s) (drop start (m_updates s)))
             (take start (m_updates s))
             (take (length (m_limit s) - num_scopes) (m_limit s))).

End solution_map.

(** ** Exclusion table *)

Module exclusion_table.

Section defs.
Context `{AstIds}.

(** [m_pairs] holds the rows of the parallel vectors [m_lhs], [m_rhs]. *)
Record t := mk {
  m_table : gset (expr * expr);
  m_pairs : list (expr * expr);
  m_limit : list nat
}.

Definition empty : t := mk ∅ [] [].

Definition normalize (e r : expr) : expr * expr :=
  if (get_id r <? get_id e)%N then (r, e) else (e, r).

Definition update (e r : expr) (s : t) : t :=
  let '(e, r) := normalize e r in
  if bool_decide (e ≠ r) && negb (bool_decide ((e, r) ∈ m_table s)) then
    mk ({[ (e, r) ]} ∪ m_table s) (m_pairs s ++ [(e, r)]) (m_limit s)
  else s.

(** Modelled from the spec: [contains] (declared outside the sources) is the
    membership test on the normalized pair. *)
Definition contains (e r : expr) (s : t) : bool :=
  bool_decide (normalize e r ∈ m_table s).

(** Modelled from the spec: [push_scope] (declared outside the sources)
    saves the number of recorded pairs. *)
Definition push_scope (s : t) : t :=
  mk (m_table s) (m_pairs s) (m_limit s ++ [length (m_pairs s)]).

Definition pop_scope (num_scopes : nat) (s : t) : option t :=
  if num_scopes =? 0 then Some s
  else if length (m_limit s) <? num_scopes then None
  else
    start ← m_limit s !! (length (m_limit s) - num_scopes);
    Some (mk (foldl (fun tb p => tb ∖ {[ p ]}) (m_table s) (drop start (m_pairs s)))
             (take start (m_pairs s))
             (take (length (m_limit s) - num_scopes) (m_limit s))).

End defs.

End exclusion_table.

(** ** The state of [theory_seq] *)

Definition pending_eq := (expr * expr * enode_pair_dependency)%type.

(** Modelled from the spec: the trail objects pushed on [m_trail_stack]
    ([trail_stack], [value_trail] and [push_back_vector] are declared outside
    the sources).  A value trail keeps the old value of the field it guards;
    a push-back trail pops the vector it guards. *)
Inductive trail :=
| value_trail_incomplete (old : bool)
| value_trail_axioms_head (old : nat)
| push_back_vector_axioms
| push_back_vector_ineqs.

Record trail_stack := mk_trail_stack {
  ts_trail : list trail;
  ts_scopes : list nat
}.

(** The counters of [m_stats] are unsigned machine integers
    ([statistics::update] is handed an [unsigned]): incrementing the largest
    value gives 0. *)
Definition unsigned_modulus : N := 2 ^ 32.

Definition unsigned_incr (n : N) : N := ((n + 1) mod unsigned_modulus)%N.

Record stats := mk_stats {
  m_num_splits : N;
  m_num_reductions : N
}.

Inductive final_check_status := FC_DONE | FC_CONTINUE | FC_GIVEUP.

(** The vectors [m_lhs], [m_rhs], [m_deps] hold one frame of pending
    equations per scope and are never empty: the constructor pushes the first
    frame and [pop_scope_eh] removes one per popped scope.  [m_eqs] is their
    last frame (the rows of the three parallel arrays), [m_saved] the frames
    below it, the most recent first. *)
Record theory_seq {C : Type} := mk_theory_seq {
  m_rep : solution_map.t;
  m_exclude : exclusion_table.t;
  m_eqs : list pending_eq;
  m_saved : list (list pending_eq);
  m_ineqs : list expr;
  m_axioms : list expr;
  m_axioms_head : nat;
  m_branch_variable_head : nat;
  m_incomplete : bool;
  m_model_completion : bool;
  m_stats : stats;
  m_trail_stack : trail_stack;
  ctx : C
}.
Arguments theory_seq : clear implicits.

Section Setters.
Context {C : Type}.
Implicit Type st : theory_seq C.

Definition set_m_rep (v : solution_map.t) st : theory_seq C :=
  mk_theory_seq C v (m_exclude st) (m_eqs st) (m_saved st) (m_ineqs st) (m_axioms st)
    (m_axioms_head st) (m_branch_variable_head st) (m_incomplete st)
    (m_model_completion st) (m_stats st) (m_trail_stack st) (ctx st).

Definition set_m_exclude (v : exclusion_table.t) st : theory_seq C :=
  mk_theory_seq C (m_rep st) v (m_eqs st) (m_saved st) (m_ineqs st) (m_axioms st)
    (m_axioms_head st) (m_branch_variable_head st) (m_incomplete st)
    (m_model_completion st) (m_stats st) (m_trail_stack st) (ctx st).

Definition set_m_eqs (v : list pending_eq) st : theory_seq C :=
  mk_theory_seq C (m_rep st) (m_exclude st) v (m_saved st) (m_ineqs st) (m_axioms st)
    (m_axioms_head st) (m_branch_variable_head st) (m_incomplete st)
    (m_model_completion st) (m_stats st) (m_trail_stack st) (ctx st).

Definition set_m_saved (v : list (list pending_eq)) st : theory_seq C :=
  mk_theory_seq C (m_rep st) (m_exclude st) (m_eqs st) v (m_ineqs st) (m_axioms st)
    (m_axioms_head st) (m_branch_variable_head st) (m_incomplete st)
    (m_model_completion st) (m_stats st) (m_trail_stack st) (ctx st).

Definition set_m_ineqs (v : list expr) st : theory_seq C :=
  mk_theory_seq C (m_rep st) (m_exclude st) (m_eqs st) (m_saved st) v (m_axioms st)
    (m_axioms_head st) (m_branch_variable_head st) (m_incomplete st)
    (m_model_completion st) (m_stats st) (m_trail_stack st) (ctx st).

Definition set_m_axioms (v : list expr) st : theory_seq C :=
  mk_theory_seq C (m_rep st) (m_exclude st) (m_eqs st) (m_saved st) (m_ineqs st) v
    (m_axioms_head st) (m_branch_variable_head st) (m_incomplete st)
    (m_model_completion st) (m_stats st) (m_trail_stack st) (ctx st).

Definition set_m_axioms_head (v : nat) st : theory_seq C :=
  mk_theory_seq C (m_rep st) (m_exclude st) (m_eqs st) (m_saved st) (m_ineqs st) (m_axioms st)
    v (m_branch_variable_head st) (m_incomplete st)
    (m_model_completion st) (m_stats st) (m_trail_stack st) (ctx st).

Definition set_m_branch_variable_head (v : nat) st : theory_seq C :=
  mk_theory_seq C (m_rep st) (m_exclude st) (m_eqs st) (m_saved st) (m_ineqs st) (m_axioms st)
    (m_axioms_head st) v (m_incomplete st)
    (m_model_completion st) (m_stats st) (m_trail_stack st) (ctx st).

Definition set_m_incomplete (v : bool) st : theory_seq C :=
  mk_theory_seq C (m_rep st) (m_exclude st) (m_eqs st) (m_saved st) (m_ineqs st) (m_axioms st)
    (m_axioms_head st) (m_branch_variable_head st) v
    (m_model_completion st) (m_stats st) (m_trail_stack st) (ctx st).

Definition set_m_model_completion (v : bool) st : theory_seq C :=
  mk_theory_seq C (m_rep st) (m_exclude st) (m_eqs st) (m_saved st) (m_ineqs st) (m_axioms st)
    (m_axioms_head st) (m_branch_variable_head st) (m_incomplete st)
    v (m_stats st) (m_trail_stack st) (ctx st).

Definition set_m_stats (v : stats) st : theory_seq C :=
  mk_theory_seq C (m_rep st) (m_exclude st) (m_eqs st) (m_saved st) (m_ineqs st) (m_axioms st)
    (m_axioms_head st) (m_branch_variable_head st) (m_incomplete st)
    (m_model_completion st) v (m_trail_stack st) (ctx st).

Definition set_m_trail_stack (v : trail_stack) st : theory_seq C :=
  mk_theory_seq C (m_rep st) (m_exclude st) (m_eqs st) (m_saved st) (m_ineqs st) (m_axioms st)
    (m_axioms_head st) (m_branch_variable_head st) (m_incomplete st)
    (m_model_completion st) (m_stats st) v (ctx st).

Definition set_ctx (v : C) st : theory_seq C :=
  mk_theory_seq C (m_rep st) (m_exclude st) (m_eqs st) (m_saved st) (m_ineqs st) (m_axioms st)
    (m_axioms_head st) (m_branch_variable_head st) (m_incomplete st)
    (m_model_completion st) (m_stats st) (m_trail_stack st) v.

(** Apply a host operation to the context. *)
Definition on_ctx (f : C -> C) st : theory_seq C := set_ctx (f (ctx st)) st.

(** The state the constructor builds around a host context. *)
Definition init (c : C) : theory_seq C :=
  mk_theory_seq C solution_map.empty exclusion_table.empty [] [] [] [] 0 0 false false
    (mk_stats 0%N 0%N) (mk_trail_stack [] []) c.

(** *** Trail stack *)

(** Modelled from the spec: [m_trail_stack.push(t)] records one trail object. *)
Definition trail_push (t : trail) st : theory_seq C :=
  let ts := m_trail_stack st in
  set_m_trail_stack (mk_trail_stack (ts_trail ts ++ [t]) (ts_scopes ts)) st.

(** Modelled from the spec: [m_trail_stack.push_scope()] saves the current
    size of the trail as the mark of the new scope. *)
Definition trail_push_scope st : theory_seq C :=
  let ts := m_trail_stack st in
  set_m_trail_stack (mk_trail_stack (ts_trail ts) (ts_scopes ts ++ [length (ts_trail ts)])) st.

Definition undo_trail (t : trail) st : theory_seq C :=
  match t with
  | value_trail_incomplete old => set_m_incomplete old st
  | value_trail_axioms_head old => set_m_axioms_head old st
  | push_back_vector_axioms => set_m_axioms (removelast (m_axioms st)) st
  | push_back_vector_ineqs => set_m_ineqs (removelast (m_ineqs st)) st
  end.

(** Modelled from the spec: [m_trail_stack.pop_scope(n)] undoes the trail
    objects above the mark of the [n]-th scope from the top, the last one
    first, and drops them and the marks. *)
Definition trail_pop_scope (num_scopes : nat) st : option (theory_seq C) :=
  if num_scopes =? 0 then Some st
  else
    let ts := m_trail_stack st in
    if length (ts_scopes ts) <? num_scopes then None
    else
      old_size ← ts_scopes ts !! (length (ts_scopes ts) - num_scopes);
      let st := foldr undo_trail st (drop old_size (ts_trail ts)) in
      Some (set_m_trail_stack
              (mk_trail_stack (take old_size (ts_trail ts))
                 (take (length (ts_scopes ts) - num_scopes) (ts_scopes ts))) st).

End Setters.

(** ** The solver *)

Definition m_prefix_sym : string := "prefix".
Definition m_suffix_sym : string := "suffix".
Definition m_left_sym : string := "left".
Definition m_right_sym : string := "right".
Definition m_contains_left_sym : string := "contains_left".
Definition m_contains_right_sym : string := "contains_right".

(** [is_var] *)
Definition is_var (a : expr) : bool := is_uninterp a || is_skolem a.

(** [is_left_select] and [is_right_select]: a skolem whose parameter 0 is the
    selector symbol; the out-parameter is its argument 0.  [mk_skolem] gives
    every skolem at least one argument; a skolem without arguments (where
    [get_arg(0)] is out of range) is taken not to be a selector. *)
Definition is_select (sym : string) (a : expr) : option expr :=
  match a with
  | app (d_skolem name _) (e1 :: _) => if bool_decide (name = sym) then Some e1 else None
  | _ => None
  end.

Definition is_left_select (a : expr) : option expr := is_select m_left_sym a.
Definition is_right_select (a : expr) : option expr := is_select m_right_sym a.

(** The loop [while (is_left_select(a, e1) || is_right_select(a, e1)) a = e1;] *)
Fixpoint strip_selects (a : expr) : expr :=
  match a with
  | app (d_skolem name _) (e1 :: _) =>
      if bool_decide (name = m_left_sym) || bool_decide (name = m_right_sym)
      then strip_selects e1
      else a
  | _ => a
  end.

(** [occurs] *)
Fixpoint occurs (a b : expr) {struct b} : bool :=
  let a := strip_selects a in
  match b with
  | app (d_seq OP_SEQ_CONCAT _) [e1; e2] => occurs a e1 || occurs a e2
  | _ => bool_decide (a = strip_selects b)
  end.

(** [mk_skolem(name, e1, e2)]; [e2] defaults to null. *)
Definition mk_skolem (name : string) (e1 : expr) (e2 : option expr) : expr :=
  util_mk_skolem name (e1 :: match e2 with Some e => [e] | None => [] end) (get_sort e1).

(** [tightest_prefix]: encode that s is not a proper prefix of xs *)
Definition tightest_prefix (s x : expr) : expr :=
  let s1 := mk_skolem "first" s None in
  let c := mk_skolem "last" s None in
  mk_and [mk_eq s (mk_concat s1 c);
          mk_eq (mk_length c) (mk_int 1);
          mk_not (mk_contains s (mk_concat x s1))].

Section Core.
Context {C : Type} `{SmtContext C} `{Rewriter} `{AstIds}.
Implicit Type st : theory_seq C.

(** *** Reporting to the host *)

Definition propagate_lit (dep : enode_pair_dependency) (lit : literal) st : theory_seq C :=
  let st := on_ctx (ctx_mark_as_relevant lit) st in
  let js := ext_theory_propagation_justification [] (linearize dep) lit in
  on_ctx (ctx_assign lit js) st.

Definition set_conflict (dep : enode_pair_dependency) st : theory_seq C :=
  on_ctx (ctx_set_conflict (ext_theory_conflict_justification [] (linearize dep))) st.

Definition propagate_eq (dep : enode_pair_dependency) (n1 n2 : enode) st : theory_seq C :=
  let js := ext_theory_eq_propagation_justification [] (linearize dep) n1 n2 in
  on_ctx (ctx_assign_eq n1 n2 js) st.

(** [propagate_eq(bool_var v, expr* e1, expr* e2)] *)
Definition propagate_eq_lit (v : bool_var) (e1 e2 : expr) st : theory_seq C :=
  let st := on_ctx (ctx_internalize e1) st in
  let lit := mk_literal v false in
  let js := ext_theory_eq_propagation_justification [lit] [] e1 e2 in
  on_ctx (ctx_assign_eq e1 e2 js) st.

Definition add_dependency (dep : enode_pair_dependency) (a b : enode) : enode_pair_dependency :=
  if bool_decide (a ≠ b) then mk_join dep (mk_leaf (a, b)) else dep.

(** *** Incompleteness flag, axiom queue *)

Definition set_incomplete (term : expr) st : theory_seq C :=
  if m_incomplete st then st
  else set_m_incomplete true (trail_push (value_trail_incomplete (m_incomplete st)) st).

Definition can_propagate st : bool := m_axioms_head st <? length (m_axioms st).

Definition create_axiom (e : expr) st : theory_seq C :=
  let st := trail_push push_back_vector_axioms st in
  set_m_axioms (m_axioms st ++ [e]) st.

Definition assert_axiom (e : expr) st : theory_seq C :=
  if is_true e then st
  else
    let st := on_ctx (ctx_internalize e) st in
    let lit := ctx_get_literal (ctx st) e in
    let st := on_ctx (ctx_mark_as_relevant lit) st in
    on_ctx (ctx_mk_th_axiom [lit]) st.

(** The loop of [propagate] runs over the axioms from [m_axioms_head] on.
    The queue is read once: [assert_axiom] itself does not touch [m_axioms],
    and an axiom queued by a call-back of the host is an operation that
    follows, sent by the next [propagate]. *)
Fixpoint propagate_loop (pending : list expr) st : theory_seq C :=
  match pending with
  | [] => st
  | e :: pending' =>
      if ctx_inconsistent (ctx st) then st
      else
        let st := assert_axiom e st in
        propagate_loop pending' (set_m_axioms_head (S (m_axioms_head st)) st)
  end.

Definition propagate st : theory_seq C :=
  propagate_loop (drop (m_axioms_head st) (m_axioms st)) st.

(** *** Canonizer *)

(** [expand]: the arguments of the rebuilt application are expanded left to
    right.  [fuel] bounds the walk through the solution map. *)
Fixpoint expand (fuel : nat) (e : expr) (eqs : enode_pair_dependency) st
  : option (expr * enode_pair_dependency * theory_seq C) :=
  match fuel with
  | 0 => None
  | S fuel' =>
      '(e, deps, rep) ← solution_map.find fuel' e (m_rep st);
      let st := set_m_rep rep st in
      let eqs := mk_join eqs deps in
      let expand2 (mk : expr -> expr -> expr) (e1 e2 : expr) :=
        '(r1, eqs, st) ← expand fuel' e1 eqs st;
        '(r2, eqs, st) ← expand fuel' e2 eqs st;
        Some (mk r1 r2, eqs, st) in
      match is_concat e with
      | Some (e1, e2) => expand2 mk_concat e1 e2
      | None =>
      if is_empty e || bool_decide (is_Some (is_string e)) then Some (e, eqs, st)
      else
      match is_eq e with
      | Some (e1, e2) => expand2 mk_eq e1 e2
      | None =>
      match is_prefix e with
      | Some (e1, e2) => expand2 mk_prefix e1 e2
      | None =>
      match is_suffix e with
      | Some (e1, e2) => expand2 mk_suffix e1 e2
      | None =>
      match is_contains e with
      | Some (e1, e2) => expand2 mk_contains e1 e2
      | None =>
      if m_model_completion st && is_var e then
        let '(val, c) := factory_get_fresh_value (get_sort e) (ctx st) in
        let st := set_ctx c st in
        match val with
        | Some v => Some (v, eqs, set_m_rep (solution_map.update e v None (m_rep st)) st)
        | None => Some (e, eqs, st)
        end
      else Some (e, eqs, st)
      end end end end end
  end.

Definition canonize (fuel : nat) (e : expr) (eqs : enode_pair_dependency) st
  : option (expr * enode_pair_dependency * theory_seq C) :=
  '(result, eqs, st) ← expand fuel e eqs st;
  Some (m_rewrite result, eqs, st).

(** *** Inequations *)

(** The loop of [check_ineqs] runs over [m_ineqs], which it does not change. *)
Fixpoint check_ineqs_loop (fuel : nat) (ineqs : list expr) st : option (bool * theory_seq C) :=
  match ineqs with
  | [] => Some (true, st)
  | a :: ineqs' =>
      '(b, eqs, st) ← canonize fuel a None st;
      if is_true b then
        let st := on_ctx (ctx_internalize a) st in
        Some (false, propagate_lit eqs (ctx_get_literal (ctx st) a) st)
      else check_ineqs_loop fuel ineqs' st
  end.

Definition check_ineqs (fuel : nat) st : option (bool * theory_seq C) :=
  check_ineqs_loop fuel (m_ineqs st) st.

(** *** Branching *)

Definition assume_equality (l r : expr) st : bool * theory_seq C :=
  if exclusion_table.contains l r (m_exclude st) then (false, st)
  else
    let st := if ctx_e_internalized (ctx st) r then st else on_ctx (ctx_internalize r) st in
    (true, on_ctx (ctx_assume_eq l r) st).

(** The inner loop of [find_branch_candidate] over the proper prefixes of a
    string atom; [v0] is a non-null reference, so the prefix is always
    concatenated to it. *)
Fixpoint branch_prefixes (l v0 : expr) (s : string) (ks : list nat) st : bool * theory_seq C :=
  match ks with
  | [] => (false, st)
  | k :: ks' =>
      let v := mk_concat v0 (mk_string (substring 0 k s)) in
      let '(b, st) := assume_equality l v st in
      if b then (true, st) else branch_prefixes l v0 s ks' st
  end.

(** The outer loop of [find_branch_candidate], from index [j] on: [rs] holds
    the atoms [rs[j]], [rs[j+1]], ... and [v0] the candidate built so far. *)
Fixpoint branch_atoms (l : expr) (j : nat) (rs : list expr) (v0 : expr) st : bool * theory_seq C :=
  match rs with
  | [] => (false, st)
  | rj :: rs' =>
      if occurs l rj then (false, st)
      else
        let '(b, st) :=
          match is_string rj with
          | Some s => branch_prefixes l v0 s (seq 1 (String.length s - 1)) st
          | None => (false, st)
          end in
        if b then (true, st)
        else
          let v0 := if j =? 0 then rj else mk_concat v0 rj in
          let '(b, st) := assume_equality l v0 st in
          if b then (true, st) else branch_atoms l (S j) rs' v0 st
  end.

Definition find_branch_candidate (l : expr) (rs : list expr) st : bool * theory_seq C :=
  if negb (is_var l) then (false, st)
  else
    let v0 := mk_empty (get_sort l) in
    let '(b, st) := assume_equality l v0 st in
    if b then (true, st) else branch_atoms l 0 rs v0 st.

(** The loop of [branch_variable] over [i = 0 .. sz-1]. *)
Fixpoint branch_variable_loop (sz : nat) (idx : list nat) st : bool * theory_seq C :=
  match idx with
  | [] => (false, st)
  | i :: idx' =>
      let k := (i + m_branch_variable_head st) mod sz in
      match m_eqs st !! k with
      | None => (false, st)
      | Some (l, r, _) =>
          let ls := get_concat l in
          let rs := get_concat r in
          let '(b, st) :=
            match ls with
            | l0 :: _ => find_branch_candidate l0 rs st
            | [] => (false, st)
            end in
          if b then (true, set_m_branch_variable_head k st)
          else
            let '(b, st) :=
              match rs with
              | r0 :: _ => find_branch_candidate r0 ls st
              | [] => (false, st)
              end in
            if b then (true, set_m_branch_variable_head k st)
            else branch_variable_loop sz idx' st
      end
  end.

Definition branch_variable st : bool * theory_seq C :=
  let sz := length (m_eqs st) in
  branch_variable_loop sz (seq 0 sz) st.

Definition split_variable st : bool * theory_seq C := (false, st).

(** *** Simplification and unit solving *)

(** The rows [(lhs[i], rhs[i], deps)] that [simplify_eq] pushes; reading
    [rhs[i]] past the end of [rhs] is out of range. *)
Fixpoint eq_rows (lhs rhs : list expr) (deps : enode_pair_dependency)
  : option (list pending_eq) :=
  match lhs, rhs with
  | [], _ => Some []
  | x :: lhs', y :: rhs' => rows ← eq_rows lhs' rhs' deps; Some ((x, y, deps) :: rows)
  | _ :: _, [] => None
  end.

Definition simplify_eq (fuel : nat) (l r : expr) (deps : enode_pair_dependency) st
  : option (bool * theory_seq C) :=
  '(lh, deps, st) ← canonize fuel l deps st;
  '(rh, deps, st) ← canonize fuel r deps st;
  match reduce_eq lh rh with
  | None => Some (true, set_conflict deps st)
  | Some (lhs, rhs) =>
      if bool_decide (length lhs = 1) && bool_decide (lhs !! 0 = Some l) &&
         bool_decide (length rhs = 1) && bool_decide (rhs !! 0 = Some r)
      then Some (false, st)
      else
        rows ← eq_rows lhs rhs deps;
        Some (true, set_m_eqs (m_eqs st ++ rows) st)
  end.

Definition add_solution (l r : expr) (deps : enode_pair_dependency) st : theory_seq C :=
  let st := set_m_rep (solution_map.update l r deps (m_rep st)) st in
  if ctx_e_internalized (ctx st) l && ctx_e_internalized (ctx st) r
  then propagate_eq deps l r st
  else st.

Definition solve_unit_eq (fuel : nat) (l r : expr) (deps : enode_pair_dependency) st
  : option (bool * theory_seq C) :=
  '(lh, deps, st) ← canonize fuel l deps st;
  '(rh, deps, st) ← canonize fuel r deps st;
  if bool_decide (lh = rh) then Some (true, st)
  else if is_var lh && negb (occurs lh rh) then Some (true, add_solution lh rh deps st)
  else if is_var rh && negb (occurs rh lh) then Some (true, add_solution rh lh deps st)
  else Some (false, st).

Definition incr_num_reductions st : theory_seq C :=
  set_m_stats
    (mk_stats (m_num_splits (m_stats st)) (unsigned_incr (m_num_reductions (m_stats st)))) st.

(** What [pre_process_eqs] does with entry [i] once it has been processed:
    unless it is the last entry, the last entry is moved into its place; the
    last entry is then popped.  The result is the index the loop goes on
    with: after a move the source decrements [i] before the loop increments
    it again (wrapping through the largest unsigned value when [i] is 0), so
    the moved entry is visited next. *)
Definition remove_eq (i : nat) st : option (nat * theory_seq C) :=
  let eqs := m_eqs st in
  if bool_decide (i + 1 ≠ length eqs) then
    lst ← eqs !! (length eqs - 1);
    Some (i, incr_num_reductions (set_m_eqs (removelast (<[i := lst]> eqs)) st))
  else Some (i + 1, set_m_eqs (removelast eqs) st).

(** The loop of [pre_process_eqs]; [i] and [change] are its variables. *)
Fixpoint pre_process_eqs_loop (fuel : nat) (simplify_or_solve : bool) (i : nat) (change : bool) st
  : option (bool * theory_seq C) :=
  if ctx_inconsistent (ctx st) then Some (change, st)
  else
    match m_eqs st !! i with
    | None => Some (change, st)
    | Some (l, r, d) =>
        match fuel with
        | 0 => None
        | S fuel' =>
            '(b, st) ← (if simplify_or_solve then simplify_eq fuel' l r d st
                        else solve_unit_eq fuel' l r d st);
            if (b : bool) then
              '(i, st) ← remove_eq i st;
              pre_process_eqs_loop fuel' simplify_or_solve i true st
            else pre_process_eqs_loop fuel' simplify_or_solve (i + 1) change st
        end
    end.

Definition pre_process_eqs (fuel : nat) (simplify_or_solve : bool) st
  : option (bool * theory_seq C) :=
  pre_process_eqs_loop fuel simplify_or_solve 0 false st.

Definition simplify_eqs (fuel : nat) st : option (bool * theory_seq C) :=
  pre_process_eqs fuel true st.

Definition solve_basic_eqs (fuel : nat) st : option (bool * theory_seq C) :=
  pre_process_eqs fuel false st.

(** The [while] loop of [simplify_and_solve_eqs]. *)
Fixpoint solve_loop (fuel : nat) (change : bool) st : option (bool * theory_seq C) :=
  if ctx_inconsistent (ctx st) then Some (change, st)
  else
    match fuel with
    | 0 => None
    | S fuel' =>
        '(b, st) ← solve_basic_eqs fuel' st;
        if (b : bool) then
          '(_, st) ← simplify_eqs fuel' st;
          solve_loop fuel' true st
        else Some (change, st)
    end.

Definition simplify_and_solve_eqs (fuel : nat) st : option (bool * theory_seq C) :=
  '(change, st) ← simplify_eqs fuel st;
  solve_loop fuel change st.

(** *** Final check *)

Definition final_check_eh (fuel : nat) st : option (final_check_status * theory_seq C) :=
  '(ok, st) ← check_ineqs fuel st;
  if negb ok then Some (FC_CONTINUE, st)
  else
    '(change, st) ← simplify_and_solve_eqs fuel st;
    if (change : bool) then Some (FC_CONTINUE, st)
    else if ctx_inconsistent (ctx st) then Some (FC_CONTINUE, st)
    else
      let '(b, st) := branch_variable st in
      if b then Some (FC_CONTINUE, st)
      else
        let '(b, st) := split_variable st in
        if b then Some (FC_CONTINUE, st)
        else if ctx_inconsistent (ctx st) then Some (FC_CONTINUE, st)
        else if (0 <? length (m_eqs st)) || m_incomplete st then Some (FC_GIVEUP, st)
        else Some (FC_DONE, st).

(** *** Internalization *)

Definition mk_var (n : enode) st : theory_seq C :=
  if ctx_is_attached_to_var (ctx st) n then st
  else on_ctx (ctx_attach_th_var n) st.

Definition internalize_arg (st : theory_seq C) (arg : expr) : theory_seq C :=
  let st := on_ctx (ctx_internalize arg) st in
  if ctx_e_internalized (ctx st) arg then mk_var arg st else st.

(** The heads [internalize_term] supports. *)
Definition supported_head (term : expr) : bool :=
  is_seq_app OP_SEQ_CONCAT term ||
  bool_decide (is_Some (is_string term)) ||
  is_empty term ||
  is_unit term ||
  is_seq_app OP_SEQ_SUFFIX term ||
  is_seq_app OP_SEQ_PREFIX term ||
  is_seq_app OP_SEQ_CONTAINS term ||
  is_skolem term.

Definition internalize_term (term : expr) st : bool * theory_seq C :=
  let args := match term with app _ args => args end in
  let st := foldl internalize_arg st args in
  let st :=
    if is_bool term then
      let st := on_ctx (ctx_mk_bool_var term) st in
      let st := on_ctx (ctx_set_var_theory term) st in
      on_ctx (ctx_set_enode_flag term) st
    else
      let st := if ctx_e_internalized (ctx st) term then st
                else on_ctx (ctx_mk_enode term) st in
      mk_var term st in
  (true, if negb (supported_head term) then set_incomplete term st else st).

Definition internalize_atom (a : expr) st : bool * theory_seq C := internalize_term a st.

(** *** Axiom factory *)

(** [add_len_concat_axiom]; [None] when the [VERIFY] fails. *)
Definition add_len_concat_axiom (c : expr) st : option (theory_seq C) :=
  '(a, b) ← is_concat c;
  let la := mk_length a in
  let lb := mk_length b in
  let lc := mk_length c in
  Some (create_axiom (mk_eq (mk_add la lb) lc) st).

(** The local [func_decl* f_len = 0] of [new_eq_len_concat]. *)
Definition f_len : option func_decl := None.

(** [new_eq_len_concat]: the walk over the length applications of the class
    of [n1] and the concatenations of the class of [n2] is guarded by
    [if (!f_len) return;]. *)
Definition new_eq_len_concat (n1 n2 : enode) st : option (theory_seq C) :=
  if negb (is_seq n1) then Some st
  else
    match f_len with
    | None => Some st
    | Some f =>
        foldl
          (fun acc it =>
             st ← acc;
             if bool_decide (ctx_get_root (ctx st) it = ctx_get_root (ctx st) n1) then
               foldl
                 (fun acc n =>
                    st ← acc;
                    if is_seq_app OP_SEQ_CONCAT n then add_len_concat_axiom n st else Some st)
                 (Some st) (ctx_eq_class (ctx st) n2)
             else Some st)
          (Some st) (ctx_enodes_of (ctx st) f)
    end.

(** [add_indexof_axiom]; [None] when the [VERIFY] fails.

    let i = Index(s, t)
    (!contains(s, t) -> i = -1)
    (contains(s, t) & s = empty -> i = 0)
    (contains(s, t) & s != empty -> t = xsy & tightest_prefix(s, x)) *)
Definition add_indexof_axiom (i : expr) st : option (theory_seq C) :=
  '(s, t) ← is_index i;
  let x := mk_skolem m_contains_left_sym s (Some t) in
  let y := mk_skolem m_contains_right_sym s (Some t) in
  let eq_empty := mk_eq s (mk_empty (get_sort s)) in
  let cnt := mk_contains s t in
  let st := create_axiom (mk_or [cnt; mk_eq i (mk_int (-1))]) st in
  let st := create_axiom (mk_or [mk_not cnt; mk_not eq_empty; mk_eq i (mk_int 0)]) st in
  let st := create_axiom (mk_or [mk_not cnt; eq_empty; mk_eq t (mk_concat3 x s y)]) st in
  let st := create_axiom (mk_or [mk_not cnt; eq_empty; tightest_prefix s x]) st in
  Some st.

Definition is_replace (r : expr) : option (expr * expr * expr) :=
  match r with
  | app (d_seq OP_SEQ_REPLACE _) [a; s; t] => Some (a, s, t)
  | _ => None
  end.

(** [add_replace_axiom]; [None] when the [VERIFY] fails. *)
Definition add_replace_axiom (r : expr) st : option (theory_seq C) :=
  '(a, s, t) ← is_replace r;
  let cnt := mk_contains s a in
  let x := mk_skolem m_contains_left_sym s (Some a) in
  let y := mk_skolem m_contains_right_sym s (Some a) in
  let st := create_axiom (mk_or [mk_not cnt; mk_eq a (mk_concat3 x s y)]) st in
  let st := create_axiom (mk_or [mk_not cnt; mk_eq r (mk_concat3 x t y)]) st in
  let st := create_axiom (mk_or [mk_not cnt; tightest_prefix s x]) st in
  let st := create_axiom (mk_or [cnt; mk_eq r a]) st in
  Some st.

(** [add_len_axiom]; [None] when the [VERIFY] fails. *)
Definition add_len_axiom (n : expr) st : option (theory_seq C) :=
  x ← is_length n;
  let eq1 := mk_eq (mk_int 0) n in
  let eq2 := mk_eq x (mk_empty (get_sort x)) in
  let st := create_axiom (mk_le (mk_int 0) n) st in
  let st := create_axiom (mk_or [mk_not eq1; eq2]) st in
  let st := create_axiom (mk_or [mk_not eq2; eq1]) st in
  let nr := m_rewrite n in
  Some (if bool_decide (nr ≠ n) then create_axiom (mk_eq n nr) st else st).

(** [add_extract_axiom] stops at [NOT_IMPLEMENTED_YET]. *)
Definition add_extract_axiom (e : expr) st : option (theory_seq C) := None.

(** *** Event handlers *)

(** [assign_eq(bool_var v, bool is_true)]; [None] at [NOT_IMPLEMENTED_YET]
    and [UNREACHABLE]. *)
Definition assign_eq (v : bool_var) (is_true : bool) st : option (theory_seq C) :=
  let e : expr := v in
  if is_true then
    match is_prefix e with
    | Some (e1, e2) =>
        let f := mk_skolem m_prefix_sym e1 (Some e2) in
        Some (propagate_eq_lit v (mk_concat e1 f) e2 st)
    | None =>
    match is_suffix e with
    | Some (e1, e2) =>
        let f := mk_skolem m_suffix_sym e1 (Some e2) in
        Some (propagate_eq_lit v (mk_concat f e1) e2 st)
    | None =>
    match is_contains e with
    | Some (e1, e2) =>
        let f1 := mk_skolem m_contains_left_sym e1 (Some e2) in
        let f2 := mk_skolem m_contains_right_sym e1 (Some e2) in
        Some (propagate_eq_lit v (mk_concat (mk_concat f1 e1) f2) e2 st)
    | None => None
    end end end
  else
    let st := trail_push push_back_vector_ineqs st in
    Some (set_m_ineqs (m_ineqs st ++ [e]) st).

Definition new_eq_eh (v1 v2 : theory_var) st : option (theory_seq C) :=
  let n1 := ctx_var2enode (ctx st) v1 in
  let n2 := ctx_var2enode (ctx st) v2 in
  if bool_decide (n1 ≠ n2) then
    let st := set_m_eqs (m_eqs st ++ [(n1, n2, mk_leaf (n1, n2))]) st in
    st ← new_eq_len_concat n1 n2 st;
    new_eq_len_concat n2 n1 st
  else Some st.

Definition new_diseq_eh (v1 v2 : theory_var) st : theory_seq C :=
  let e1 := ctx_var2enode (ctx st) v1 in
  let e2 := ctx_var2enode (ctx st) v2 in
  let st := trail_push push_back_vector_ineqs st in
  let st := set_m_ineqs (m_ineqs st ++ [mk_eq_atom e1 e2]) st in
  set_m_exclude (exclusion_table.update e1 e2 (m_exclude st)) st.

(** [push_scope_eh]; the scope of the dependency manager [m_dm] is a memory
    region and holds no content of its own. *)
Definition push_scope_eh st : theory_seq C :=
  let st := on_ctx theory_push_scope_eh st in
  let st := set_m_rep (solution_map.push_scope (m_rep st)) st in
  let st := set_m_exclude (exclusion_table.push_scope (m_exclude st)) st in
  let st := trail_push_scope st in
  let st := trail_push (value_trail_axioms_head (m_axioms_head st)) st in
  set_m_saved (m_eqs st :: m_saved st) st.

(** The [while] loop of [pop_scope_eh]. *)
Fixpoint pop_frames (num_scopes : nat) st : option (theory_seq C) :=
  match num_scopes with
  | 0 => Some st
  | S n =>
      match m_saved st with
      | [] => None
      | fr :: saved => pop_frames n (set_m_saved saved (set_m_eqs fr st))
      end
  end.

Definition pop_scope_eh (num_scopes : nat) st : option (theory_seq C) :=
  st ← trail_pop_scope num_scopes st;
  let st := on_ctx (theory_pop_scope_eh num_scopes) st in
  rep ← solution_map.pop_scope num_scopes (m_rep st);
  let st := set_m_rep rep st in
  ex ← exclusion_table.pop_scope num_scopes (m_exclude st);
  let st := set_m_exclude ex st in
  pop_frames num_scopes st.

(** [restart_eh]: its body is compiled out. *)
Definition restart_eh st : theory_seq C := st.

Definition relevant_eh (n : expr) st : option (theory_seq C) :=
  if is_seq_app OP_SEQ_LENGTH n then add_len_axiom n st else Some st.

(** [mk_value]: [flet] sets [m_model_completion] for the duration of the call. *)
Definition mk_value (fuel : nat) (n : enode) st : option (expr * theory_seq C) :=
  let old := m_model_completion st in
  let st := set_m_model_completion true st in
  '(e, _, st) ← canonize fuel n None st;
  let st := on_ctx (factory_add_trail e) st in
  Some (e, set_m_model_completion old st).

(** *** Operations *)

(** The operations the host and the core perform on the state between two
    scope changes: the callbacks, and the mutators of the sub-stores. *)
Inductive operation :=
| op_internalize_term (term : expr)
| op_new_eq (v1 v2 : theory_var)
| op_new_diseq (v1 v2 : theory_var)
| op_assign (v : bool_var) (is_true : bool)
| op_propagate
| op_final_check
| op_relevant (n : expr)
| op_restart
| op_mk_value (n : enode)
| op_rep_update (e r : expr) (d : enode_pair_dependency)
| op_rep_find (e : expr)
| op_exclude_update (e r : expr)
| op_set_incomplete (term : expr)
| op_create_axiom (e : expr)
| op_add_indexof_axiom (i : expr)
| op_add_replace_axiom (r : expr)
| op_add_len_concat_axiom (c : expr)
| op_add_solution (l r : expr) (deps : enode_pair_dependency)
| op_push_eq (e : pending_eq)
| op_remove_eq (i : nat).

Definition run_op (fuel : nat) (o : operation) st : option (theory_seq C) :=
  match o with
  | op_internalize_term term => Some (internalize_term term st).2
  | op_new_eq v1 v2 => new_eq_eh v1 v2 st
  | op_new_diseq v1 v2 => Some (new_diseq_eh v1 v2 st)
  | op_assign v is_true => assign_eq v is_true st
  | op_propagate => Some (propagate st)
  | op_final_check => snd <$> final_check_eh fuel st
  | op_relevant n => relevant_eh n st
  | op_restart => Some (restart_eh st)
  | op_mk_value n => snd <$> mk_value fuel n st
  | op_rep_update e r d => Some (set_m_rep (solution_map.update e r d (m_rep st)) st)
  | op_rep_find e =>
      '(_, _, rep) ← solution_map.find fuel e (m_rep st); Some (set_m_rep rep st)
  | op_exclude_update e r => Some (set_m_exclude (exclusion_table.update e r (m_exclude st)) st)
  | op_set_incomplete term => Some (set_incomplete term st)
  | op_create_axiom e => Some (create_axiom e st)
  | op_add_indexof_axiom i => add_indexof_axiom i st
  | op_add_replace_axiom r => add_replace_axiom r st
  | op_add_len_concat_axiom c => add_len_concat_axiom c st
  | op_add_solution l r deps => Some (add_solution l r deps st)
  | op_push_eq e => Some (set_m_eqs (m_eqs st ++ [e]) st)
  | op_remove_eq i => snd <$> remove_eq i st
  end.

(** A script is a sequence of operations and scope changes. *)
Inductive step :=
| do_op (o : operation)
| do_push
| do_pop (num_scopes : nat).

Definition run_step (fuel : nat) (s : step) st : option (theory_seq C) :=
  match s with
  | do_op o => run_op fuel o st
  | do_push => Some (push_scope_eh st)
  | do_pop n => pop_scope_eh n st
  end.

Fixpoint run (fuel : nat) (script : list step) st : option (theory_seq C) :=
  match script with
  | [] => Some st
  | s :: script' => st ← run_step fuel s st; run fuel script' st
  end.

(** Scripts whose scope changes are matched pairs of a push and a pop of one
    scope. *)
Inductive balanced : list step -> Prop :=
| balanced_nil : balanced []
| balanced_op o script : balanced script -> balanced (do_op o :: script)
| balanced_scope inner script :
    balanced inner -> balanced script ->
    balanced (do_push :: inner ++ do_pop 1 :: script).

End Core.

(** ** Reading notions used in the statements *)


(** [v] lies on the chain of selector operands that starts at [t]. *)
Inductive on_select_chain (v : expr) : expr -> Prop :=
| chain_here : on_select_chain v v
| chain_select name r e1 args :
    name = m_left_sym \/ name = m_right_sym ->
    on_select_chain v e1 -> on_select_chain v (app (d_skolem name r) (e1 :: args)).

(** The paths [occurs] follows: concatenations first, then selectors only. *)
Inductive appears_concat_then_select (v : expr) : expr -> Prop :=
| cts_chain t : on_select_chain v t -> appears_concat_then_select v t
| cts_concat_l r e1 e2 :
    appears_concat_then_select v e1 ->
    appears_concat_then_select v (app (d_seq OP_SEQ_CONCAT r) [e1; e2])
| cts_concat_r r e1 e2 :
    appears_concat_then_select v e2 ->
    appears_concat_then_select v (app (d_seq OP_SEQ_CONCAT r) [e1; e2]).

(** The chain of solution-map entries from [e] to the entry-free term [r],
    with the witnesses of its edges in order. *)
Inductive chain (m : gmap expr (expr * enode_pair_dependency))
  : expr -> list enode_pair_dependency -> expr -> Prop :=
| chain_end r : m !! r = None -> chain m r [] r
| chain_edge e r d ws t :
    m !! e = Some (r, d) -> chain m r ws t -> chain m e (d :: ws) t.

(** Truth value of a formula under a valuation [rho] of its atoms: the
    connectives are read, every other term is an atom. *)
Fixpoint holds (rho : expr -> bool) (e : expr) : bool :=
  match e with
  | app (d_basic OP_TRUE) [] => true
  | app (d_basic OP_FALSE) [] => false
  | app (d_basic OP_NOT) [a] => negb (holds rho a)
  | app (d_basic OP_OR) es =>
      (fix any (l : list expr) : bool :=
         match l with [] => false | x :: l' => holds rho x || any l' end) es
  | app (d_basic OP_AND) es =>
      (fix all (l : list expr) : bool :=
         match l with [] => true | x :: l' => holds rho x && all l' end) es
  | _ => rho e
  end.

(** The candidates [find_branch_candidate] goes through for the atoms
    [rs[j]], [rs[j+1]], ...: for each atom the proper prefixes of a string
    atom appended to the candidate built so far, then the candidate extended
    by the atom; the list ends at the first atom in which [l] occurs. *)
Fixpoint atom_candidates (l : expr) (j : nat) (rs : list expr) (v0 : expr) : list expr :=
  match rs with
  | [] => []
  | rj :: rs' =>
      if occurs l rj then []
      else
        let v0' := if j =? 0 then rj else mk_concat v0 rj in
        match is_string rj with
        | Some s =>
            map (fun k => mk_concat v0 (mk_string (substring 0 k s)))
              (seq 1 (String.length s - 1))
        | None => []
        end ++ v0' :: atom_candidates l (S j) rs' v0'
  end.

Definition candidates (l : expr) (rs : list expr) : list expr :=
  mk_empty (get_sort l) :: atom_candidates l 0 rs (mk_empty (get_sort l)).

(** Every candidate alignment of the equation, whether the occurs check lets
    it through or not: the candidates the loop of [find_branch_candidate]
    builds when it runs over all of [rs], in the order it builds them. *)
Fixpoint atom_alignments (j : nat) (rs : list expr) (v0 : expr) : list expr :=
  match rs with
  | [] => []
  | rj :: rs' =>
      let v0' := if j =? 0 then rj else mk_concat v0 rj in
      match is_string rj with
      | Some s =>
          map (fun k => mk_concat v0 (mk_string (substring 0 k s)))
            (seq 1 (String.length s - 1))
      | None => []
      end ++ v0' :: atom_alignments (S j) rs' v0'
  end.

Definition alignments (l : expr) (rs : list expr) : list expr :=
  mk_empty (get_sort l) :: atom_alignments 0 rs (mk_empty (get_sort l)).

Section BranchingNotions.
Context {C : Type} `{SmtContext C} `{AstIds}.
Implicit Type st : theory_seq C.

(** The state after the pair [(l, r)] has been proposed to the host. *)
Definition proposed (l r : expr) st : theory_seq C :=
  on_ctx (ctx_assume_eq l r)
    (if ctx_e_internalized (ctx st) r then st else on_ctx (ctx_internalize r) st).

(** Proposing the first candidate of a list that is not excluded. *)
Definition propose_first (l : expr) (cs : list expr) st : bool * theory_seq C :=
  match filter (fun c => exclusion_table.contains l c (m_exclude st) = false) cs with
  | [] => (false, st)
  | c :: _ => (true, proposed l c st)
  end.

(** The candidate [c] for [l] is skipped: the occurs check blocks it or the
    pair is in the exclusion table. *)
Definition skipped (l c : expr) st : bool :=
  occurs l c || exclusion_table.contains l c (m_exclude st).

End BranchingNotions.

(** ** Scope discipline *)

(** [s'] extends the solution map [s] within the current scope: the marks
    are the same, the trail has grown, and undoing the new rows from the
    last one down gives back the map of [s]. *)
Definition rep_ext (s s' : solution_map.t) : Prop :=
  solution_map.m_limit s' = solution_map.m_limit s /\
  exists suf,
    solution_map.m_updates s' = solution_map.m_updates s ++ suf /\
    foldr solution_map.undo (solution_map.m_map s') suf = solution_map.m_map s.

(** The same for the exclusion table: removing the new pairs gives back the
    table of [s]. *)
Definition excl_ext (s s' : exclusion_table.t) : Prop :=
  exclusion_table.m_limit s' = exclusion_table.m_limit s /\
  exists suf,
    exclusion_table.m_pairs s' = exclusion_table.m_pairs s ++ suf /\
    exclusion_table.m_table s' ∖ list_to_set suf = exclusion_table.m_table s.

(** The fields the trail objects of [m_trail_stack] restore, apart from the
    axiom cursor. *)
Definition guarded {C : Type} (st : theory_seq C) : bool * list expr * list expr :=
  (m_incomplete st, m_axioms st, m_ineqs st).

Definition undo_guarded (t : trail) (g : bool * list expr * list expr)
  : bool * list expr * list expr :=
  match t with
  | value_trail_incomplete old => (old, g.1.2, g.2)
  | value_trail_axioms_head _ => g
  | push_back_vector_axioms => (g.1.1, removelast g.1.2, g.2)
  | push_back_vector_ineqs => (g.1.1, g.1.2, removelast g.2)
  end.

Definition trail_ext {C : Type} (st st' : theory_seq C) : Prop :=
  ts_scopes (m_trail_stack st') = ts_scopes (m_trail_stack st) /\
  exists suf,
    ts_trail (m_trail_stack st') = ts_trail (m_trail_stack st) ++ suf /\
    foldr undo_guarded (guarded st') suf = guarded st.

(** [st'] is reached from [st] without leaving the current scope: every
    scoped store has only been extended under its trail, the saved frames
    are untouched, and the incompleteness flag has not been cleared. *)
Definition ext {C : Type} (st st' : theory_seq C) : Prop :=
  rep_ext (m_rep st) (m_rep st') /\
  excl_ext (m_exclude st) (m_exclude st') /\
  m_saved st' = m_saved st /\
  trail_ext st st' /\
  (m_incomplete st = true -> m_incomplete st' = true).

(** Everything [push_scope_eh] and [pop_scope_eh] are in charge of: all of
    the state but the host context, the statistics, the branching cursor
    and the model-completion switch. *)
Definition scoped {C : Type} (st : theory_seq C) :=
  (m_rep st, m_exclude st, m_eqs st, m_saved st, m_ineqs st, m_axioms st,
   m_axioms_head st, m_incomplete st, m_trail_stack st).

(** The fields [canonize] leaves alone: all but the solution map and the
    host context. *)
Definition outside_rep {C : Type} (st : theory_seq C) :=
  (m_exclude st, m_eqs st, m_saved st, m_ineqs st, m_axioms st, m_axioms_head st,
   m_branch_variable_head st, m_incomplete st, m_model_completion st, m_stats st,
   m_trail_stack st).

Section CanonNotions.
Context {C : Type}.
Implicit Type st : theory_seq C.

(** [st'] differs from [st] in the host context and in an extension of the
    solution map only. *)
Definition canon_step st st' : Prop :=
  outside_rep st' = outside_rep st /\ rep_ext (m_rep st) (m_rep st').

(** One run of the canonizer: besides, the dependency only gains witnesses,
    and outside model-completion mode the host context is not touched. *)
Definition canon_run (eqs : enode_pair_dependency) st (eqs' : enode_pair_dependency) st'
  : Prop :=
  canon_step st st' /\
  linearize eqs ⊆ linearize eqs' /\
  (m_model_completion st = false -> ctx st' = ctx st).

End CanonNotions.

Section DriverNotions.
Context {C : Type} `{SmtContext C} `{Rewriter}.
Implicit Type st : theory_seq C.

(** The atoms of a list have been canonized one after the other, starting in
    [st] and ending in [st'], and none of them came out true. *)
Inductive scanned (fuel : nat) : list expr -> theory_seq C -> theory_seq C -> Prop :=
| scanned_nil st : scanned fuel [] st st
| scanned_cons a rest st b eqs st1 st2 :
    canonize fuel a None st = Some (b, eqs, st1) ->
    is_true b = false ->
    scanned fuel rest st1 st2 ->
    scanned fuel (a :: rest) st st2.

(** What [check_ineqs] reports for the atom [a] whose canonical form is true
    under the witnesses [eqs]: the atom is internalized and its literal is
    assigned, justified by the e-pairs of [eqs]. *)
Definition refuted (a : expr) (eqs : enode_pair_dependency) st : theory_seq C :=
  let c := ctx_internalize a (ctx st) in
  let lit := ctx_get_literal c a in
  let js := ext_theory_propagation_justification [] (linearize eqs) lit in
  set_ctx (ctx_assign lit js (ctx_mark_as_relevant lit c)) st.

End DriverNotions.

(** ** A recording host

    A host context that records the calls it receives, used to run the core
    on concrete inputs.  It reports inconsistency once a conflict was set,
    treats a term as internalized once it was asked to internalize it, and
    keeps the table of attached theory variables. *)

Inductive host_call :=
| h_internalize (e : expr)
| h_mark_as_relevant (l : literal)
| h_assign (l : literal) (js : justification)
| h_assign_eq (n1 n2 : enode) (js : justification)
| h_set_conflict (js : justification)
| h_assume_eq (n1 n2 : enode)
| h_mk_th_axiom (ls : list literal)
| h_mk_bool_var (e : expr)
| h_set_var_theory (v : bool_var)
| h_set_enode_flag (v : bool_var)
| h_mk_enode (e : expr)
| h_push_scope
| h_pop_scope (n : nat)
| h_add_trail (e : expr).

Record recorder := mk_recorder {
  calls : list host_call;
  th_vars : list enode
}.

Definition record_call (h : host_call) (c : recorder) : recorder :=
  mk_recorder (calls c ++ [h]) (th_vars c).

Definition is_conflict_call (h : host_call) : bool :=
  match h with h_set_conflict _ => true | _ => false end.

Definition is_internalize_of (e : expr) (h : host_call) : bool :=
  match h with
  | h_internalize e' | h_mk_enode e' => bool_decide (e' = e)
  | _ => false
  end.

#[global] Instance recorder_context : SmtContext recorder := {
  ctx_inconsistent c := existsb is_conflict_call (calls c);
  ctx_e_internalized c e := existsb (is_internalize_of e) (calls c);
  ctx_internalize e := record_call (h_internalize e);
  ctx_get_literal _ e := mk_literal e false;
  ctx_mark_as_relevant l := record_call (h_mark_as_relevant l);
  ctx_assign l js := record_call (h_assign l js);
  ctx_assign_eq n1 n2 js := record_call (h_assign_eq n1 n2 js);
  ctx_set_conflict js := record_call (h_set_conflict js);
  ctx_assume_eq n1 n2 := record_call (h_assume_eq n1 n2);
  ctx_mk_th_axiom ls := record_call (h_mk_th_axiom ls);
  ctx_mk_bool_var e := record_call (h_mk_bool_var e);
  ctx_set_var_theory v := record_call (h_set_var_theory v);
  ctx_set_enode_flag v := record_call (h_set_enode_flag v);
  ctx_mk_enode e := record_call (h_mk_enode e);
  ctx_is_attached_to_var c n := bool_decide (n ∈ th_vars c);
  ctx_attach_th_var n c := mk_recorder (calls c) (th_vars c ++ [n]);
  ctx_var2enode c v := nth v (th_vars c) mk_true;
  ctx_get_root _ n := n;
  ctx_eq_class _ n := [n];
  ctx_enodes_of _ _ := [];
  theory_push_scope_eh := record_call h_push_scope;
  theory_pop_scope_eh n := record_call (h_pop_scope n);
  factory_get_fresh_value _ c := (None, c);
  factory_add_trail e := record_call (h_add_trail e)
}.

(** Identifiers read off the term itself. *)
#[global] Instance structural_ids : AstIds := fun e => Npos (encode e).

(** A rewriter that knows one rule, [t = t] is true, and a reducer that
    knows three cases: identical sides need nothing, two different string
    literals are inconsistent, anything else is returned as it came. *)
Definition rewrite_refl_eq (e : expr) : expr :=
  match is_eq e with
  | Some (a, b) => if bool_decide (a = b) then mk_true else e
  | None => e
  end.

Definition plain_reduce_eq (l r : expr) : option (list expr * list expr) :=
  if bool_decide (l = r) then Some ([], [])
  else
    match is_string l, is_string r with
    | Some _, Some _ => None
    | _, _ => Some ([l], [r])
    end.

#[global] Instance plain_rewriter : Rewriter :=
  {| m_rewrite := rewrite_refl_eq; reduce_eq := plain_reduce_eq |}.

Definition blank : recorder := mk_recorder [] [].

(** Some terms to run on. *)
Definition string_var (name : string) : expr := app (d_uninterp name string_sort) [].
Definition var_x : expr := string_var "x".
Definition var_y : expr := string_var "y".
Definition var_z : expr := string_var "z".
Definition mk_index (s t : expr) : expr := app (d_seq OP_SEQ_INDEX int_sort) [s; t].


(** A solution map with the two entries [x ↦ y] and [y ↦ z]. *)
Definition dep_xy : enode_pair_dependency := mk_leaf (var_x, var_y).
Definition dep_yz : enode_pair_dependency := mk_leaf (var_y, var_z).
Definition rep_xyz : solution_map.t :=
  solution_map.update var_y var_z dep_yz
    (solution_map.update var_x var_y dep_xy solution_map.empty).


(** A state over the recording host with a given exclusion table. *)
Definition with_excluded (pairs : list (expr * expr)) : theory_seq recorder :=
  set_m_exclude
    (foldl (fun tb p => exclusion_table.update p.1 p.2 tb) exclusion_table.empty pairs)
    (init blank).

(** A host that knows the terms [x] and [y ⌢ z] as theory variables 0 and 1
    and has internalized the length term [|x|]. *)
Definition host_x_yz : recorder :=
  mk_recorder [h_internalize (mk_length var_x)] [var_x; mk_concat var_y var_z].

(** A state whose solution map sends [x] to [y] and whose inequation list
    holds the atoms [x = z], [x = y] and [y = z]. *)
Definition st_ineqs : theory_seq recorder :=
  set_m_ineqs [mk_eq var_x var_z; mk_eq var_x var_y; mk_eq var_y var_z]
    (set_m_rep (solution_map.update var_x var_y dep_xy solution_map.empty) (init blank)).

(** A state whose solution map sends [x] to [y] and whose frame holds the
    pending equation [x = z]. *)
Definition st_x_eq_z : theory_seq recorder :=
  set_m_eqs [(var_x, var_z, None)]
    (set_m_rep (solution_map.update var_x var_y dep_xy solution_map.empty) (init blank)).

(** The state after the length term [|x|] has been internalized. *)
Definition st_length : theory_seq recorder :=
  (internalize_term (mk_length var_x) (init blank)).2.

(** A script: one solution is recorded, then a scope is pushed, in which the
    solution is overwritten, an equation and a disequation arrive, a length
    term is internalized, an axiom is queued and sent, a nested scope comes
    and goes and the final check runs. *)
Definition script_before : list (@step) :=
  [do_op (op_rep_update var_x var_y dep_xy)].

Definition script_inner : list (@step) :=
  [do_op (op_rep_update var_y var_z dep_yz);
   do_op (op_new_eq 0 1);
   do_op (op_new_diseq 0 1);
   do_op (op_internalize_term (mk_length var_x));
   do_op (op_create_axiom (mk_le (mk_int 0) (mk_length var_x)));
   do_op op_propagate;
   do_push;
   do_op (op_rep_find var_x);
   do_pop 1;
   do_op op_final_check].

(** What goes on after the length term has been internalized: an axiom is
    queued and sent, and a nested scope comes and goes. *)
Definition script_after_length : list (@step) :=
  [do_op (op_create_axiom (mk_le (mk_int 0) (mk_length var_x)));
   do_op op_propagate;
   do_push;
   do_op (op_rep_update var_x var_y dep_xy);
   do_pop 1].

(** ** Further members of [theory_seq] *)

Section MoreCore.
Context {C : Type} `{SmtContext C} `{Rewriter} `{AstIds}.
Implicit Type st : theory_seq C.

(** [~theory_seq]: the scopes that are still open are popped,
    [m_lhs.size() - 1] of them; the calls that follow only free the frame
    that is left. *)
Definition destructor st : option (theory_seq C) :=
  let num_scopes := length (m_saved st) in
  if 0 <? num_scopes then pop_scope_eh num_scopes st else Some st.

(** [collect_statistics]: the two calls of [st.update], in order. *)
Definition collect_statistics st : list (string * N) :=
  [("seq num splits", m_num_splits (m_stats st));
   ("seq num reductions", m_num_reductions (m_stats st))].

End MoreCore.

(** ** Further reading notions *)

(** The marks of a scoped store are in range when, followed by the current
    size of the trail they index, they are in ascending order. *)
Fixpoint ascending (l : list nat) : bool :=
  match l with
  | a :: rest =>
      match rest with
      | b :: _ => (a <=? b) && ascending rest
      | [] => true
      end
  | [] => true
  end.

Definition marks_ok (limit : list nat) (size : nat) : bool := ascending (limit ++ [size]).

(** The scoped stores agree on the number of open scopes, and the marks of
    each are in range. *)
Definition well_scoped {C : Type} (st : theory_seq C) : Prop :=
  length (solution_map.m_limit (m_rep st)) = length (m_saved st) /\
  length (exclusion_table.m_limit (m_exclude st)) = length (m_saved st) /\
  length (ts_scopes (m_trail_stack st)) = length (m_saved st) /\
  marks_ok (solution_map.m_limit (m_rep st))
    (length (solution_map.m_updates (m_rep st))) = true /\
  marks_ok (exclusion_table.m_limit (m_exclude st))
    (length (exclusion_table.m_pairs (m_exclude st))) = true /\
  marks_ok (ts_scopes (m_trail_stack st)) (length (ts_trail (m_trail_stack st))) = true.

(** The exclusion table holds the recorded pairs and nothing else, no pair
    is recorded twice, and every recorded pair is made of two different
    terms, the one with the smaller identifier first. *)
Definition excl_wf `{AstIds} (s : exclusion_table.t) : Prop :=
  exclusion_table.m_table s = list_to_set (exclusion_table.m_pairs s) /\
  NoDup (exclusion_table.m_pairs s) /\
  forall a b, (a, b) ∈ exclusion_table.m_pairs s -> a <> b /\ (get_id a <= get_id b)%N.

(** Scripts that leave [k] scopes open: balanced stretches separated by [k]
    pushes. *)
Inductive opened : nat -> list step -> Prop :=
| opened_0 script : balanced script -> opened 0 script
| opened_S k script rest :
    balanced script -> opened k rest -> opened (S k) (script ++ do_push :: rest).

Section MoreNotions.
Context {C : Type} `{SmtContext C} `{AstIds}.
Implicit Type st : theory_seq C.

(** Equation [k] of the current frame offers a case split: the candidate
    search succeeds for the head atom of one of its sides. *)
Definition offers st (k : nat) : bool :=
  match m_eqs st !! k with
  | Some (l, r, _) =>
      match get_concat l with
      | l0 :: _ => (find_branch_candidate l0 (get_concat r) st).1
      | [] => false
      end ||
      match get_concat r with
      | r0 :: _ => (find_branch_candidate r0 (get_concat l) st).1
      | [] => false
      end
  | None => false
  end.

End MoreNotions.

(** The exclusion table [s'] is [s] after further calls of [update]. *)
Definition excl_grows `{AstIds} (s s' : exclusion_table.t) : Prop :=
  exists l : list (expr * expr),
    s' = foldl (fun tb p => exclusion_table.update p.1 p.2 tb) s l.

(** What no operation between two scope changes does: it takes nothing out
    of the exclusion table and leaves the model-completion switch and the
    split counter as they are. *)
Definition steady `{AstIds} {C : Type} (st st' : theory_seq C) : Prop :=
  excl_grows (m_exclude st) (m_exclude st') /\
  m_model_completion st' = m_model_completion st /\
  m_num_splits (m_stats st') = m_num_splits (m_stats st).

(** A script that leaves two scopes open: after [script_before] a scope is
    pushed, in which a solution is overwritten, a disequation arrives and a
    length term is internalized; then a second scope is pushed, in which an
    axiom is queued, a path is looked up and a prefix atom is assigned
    false. *)
Definition script_outer : list (@step) :=
  [do_op (op_rep_update var_y var_z dep_yz);
   do_op (op_new_diseq 0 1);
   do_op (op_internalize_term (mk_length var_x))].

Definition script_innermost : list (@step) :=
  [do_op (op_create_axiom (mk_le (mk_int 0) (mk_length var_x)));
   do_op (op_rep_find var_x);
   do_op (op_assign (mk_prefix var_x var_y) false)].

Definition script_two_open : list (@step) :=
  script_before ++ do_push :: script_outer ++ do_push :: script_innermost.

(** What may follow the internalization of the length term while its scope
    stays open: the balanced [script_after_length], then a push that is not
    matched, and an operation in the scope it opens. *)
Definition script_unmatched_push : list (@step) :=
  script_after_length ++ do_push :: [do_op (op_rep_update var_x var_y dep_xy)].

(** The state after [script_before], and the state after the whole script. *)
Definition st_base : theory_seq recorder :=
  set_m_rep (solution_map.update var_x var_y dep_xy solution_map.empty) (init host_x_yz).

Definition st_two_open : theory_seq recorder :=
  default (init host_x_yz)
    (run 3 (do_push :: script_outer ++ do_push :: script_innermost) st_base).

(** The state a balanced script leads to after the disequation between the
    theory variables 0 and 1 has arrived. *)
Definition st_after_diseq : theory_seq recorder :=
  default (init host_x_yz) (run 3 script_after_length (new_diseq_eh 0 1 (init host_x_yz))).

(** A replace term to run on. *)
Definition mk_replace (a s t : expr) : expr := app (d_seq OP_SEQ_REPLACE string_sort) [a; s; t].

(** A frame with one equation between two concatenations, [ "a"⌢x = y⌢"b" ],
    which neither the reducer nor the unit solver can take further. *)
Definition st_stuck : theory_seq recorder :=
  set_m_eqs [(mk_concat (mk_string "a") var_x, mk_concat var_y (mk_string "b"), None)]
    (init blank).

(** A frame with the equation [ "a" = "b" ] between two different literals. *)
Definition st_clash : theory_seq recorder :=
  set_m_eqs [(mk_string "a", mk_string "b", dep_xy)] (init blank).

(** The recording host with a value factory that hands out the literal
    ["a"] for every sort. *)
Definition valued_context : SmtContext recorder := {|
  ctx_inconsistent := @ctx_inconsistent recorder recorder_context;
  ctx_e_internalized := @ctx_e_internalized recorder recorder_context;
  ctx_internalize := @ctx_internalize recorder recorder_context;
  ctx_get_literal := @ctx_get_literal recorder recorder_context;
  ctx_mark_as_relevant := @ctx_mark_as_relevant recorder recorder_context;
  ctx_assign := @ctx_assign recorder recorder_context;
  ctx_assign_eq := @ctx_assign_eq recorder recorder_context;
  ctx_set_conflict := @ctx_set_conflict recorder recorder_context;
  ctx_assume_eq := @ctx_assume_eq recorder recorder_context;
  ctx_mk_th_axiom := @ctx_mk_th_axiom recorder recorder_context;
  ctx_mk_bool_var := @ctx_mk_bool_var recorder recorder_context;
  ctx_set_var_theory := @ctx_set_var_theory recorder recorder_context;
  ctx_set_enode_flag := @ctx_set_enode_flag recorder recorder_context;
  ctx_mk_enode := @ctx_mk_enode recorder recorder_context;
  ctx_is_attached_to_var := @ctx_is_attached_to_var recorder recorder_context;
  ctx_attach_th_var := @ctx_attach_th_var recorder recorder_context;
  ctx_var2enode := @ctx_var2enode recorder recorder_context;
  ctx_get_root := @ctx_get_root recorder recorder_context;
  ctx_eq_class := @ctx_eq_class recorder recorder_context;
  ctx_enodes_of := @ctx_enodes_of recorder recorder_context;
  theory_push_scope_eh := @theory_push_scope_eh recorder recorder_context;
  theory_pop_scope_eh := @theory_pop_scope_eh recorder recorder_context;
  factory_get_fresh_value _ c := (Some (mk_string "a"), c);
  factory_add_trail := @factory_add_trail recorder recorder_context
|}.

(** A frame with the unit equation [x = "a"]. *)
Definition st_unit : theory_seq recorder :=
  set_m_eqs [(var_x, mk_string "a", dep_xy)] (init blank).

(** The e-node pair [p] is part of a dependency recorded in the solution
    map [m]. *)
Definition recorded (m : gmap expr (expr * enode_pair_dependency)) (p : enode_pair) : Prop :=
  exists k v d, m !! k = Some (v, d) /\ p ∈ linearize d.

(** The e-node pair [p] is part of a dependency the solver state holds: of
    a solution or of a pending equation of the current frame. *)
Definition known {C : Type} (st : theory_seq C) (p : enode_pair) : Prop :=
  recorded (solution_map.m_map (m_rep st)) p \/
  exists l r d, (l, r, d) ∈ m_eqs st /\ p ∈ linearize d.

(** A frame with the unit equation [x = "a"] and the solution map empty, and
    the state the final check leaves from there. *)
Definition st_after_final_check : theory_seq recorder :=
  (default (FC_DONE, st_unit) (final_check_eh 5 st_unit)).2.

(** ** Properties *)

#[local] Arguments Nat.ltb : simpl never.
#[local] Arguments Nat.eqb : simpl nomatch.
#[local] Arguments solution_map.pop_scope : simpl never.
#[local] Arguments exclusion_table.pop_scope : simpl never.
#[local] Arguments solution_map.find : simpl never.
#[local] Arguments solution_map.update : simpl never.
#[local] Arguments exclusion_table.update : simpl never.
#[local] Arguments exclusion_table.contains : simpl never.

(** *** Occurs check *)

Lemma strip_selects_unfold (a : expr) :
  strip_selects a =
  match is_left_select a with
  | Some e1 => strip_selects e1
  | None =>
      match is_right_select a with
      | Some e1 => strip_selects e1
      | None => a
      end
  end.
Proof.
  destruct a as [[n r|k r|s|n r|k|k] [|e1 args]]; try reflexivity.
  cbn. unfold is_left_select, is_right_select, is_select.
  destruct (bool_decide (n = m_left_sym)); [reflexivity|].
  destruct (bool_decide (n = m_right_sym)); reflexivity.
Qed.

Lemma strip_selects_idem (a : expr) : strip_selects (strip_selects a) = strip_selects a.
Proof.
  induction a as [f args IH] using expr_nested_ind.
  destruct f as [n r|k r|s|n r|k|k]; try reflexivity.
  destruct args as [|e1 args]; [reflexivity|].
  cbn. destruct (bool_decide (n = m_left_sym) || bool_decide (n = m_right_sym)) eqn:E.
  - inversion IH; assumption.
  - cbn. rewrite E. reflexivity.
Qed.

Lemma strip_selects_chain (v t : expr) :
  on_select_chain v t -> strip_selects t = strip_selects v.
Proof.
  induction 1 as [|name r e1 args Hname _ IH]; [reflexivity|].
  cbn. replace (bool_decide (name = m_left_sym) || bool_decide (name = m_right_sym))
    with true; [exact IH|].
  symmetry. apply orb_true_iff. rewrite !bool_decide_eq_true. exact Hname.
Qed.

Lemma occurs_unfold (a b : expr) :
  occurs a b =
  match is_concat b with
  | Some (e1, e2) => occurs (strip_selects a) e1 || occurs (strip_selects a) e2
  | None => bool_decide (strip_selects a = strip_selects b)
  end.
Proof.
  destruct b as [[n r|k r|s|n r|k|k] args]; try reflexivity.
  destruct args as [|e1 [|e2 [|e3 args]]]; destruct k; reflexivity.
Qed.

Lemma occurs_strip (a b : expr) : occurs (strip_selects a) b = occurs a b.
Proof.
  revert a. induction b as [f args IH] using expr_nested_ind. intros a.
  rewrite (occurs_unfold a), (occurs_unfold (strip_selects a)), strip_selects_idem.
  reflexivity.
Qed.

Lemma is_concat_not_var (t e1 e2 : expr) : is_concat t = Some (e1, e2) -> is_var t = false.
Proof.
  destruct t as [[n r|k r|s|n r|k|k] args]; try discriminate. reflexivity.
Qed.

Lemma occurs_on_paths (v t : expr) :
  is_var v = true -> appears_concat_then_select v t -> occurs v t = true.
Proof.
  intros Hv. induction 1 as [t Hc|r e1 e2 _ IH|r e1 e2 _ IH].
  - rewrite occurs_unfold. destruct (is_concat t) as [[e1 e2]|] eqn:E.
    + destruct Hc as [|name r e0 args Hn Hc].
      * apply is_concat_not_var in E. congruence.
      * discriminate.
    + apply bool_decide_eq_true. symmetry. apply strip_selects_chain, Hc.
  - rewrite occurs_unfold. change (is_concat _) with (Some (e1, e2)).
    cbv beta iota. rewrite occurs_strip, IH. reflexivity.
  - rewrite occurs_unfold. change (is_concat _) with (Some (e1, e2)).
    cbv beta iota. rewrite !occurs_strip, IH. apply orb_true_r.
Qed.

(** X1.  What the occurs check does guarantee: it finds a variable [v] on
    every path that goes through concatenations first and selectors after. *)
Lemma occurs_concat_then_select (v t : expr) :
  is_var v = true -> appears_concat_then_select v t -> occurs v t = true.
Proof. apply occurs_on_paths. Qed.

Lemma occurs_concat_then_select_witness :
  is_var var_x = true /\
  occurs var_x (mk_concat var_y (mk_skolem m_left_sym var_x None)) = true.
Proof.
  split; [reflexivity|].
  apply occurs_concat_then_select; [reflexivity|].
  apply cts_concat_r, cts_chain, chain_select; [left; reflexivity|apply chain_here].
Defined.







(** *** Solution map: [find] *)

Lemma find_loop_chain (m : gmap expr (expr * enode_pair_dependency)) (e r : expr)
    (ws : list enode_pair_dependency) (fuel : nat) (d : enode_pair_dependency) (n : nat) :
  chain m e ws r -> length ws <= fuel ->
  solution_map.find_loop fuel m e d n = Some (r, foldl mk_join d ws, n + length ws).
Proof.
  intros Hc. revert fuel d n.
  induction Hc as [r Hr|e r0 d0 ws t He _ IH]; intros fuel d n Hfuel.
  - destruct fuel; cbn; rewrite Hr; cbn; do 3 f_equal; lia.
  - cbn in Hfuel. destruct fuel as [|fuel]; [lia|].
    cbn. rewrite He. cbn. rewrite IH by lia. do 2 f_equal. lia.
Qed.

Lemma chain_end_free (m : gmap expr (expr * enode_pair_dependency)) (e r : expr)
    (ws : list enode_pair_dependency) :
  chain m e ws r -> m !! r = None.
Proof. induction 1; assumption. Qed.

(** C7.  [find(e)] follows the entries from [e] to the first term [r] without
    an entry and returns [r] with the join of the witnesses of the edges it
    went through.  After two or more edges it has called [update(e, r, d)]:
    the map sends [e] to [r] under the joined witness, and the trail has
    grown by the row that saves the overwritten entry and the row of the
    insertion.  After fewer edges the solution map is unchanged. *)
Theorem find_walks_and_compresses (s : solution_map.t) (e r : expr)
    (ws : list enode_pair_dependency) (fuel : nat) :
  chain (solution_map.m_map s) e ws r -> length ws <= fuel ->
  let d := foldl mk_join None ws in
  exists s',
    solution_map.find fuel e s = Some (r, d, s') /\
    solution_map.m_map s !! r = None /\
    (length ws < 2 -> s' = s) /\
    (2 <= length ws ->
       exists r1 d1,
         (solution_map.m_map s !! e = Some (r1, d1)) /\
         (solution_map.m_map s' = <[e := (r, d)]> (solution_map.m_map s)) /\
         (solution_map.m_updates s' =
            solution_map.m_updates s ++
              [(solution_map.DEL, e, r1, d1); (solution_map.INS, e, r, d)]) /\
         (solution_map.m_limit s' = solution_map.m_limit s)).
Proof.
  intros Hc Hfuel d.
  unfold solution_map.find. rewrite (find_loop_chain _ _ _ _ _ _ _ Hc Hfuel).
  cbn -[Nat.ltb]. eexists. split; [reflexivity|]. split; [eapply chain_end_free, Hc|]. split.
  - intros Hlt. destruct (1 <? length ws) eqn:E; [|reflexivity].
    apply Nat.ltb_lt in E. lia.
  - intros Hge. destruct (1 <? length ws) eqn:E; [|apply Nat.ltb_ge in E; lia].
    inversion Hc as [|e0 r1 d1 ws' t He Hc' Heq]; subst; [cbn in Hge; lia|].
    exists r1, d1. split; [exact He|].
    unfold solution_map.update. rewrite He. cbn. rewrite <- app_assoc. auto.
Qed.

Lemma rep_xyz_chain :
  chain (solution_map.m_map rep_xyz) var_x [dep_xy; dep_yz] var_z.
Proof.
  eapply chain_edge; [vm_compute; reflexivity|].
  eapply chain_edge; [vm_compute; reflexivity|].
  apply chain_end. vm_compute. reflexivity.
Defined.

Lemma find_walks_and_compresses_witness :
  exists s',
    solution_map.find 2 var_x rep_xyz = Some (var_z, mk_join dep_xy dep_yz, s') /\
    solution_map.m_map rep_xyz !! var_z = None /\
    (length [dep_xy; dep_yz] < 2 -> s' = rep_xyz) /\
    (2 <= length [dep_xy; dep_yz] ->
       exists r1 d1,
         (solution_map.m_map rep_xyz !! var_x = Some (r1, d1)) /\
         (solution_map.m_map s' =
            <[var_x := (var_z, mk_join dep_xy dep_yz)]> (solution_map.m_map rep_xyz)) /\
         (solution_map.m_updates s' =
            solution_map.m_updates rep_xyz ++
              [(solution_map.DEL, var_x, r1, d1);
               (solution_map.INS, var_x, var_z, mk_join dep_xy dep_yz)]) /\
         (solution_map.m_limit s' = solution_map.m_limit rep_xyz)).
Proof.
  apply (find_walks_and_compresses rep_xyz var_x var_z [dep_xy; dep_yz] 2).
  - exact rep_xyz_chain.
  - cbn. lia.
Defined.

(** *** Axiom factory: [add_indexof_axiom] *)

Section Axioms.
Context {C : Type}.
Implicit Type st : theory_seq C.

Lemma holds_or2 (rho : expr -> bool) (a b : expr) :
  holds rho (mk_or [a; b]) = holds rho a || holds rho b.
Proof. cbn. rewrite orb_false_r. reflexivity. Qed.

Lemma holds_or3 (rho : expr -> bool) (a b c : expr) :
  holds rho (mk_or [a; b; c]) = holds rho a || (holds rho b || holds rho c).
Proof. cbn. rewrite orb_false_r. reflexivity. Qed.

Lemma holds_and3 (rho : expr -> bool) (a b c : expr) :
  holds rho (mk_and [a; b; c]) = holds rho a && (holds rho b && holds rho c).
Proof. cbn. rewrite andb_true_r. reflexivity. Qed.

Lemma holds_not (rho : expr -> bool) (a : expr) :
  holds rho (mk_not a) = negb (holds rho a).
Proof. reflexivity. Qed.

Lemma holds_eq (rho : expr -> bool) (a b : expr) :
  holds rho (mk_eq a b) = rho (mk_eq a b).
Proof. reflexivity. Qed.

Lemma holds_contains (rho : expr -> bool) (a b : expr) :
  holds rho (mk_contains a b) = rho (mk_contains a b).
Proof. reflexivity. Qed.

(** C8.  For [i = indexof(s, t)] the factory appends exactly four clauses to
    the axiom queue.  Read as formulas over their atoms they say:
    not contains(s,t) implies i = -1; contains(s,t) and s = empty imply
    i = 0; contains(s,t) and s nonempty imply t = x⌢s⌢y and the tightest
    prefix constraint, which is s = first(s)⌢last(s), |last(s)| = 1 and
    not contains(s, x⌢first(s)), over the skolems first(s) and last(s). *)
Theorem add_indexof_axiom_clauses (i s t : expr) st :
  is_index i = Some (s, t) ->
  let x := mk_skolem m_contains_left_sym s (Some t) in
  let y := mk_skolem m_contains_right_sym s (Some t) in
  let s1 := mk_skolem "first" s None in
  let c := mk_skolem "last" s None in
  let cnt := mk_contains s t in
  let eq_empty := mk_eq s (mk_empty (get_sort s)) in
  let split_s := mk_eq s (mk_concat s1 c) in
  let unit_c := mk_eq (mk_length c) (mk_int 1) in
  let early := mk_contains s (mk_concat x s1) in
  let c1 := mk_or [cnt; mk_eq i (mk_int (-1))] in
  let c2 := mk_or [mk_not cnt; mk_not eq_empty; mk_eq i (mk_int 0)] in
  let c3 := mk_or [mk_not cnt; eq_empty; mk_eq t (mk_concat3 x s y)] in
  let c4 := mk_or [mk_not cnt; eq_empty; mk_and [split_s; unit_c; mk_not early]] in
  exists st',
    add_indexof_axiom i st = Some st' /\
    m_axioms st' = m_axioms st ++ [c1; c2; c3; c4] /\
    tightest_prefix s x = mk_and [split_s; unit_c; mk_not early] /\
    (forall rho, holds rho c1 = implb (negb (rho cnt)) (rho (mk_eq i (mk_int (-1))))) /\
    (forall rho, holds rho c2 = implb (rho cnt && rho eq_empty) (rho (mk_eq i (mk_int 0)))) /\
    (forall rho, holds rho c3 && holds rho c4 =
                 implb (rho cnt && negb (rho eq_empty))
                   (rho (mk_eq t (mk_concat3 x s y)) &&
                    (rho split_s && (rho unit_c && negb (rho early))))).
Proof.
  intros Hi x y s1 c cnt eq_empty split_s unit_c early c1 c2 c3 c4.
  unfold add_indexof_axiom. rewrite Hi. cbn [mbind option_bind].
  eexists. split; [reflexivity|]. split.
  { unfold create_axiom. cbn. rewrite <- !app_assoc. reflexivity. }
  split; [reflexivity|].
  split; [|split]; intros rho.
  - unfold c1. rewrite holds_or2. unfold cnt at 1.
    rewrite holds_contains, holds_eq. fold cnt. destruct (rho cnt); reflexivity.
  - unfold c2. rewrite holds_or3, !holds_not. unfold cnt at 1, eq_empty at 1.
    rewrite holds_contains, !holds_eq. fold cnt eq_empty.
    destruct (rho cnt), (rho eq_empty); reflexivity.
  - unfold c3, c4. rewrite !holds_or3, holds_and3, !holds_not.
    unfold cnt at 1 2, eq_empty at 1 2, split_s at 1, unit_c at 1, early at 1.
    rewrite !holds_contains, !holds_eq. fold cnt eq_empty split_s unit_c early.
    destruct (rho cnt), (rho eq_empty), (rho (mk_eq t (mk_concat3 x s y)));
      try reflexivity; cbn; rewrite ?andb_true_r; reflexivity.
Qed.

End Axioms.

Lemma add_indexof_axiom_clauses_witness :
  let i := mk_index var_x var_y in
  let s := var_x in
  let t := var_y in
  let st := init blank in
  let x := mk_skolem m_contains_left_sym s (Some t) in
  let y := mk_skolem m_contains_right_sym s (Some t) in
  let s1 := mk_skolem "first" s None in
  let c := mk_skolem "last" s None in
  let cnt := mk_contains s t in
  let eq_empty := mk_eq s (mk_empty (get_sort s)) in
  let split_s := mk_eq s (mk_concat s1 c) in
  let unit_c := mk_eq (mk_length c) (mk_int 1) in
  let early := mk_contains s (mk_concat x s1) in
  let c1 := mk_or [cnt; mk_eq i (mk_int (-1))] in
  let c2 := mk_or [mk_not cnt; mk_not eq_empty; mk_eq i (mk_int 0)] in
  let c3 := mk_or [mk_not cnt; eq_empty; mk_eq t (mk_concat3 x s y)] in
  let c4 := mk_or [mk_not cnt; eq_empty; mk_and [split_s; unit_c; mk_not early]] in
  exists st',
    add_indexof_axiom i st = Some st' /\
    m_axioms st' = m_axioms st ++ [c1; c2; c3; c4] /\
    tightest_prefix s x = mk_and [split_s; unit_c; mk_not early] /\
    (forall rho, holds rho c1 = implb (negb (rho cnt)) (rho (mk_eq i (mk_int (-1))))) /\
    (forall rho, holds rho c2 = implb (rho cnt && rho eq_empty) (rho (mk_eq i (mk_int 0)))) /\
    (forall rho, holds rho c3 && holds rho c4 =
                 implb (rho cnt && negb (rho eq_empty))
                   (rho (mk_eq t (mk_concat3 x s y)) &&
                    (rho split_s && (rho unit_c && negb (rho early))))).
Proof.
  exact (add_indexof_axiom_clauses (mk_index var_x var_y) var_x var_y (init blank) eq_refl).
Defined.


(** *** Event handler [new_eq_eh] *)

Section NewEq.
Context {C : Type} `{SmtContext C}.
Implicit Type st : theory_seq C.

(** The guard on [f_len] makes [new_eq_len_concat] return the state as it
    got it. *)
Lemma new_eq_len_concat_inert (n1 n2 : enode) st : new_eq_len_concat n1 n2 st = Some st.
Proof. unfold new_eq_len_concat, f_len. destruct (is_seq n1); reflexivity. Qed.

(** C5 (amended).  For distinct e-nodes [new_eq_eh] appends the pending
    equation tagged with the leaf dependency of the pair to the current
    frame and changes nothing else: both calls of [new_eq_len_concat]
    return at the guard on [f_len], so no axiom is enqueued. *)
Theorem new_eq_eh_appends_equation_only (v1 v2 : theory_var) st :
  let n1 := ctx_var2enode (ctx st) v1 in
  let n2 := ctx_var2enode (ctx st) v2 in
  n1 <> n2 ->
  let st' := set_m_eqs (m_eqs st ++ [(n1, n2, mk_leaf (n1, n2))]) st in
  new_eq_eh v1 v2 st = Some st' /\
  new_eq_len_concat n1 n2 st' = Some st' /\
  new_eq_len_concat n2 n1 st' = Some st' /\
  m_axioms st' = m_axioms st /\
  m_trail_stack st' = m_trail_stack st.
Proof.
  intros n1 n2 Hne st'. split.
  { unfold new_eq_eh. fold n1 n2.
    rewrite bool_decide_eq_true_2 by exact Hne. fold st'.
    rewrite new_eq_len_concat_inert. cbn [mbind option_bind].
    apply new_eq_len_concat_inert. }
  repeat split; apply new_eq_len_concat_inert.
Qed.

End NewEq.

Lemma new_eq_eh_appends_equation_only_witness :
  let st := init host_x_yz in
  let n1 := ctx_var2enode (ctx st) 0 in
  let n2 := ctx_var2enode (ctx st) 1 in
  (n1 = var_x /\ n2 = mk_concat var_y var_z) /\
  let st' := set_m_eqs (m_eqs st ++ [(n1, n2, mk_leaf (n1, n2))]) st in
  new_eq_eh 0 1 st = Some st' /\
  new_eq_len_concat n1 n2 st' = Some st' /\
  new_eq_len_concat n2 n1 st' = Some st' /\
  m_axioms st' = m_axioms st /\
  m_trail_stack st' = m_trail_stack st.
Proof.
  split; [split; reflexivity|].
  refine (new_eq_eh_appends_equation_only 0 1 (init host_x_yz) _).
  cbn. discriminate.
Defined.

(** C5 as stated fails: the class of [x] carries the length term [|x|] and
    [x] is merged with the concatenation [y ⌢ z], yet the axiom queue is
    empty after [new_eq_eh]; the axiom |y⌢z| = |y|+|z| is not enqueued. *)
Lemma new_eq_eh_enqueues_no_axiom :
  exists st',
    new_eq_eh 0 1 (init host_x_yz) = Some st' /\
    ctx_e_internalized (ctx st') (mk_length var_x) = true /\
    m_eqs st' = [(var_x, mk_concat var_y var_z, mk_leaf (var_x, mk_concat var_y var_z))] /\
    m_axioms st' = [] /\
    can_propagate st' = false.
Proof. eexists. repeat split; vm_compute; reflexivity. Qed.

(** *** Branching: [find_branch_candidate] *)

Section Branching.
Context {C : Type} `{SmtContext C} `{AstIds}.
Implicit Type st : theory_seq C.

Lemma assume_equality_excluded (l r : expr) st :
  exclusion_table.contains l r (m_exclude st) = true -> assume_equality l r st = (false, st).
Proof. intros E. unfold assume_equality. rewrite E. reflexivity. Qed.

Lemma assume_equality_proposes (l r : expr) st :
  exclusion_table.contains l r (m_exclude st) = false ->
  assume_equality l r st = (true, proposed l r st).
Proof. intros E. unfold assume_equality, proposed. rewrite E. reflexivity. Qed.

Lemma propose_first_cons (l c : expr) (cs : list expr) st :
  propose_first l (c :: cs) st =
  if exclusion_table.contains l c (m_exclude st) then propose_first l cs st
  else (true, proposed l c st).
Proof.
  unfold propose_first. rewrite filter_cons.
  destruct (exclusion_table.contains l c (m_exclude st)) eqn:E.
  - rewrite decide_False by congruence. reflexivity.
  - rewrite decide_True by reflexivity. reflexivity.
Qed.

Lemma propose_first_app (l : expr) (cs1 cs2 : list expr) st :
  propose_first l (cs1 ++ cs2) st =
  let '(b, st') := propose_first l cs1 st in
  if b then (true, st') else propose_first l cs2 st.
Proof.
  induction cs1 as [|c cs1 IH]; [reflexivity|].
  rewrite <- app_comm_cons, !propose_first_cons.
  destruct (exclusion_table.contains l c (m_exclude st)); [exact IH|reflexivity].
Qed.

Lemma propose_first_unchanged (l : expr) (cs : list expr) st st' :
  propose_first l cs st = (false, st') -> st' = st.
Proof.
  unfold propose_first.
  destruct (filter _ cs); intros E; [injection E as <-; reflexivity|discriminate].
Qed.

Lemma branch_prefixes_spec (l v0 : expr) (s : string) (ks : list nat) st :
  branch_prefixes l v0 s ks st =
  propose_first l (map (fun k => mk_concat v0 (mk_string (substring 0 k s))) ks) st.
Proof.
  induction ks as [|k ks IH]; [reflexivity|].
  cbn [branch_prefixes map]. rewrite propose_first_cons.
  destruct (exclusion_table.contains l _ (m_exclude st)) eqn:E.
  - rewrite (assume_equality_excluded _ _ _ E). exact IH.
  - rewrite (assume_equality_proposes _ _ _ E). reflexivity.
Qed.

Lemma branch_atoms_spec (l : expr) (rs : list expr) (j : nat) (v0 : expr) st :
  branch_atoms l j rs v0 st = propose_first l (atom_candidates l j rs v0) st.
Proof.
  revert j v0. induction rs as [|rj rs IH]; intros j v0; [reflexivity|].
  cbn [branch_atoms atom_candidates].
  destruct (occurs l rj); [reflexivity|].
  rewrite propose_first_app.
  remember (match is_string rj with
            | Some s => branch_prefixes l v0 s (seq 1 (String.length s - 1)) st
            | None => (false, st)
            end) as pre eqn:Epre.
  assert (Hpre : pre = propose_first l
                   match is_string rj with
                   | Some s => map (fun k => mk_concat v0 (mk_string (substring 0 k s)))
                                 (seq 1 (String.length s - 1))
                   | None => []
                   end st).
  { subst pre. destruct (is_string rj); [apply branch_prefixes_spec|reflexivity]. }
  clear Epre. rewrite <- Hpre. destruct pre as [[|] st1]; [reflexivity|].
  symmetry in Hpre. apply propose_first_unchanged in Hpre. subst st1.
  rewrite propose_first_cons.
  destruct (exclusion_table.contains l _ (m_exclude st)) eqn:E.
  - rewrite (assume_equality_excluded _ _ _ E). apply IH.
  - rewrite (assume_equality_proposes _ _ _ E). reflexivity.
Qed.

Lemma atom_candidates_cut (l a : expr) (pre post : list expr) (j : nat) (v0 : expr) :
  Forall (fun b => occurs l b = false) pre ->
  occurs l a = true ->
  atom_candidates l j (pre ++ a :: post) v0 = atom_candidates l j pre v0.
Proof.
  intros Hpre Ha. revert j v0.
  induction Hpre as [|b pre Hb _ IH]; intros j v0; cbn [List.app atom_candidates].
  - rewrite Ha. reflexivity.
  - rewrite Hb. rewrite IH. reflexivity.
Qed.

(** [find_branch_candidate] goes through the candidates in order and
    proposes the first one whose pair is not in the exclusion table.  The
    loop ends at the first atom of the other side in which the variable
    occurs.  A head atom that is not a variable has no candidates. *)
Lemma find_branch_candidate_first_admissible (l : expr) (rs : list expr) st :
  find_branch_candidate l rs st =
    (if is_var l then propose_first l (candidates l rs) st else (false, st)) /\
  (forall c cs,
     propose_first l (c :: cs) st =
     if exclusion_table.contains l c (m_exclude st) then propose_first l cs st
     else (true, proposed l c st)) /\
  (forall pre a post,
     rs = pre ++ a :: post ->
     Forall (fun b => occurs l b = false) pre ->
     occurs l a = true ->
     candidates l rs = candidates l pre).
Proof.
  split; [|split].
  - unfold find_branch_candidate, candidates.
    destruct (is_var l); [|reflexivity]. cbn [negb].
    rewrite propose_first_cons.
    destruct (exclusion_table.contains l _ (m_exclude st)) eqn:E.
    + rewrite (assume_equality_excluded _ _ _ E). apply branch_atoms_spec.
    + rewrite (assume_equality_proposes _ _ _ E). reflexivity.
  - intros c cs. apply propose_first_cons.
  - intros pre a post -> Hpre Ha. unfold candidates. f_equal.
    apply atom_candidates_cut; assumption.
Qed.

(** A successful search has proposed one pair to the host and changed
    nothing else. *)
Lemma find_branch_candidate_true (l : expr) (rs : list expr) st st' :
  find_branch_candidate l rs st = (true, st') -> exists c, st' = proposed l c st.
Proof.
  unfold find_branch_candidate. destruct (is_var l); cbn [negb]; [|discriminate].
  destruct (exclusion_table.contains l (mk_empty (get_sort l)) (m_exclude st)) eqn:E.
  - rewrite (assume_equality_excluded _ _ _ E), branch_atoms_spec.
    unfold propose_first. destruct (filter _ _) as [|c cs]; [discriminate|].
    intros [= <-]. eauto.
  - rewrite (assume_equality_proposes _ _ _ E). intros [= <-]. eauto.
Qed.

(** Once the variable occurs in an atom the search is over, whatever
    follows the atom. *)
Lemma branch_atoms_stops_on_occurs (l rj : expr) (rs : list expr) (j : nat) (v0 : expr) st :
  occurs l rj = true -> branch_atoms l j (rj :: rs) v0 st = (false, st).
Proof. intros E. cbn. rewrite E. reflexivity. Qed.

(** Ending the loop at an occurs hit loses no candidate: every candidate
    built from the atom of the hit or from a later atom contains that atom
    and is blocked by the occurs check itself. *)

Lemma occurs_mk_concat (l a b : expr) : occurs l (mk_concat a b) = occurs l a || occurs l b.
Proof.
  rewrite occurs_unfold. change (is_concat (mk_concat a b)) with (Some (a, b)).
  cbv beta iota. rewrite !occurs_strip. reflexivity.
Qed.

Lemma occurs_string (l c : expr) (s : string) :
  is_var (strip_selects l) = true -> is_string c = Some s -> occurs l c = false.
Proof.
  intros Hv Hs. destruct c as [[n r|k r|s'|n r|k|k] args]; try discriminate.
  rewrite occurs_unfold. cbn. apply bool_decide_eq_false. intros E.
  rewrite E in Hv. discriminate.
Qed.

Lemma occurs_empty (l : expr) (r : sort) :
  is_var (strip_selects l) = true -> occurs l (mk_empty r) = false.
Proof.
  intros Hv. rewrite occurs_unfold. cbn. apply bool_decide_eq_false. intros E.
  rewrite E in Hv. discriminate.
Qed.

Lemma filter_keep {A : Type} (P : A -> Prop) `{!forall x, Decision (P x)} (cs : list A) :
  Forall P cs -> filter P cs = cs.
Proof.
  induction 1 as [|c cs Hc _ IH]; [reflexivity|].
  rewrite filter_cons, decide_True by exact Hc. rewrite IH. reflexivity.
Qed.

Lemma filter_drop {A : Type} (P : A -> Prop) `{!forall x, Decision (P x)} (cs : list A) :
  Forall (fun c => ~ P c) cs -> filter P cs = [].
Proof.
  induction 1 as [|c cs Hc _ IH]; [reflexivity|].
  rewrite filter_cons, decide_False by exact Hc. exact IH.
Qed.

Lemma prefixes_unblocked (l v0 : expr) (s : string) (ks : list nat) :
  is_var (strip_selects l) = true -> occurs l v0 = false ->
  Forall (fun c => occurs l c = false)
    (map (fun k => mk_concat v0 (mk_string (substring 0 k s))) ks).
Proof.
  intros Hv Hv0. apply Forall_map, Forall_forall. intros k _. cbv beta.
  rewrite occurs_mk_concat, Hv0. cbn [orb]. eapply occurs_string; [exact Hv|reflexivity].
Qed.

Lemma atom_alignments_blocked (l : expr) (rs : list expr) (j : nat) (v0 : expr) :
  occurs l v0 = true ->
  Forall (fun c => occurs l c <> false) (atom_alignments (S j) rs v0).
Proof.
  revert j v0. induction rs as [|rj rs IH]; intros j v0 Hv0; [constructor|].
  cbn [atom_alignments Nat.eqb]. apply Forall_app. split.
  - destruct (is_string rj) as [s|]; [|constructor].
    apply Forall_map, Forall_forall. intros k _. cbv beta.
    rewrite occurs_mk_concat, Hv0. discriminate.
  - constructor.
    + rewrite occurs_mk_concat, Hv0. discriminate.
    + apply IH. rewrite occurs_mk_concat, Hv0. reflexivity.
Qed.

Lemma atom_candidates_unblocked (l : expr) (rs : list expr) (j : nat) (v0 : expr) :
  is_var (strip_selects l) = true -> occurs l v0 = false ->
  atom_candidates l j rs v0 =
  filter (fun c => occurs l c = false) (atom_alignments j rs v0).
Proof.
  intros Hv. revert j v0. induction rs as [|rj rs IH]; intros j v0 Hv0; [reflexivity|].
  cbn [atom_candidates atom_alignments]. rewrite filter_app, filter_cons.
  destruct (occurs l rj) eqn:Ho.
  - assert (Hs : is_string rj = None).
    { destruct (is_string rj) as [s|] eqn:Es; [|reflexivity].
      rewrite (occurs_string l rj s Hv Es) in Ho. discriminate. }
    rewrite Hs. cbn [filter list_filter List.app].
    assert (Hv1 : occurs l (if j =? 0 then rj else mk_concat v0 rj) = true).
    { destruct (j =? 0); [exact Ho|]. rewrite occurs_mk_concat, Ho. apply orb_true_r. }
    rewrite decide_False by (rewrite Hv1; discriminate).
    symmetry. apply filter_drop. apply atom_alignments_blocked, Hv1.
  - assert (Hv1 : occurs l (if j =? 0 then rj else mk_concat v0 rj) = false).
    { destruct (j =? 0); [exact Ho|]. rewrite occurs_mk_concat, Hv0, Ho. reflexivity. }
    rewrite decide_True by exact Hv1. rewrite <- (IH _ _ Hv1). f_equal.
    destruct (is_string rj) as [s|]; [|reflexivity].
    symmetry. apply filter_keep, prefixes_unblocked; assumption.
Qed.

Lemma filter_unblocked_excluded (l : expr) (cs : list expr) st :
  filter (fun c => exclusion_table.contains l c (m_exclude st) = false)
    (filter (fun c => occurs l c = false) cs) =
  filter (fun c => skipped l c st = false) cs.
Proof.
  induction cs as [|c cs IH]; [reflexivity|].
  rewrite (filter_cons (fun c => occurs l c = false)).
  rewrite (filter_cons (fun c => skipped l c st = false)).
  destruct (decide (occurs l c = false)) as [Ho|Ho].
  - rewrite filter_cons.
    destruct (decide (exclusion_table.contains l c (m_exclude st) = false)) as [Ec|Ec];
      destruct (decide (skipped l c st = false)) as [Es|Es].
    + rewrite IH. reflexivity.
    + exfalso. apply Es. unfold skipped. rewrite Ho, Ec. reflexivity.
    + exfalso. apply Ec. unfold skipped in Es. rewrite Ho in Es. exact Es.
    + exact IH.
  - destruct (decide (skipped l c st = false)) as [Es|Es]; [|exact IH].
    exfalso. apply Ho. unfold skipped in Es. apply orb_false_iff in Es as [Es _]. exact Es.
Qed.

Lemma propose_first_unblocked (l : expr) (cs : list expr) st :
  propose_first l (filter (fun c => occurs l c = false) cs) st =
  match filter (fun c => skipped l c st = false) cs with
  | [] => (false, st)
  | c :: _ => (true, proposed l c st)
  end.
Proof. unfold propose_first. rewrite filter_unblocked_excluded. reflexivity. Qed.

(** C4.  During branching on a head atom [l] that is a variable, a candidate
    alignment that the occurs check blocks or whose pair is in the exclusion
    table is merely skipped: of all the alignments of the equation, in the
    order the loop builds them, the first one that is not skipped is
    proposed to the host, whatever was skipped before it; the answer is
    false, with nothing proposed, only when every alignment is skipped.
    (The variable is one that is still a variable once its selectors are
    stripped.) *)
Theorem find_branch_candidate_skips (l : expr) (rs : list expr) st :
  is_var l = true ->
  is_var (strip_selects l) = true ->
  find_branch_candidate l rs st =
  match filter (fun c => skipped l c st = false) (alignments l rs) with
  | [] => (false, st)
  | c :: _ => (true, proposed l c st)
  end.
Proof.
  intros Hl Hv.
  destruct (find_branch_candidate_first_admissible l rs st) as (-> & _).
  rewrite Hl. rewrite <- propose_first_unblocked. f_equal.
  unfold candidates, alignments. rewrite filter_cons.
  rewrite decide_True by (apply occurs_empty, Hv). f_equal.
  apply atom_candidates_unblocked; [exact Hv|apply occurs_empty, Hv].
Qed.

End Branching.

(** With [(x, ε)] and [(x, y)] excluded and the other side [y ⌢ z], the
    excluded alignments [ε] and [y] are skipped and the next one, [y ⌢ z],
    is proposed.  With the other side [y ⌢ x ⌢ z] the alignments [y ⌢ x]
    and [(y ⌢ x) ⌢ z] are blocked by the occurs check as well: nothing is
    proposed. *)
Lemma find_branch_candidate_skips_witness :
  let st := with_excluded [(var_x, mk_empty string_sort); (var_x, var_y)] in
  (find_branch_candidate var_x [var_y; var_z] st =
   match filter (fun c => skipped var_x c st = false) (alignments var_x [var_y; var_z]) with
   | [] => (false, st)
   | c :: _ => (true, proposed var_x c st)
   end) /\
  filter (fun c => skipped var_x c st = false) (alignments var_x [var_y; var_z])
  = [mk_concat var_y var_z] /\
  filter (fun c => skipped var_x c st = false) (alignments var_x [var_y; var_x; var_z])
  = [].
Proof.
  intros st. split.
  - exact (find_branch_candidate_skips var_x [var_y; var_z] st eq_refl eq_refl).
  - split; vm_compute; reflexivity.
Defined.

(** *** Scope discipline *)

Section Stores.

Lemma solution_map_eta (s : solution_map.t) :
  solution_map.mk (solution_map.m_map s) (solution_map.m_updates s) (solution_map.m_limit s) = s.
Proof. destruct s; reflexivity. Qed.

Lemma exclusion_table_eta (s : exclusion_table.t) :
  exclusion_table.mk (exclusion_table.m_table s) (exclusion_table.m_pairs s)
    (exclusion_table.m_limit s) = s.
Proof. destruct s; reflexivity. Qed.

Lemma rep_ext_refl (s : solution_map.t) : rep_ext s s.
Proof. split; [reflexivity|]. exists []. rewrite app_nil_r. auto. Qed.

Lemma rep_ext_trans (s1 s2 s3 : solution_map.t) :
  rep_ext s1 s2 -> rep_ext s2 s3 -> rep_ext s1 s3.
Proof.
  intros [Hl1 (suf1 & Hu1 & Hm1)] [Hl2 (suf2 & Hu2 & Hm2)].
  split; [congruence|]. exists (suf1 ++ suf2). split.
  - rewrite Hu2, Hu1, <- app_assoc. reflexivity.
  - rewrite foldr_app, Hm2, Hm1. reflexivity.
Qed.

Lemma rep_ext_update (e r : expr) (d : enode_pair_dependency) (s : solution_map.t) :
  rep_ext s (solution_map.update e r d s).
Proof.
  unfold solution_map.update, solution_map.add_trail.
  destruct (solution_map.m_map s !! e) as [[r0 d0]|] eqn:E; cbn.
  - split; [reflexivity|].
    exists [(solution_map.DEL, e, r0, d0); (solution_map.INS, e, r, d)].
    split; [rewrite <- app_assoc; reflexivity|]. cbn.
    rewrite insert_delete_eq, insert_insert_eq. apply insert_id, E.
  - split; [reflexivity|]. exists [(solution_map.INS, e, r, d)].
    split; [reflexivity|]. cbn. rewrite delete_insert_eq. apply delete_id, E.
Qed.

Lemma rep_ext_find (fuel : nat) (e r : expr) (d : enode_pair_dependency)
    (s s' : solution_map.t) :
  solution_map.find fuel e s = Some (r, d, s') -> rep_ext s s'.
Proof.
  unfold solution_map.find.
  destruct (solution_map.find_loop fuel (solution_map.m_map s) e None 0)
    as [[[r0 d0] n]|]; [|discriminate].
  cbn. intros [= <- <- <-]. destruct (1 <? n); [apply rep_ext_update|apply rep_ext_refl].
Qed.

Lemma pop_after_rep_ext (s s' : solution_map.t) :
  rep_ext (solution_map.push_scope s) s' -> solution_map.pop_scope 1 s' = Some s.
Proof.
  intros [Hl (suf & Hu & Hm)]. cbn in Hl, Hu, Hm.
  unfold solution_map.pop_scope. rewrite Hl, length_app. cbn [length Nat.eqb].
  replace (length (solution_map.m_limit s) + 1 <? 1) with false
    by (symmetry; apply Nat.ltb_ge; lia).
  replace (length (solution_map.m_limit s) + 1 - 1) with (length (solution_map.m_limit s)) by lia.
  rewrite list_lookup_middle by reflexivity. cbn [mbind option_bind].
  rewrite Hu, drop_app_length, take_app_length, take_app_length, Hm.
  f_equal. apply solution_map_eta.
Qed.

Lemma excl_ext_refl (s : exclusion_table.t) : excl_ext s s.
Proof.
  split; [reflexivity|]. exists []. rewrite app_nil_r. split; [reflexivity|].
  cbn. apply leibniz_equiv. set_solver.
Qed.

Lemma excl_ext_trans (s1 s2 s3 : exclusion_table.t) :
  excl_ext s1 s2 -> excl_ext s2 s3 -> excl_ext s1 s3.
Proof.
  intros [Hl1 (suf1 & Hu1 & Hm1)] [Hl2 (suf2 & Hu2 & Hm2)].
  split; [congruence|]. exists (suf1 ++ suf2). split.
  - rewrite Hu2, Hu1, <- app_assoc. reflexivity.
  - rewrite <- Hm1, <- Hm2. apply leibniz_equiv. rewrite list_to_set_app. set_solver.
Qed.

Lemma excl_ext_update `{AstIds} (e r : expr) (s : exclusion_table.t) :
  excl_ext s (exclusion_table.update e r s).
Proof.
  unfold exclusion_table.update. destruct (exclusion_table.normalize e r) as [a b].
  destruct (bool_decide (a ≠ b) && negb (bool_decide ((a, b) ∈ exclusion_table.m_table s)))
    eqn:E; [|apply excl_ext_refl].
  apply andb_true_iff in E as [_ E]. apply negb_true_iff, bool_decide_eq_false in E.
  split; [reflexivity|]. exists [(a, b)]. split; [reflexivity|].
  cbn. apply leibniz_equiv. set_solver.
Qed.

Lemma foldl_difference (t : gset (expr * expr)) (l : list (expr * expr)) :
  foldl (fun tb p => tb ∖ {[ p ]}) t l = t ∖ list_to_set l.
Proof.
  revert t. induction l as [|p l IH]; intros t; cbn.
  - apply leibniz_equiv. set_solver.
  - rewrite IH. apply leibniz_equiv. set_solver.
Qed.

Lemma pop_after_excl_ext (s s' : exclusion_table.t) :
  excl_ext (exclusion_table.push_scope s) s' -> exclusion_table.pop_scope 1 s' = Some s.
Proof.
  intros [Hl (suf & Hu & Hm)]. cbn in Hl, Hu, Hm.
  unfold exclusion_table.pop_scope. rewrite Hl, length_app. cbn [length Nat.eqb].
  replace (length (exclusion_table.m_limit s) + 1 <? 1) with false
    by (symmetry; apply Nat.ltb_ge; lia).
  replace (length (exclusion_table.m_limit s) + 1 - 1)
    with (length (exclusion_table.m_limit s)) by lia.
  rewrite list_lookup_middle by reflexivity. cbn [mbind option_bind].
  rewrite Hu, drop_app_length, take_app_length, take_app_length, foldl_difference, Hm.
  f_equal. apply exclusion_table_eta.
Qed.

End Stores.

Section Ext.
Context {C : Type}.
Implicit Type st : theory_seq C.

Lemma trail_ext_refl st : trail_ext st st.
Proof. split; [reflexivity|]. exists []. rewrite app_nil_r. auto. Qed.

Lemma trail_ext_trans st1 st2 st3 : trail_ext st1 st2 -> trail_ext st2 st3 -> trail_ext st1 st3.
Proof.
  intros [Hs1 (suf1 & Ht1 & Hg1)] [Hs2 (suf2 & Ht2 & Hg2)].
  split; [congruence|]. exists (suf1 ++ suf2). split.
  - rewrite Ht2, Ht1, <- app_assoc. reflexivity.
  - rewrite foldr_app, Hg2, Hg1. reflexivity.
Qed.

Lemma trail_ext_same st st' :
  m_trail_stack st' = m_trail_stack st -> guarded st' = guarded st -> trail_ext st st'.
Proof.
  intros Ht Hg. unfold trail_ext. rewrite Ht, Hg.
  split; [reflexivity|]. exists []. rewrite app_nil_r. auto.
Qed.

Lemma ext_refl st : ext st st.
Proof.
  repeat split; auto using rep_ext_refl, excl_ext_refl.
  - exists []. rewrite app_nil_r. auto.
  - exists []. rewrite app_nil_r. split; [reflexivity|]. apply leibniz_equiv. set_solver.
  - exists []. rewrite app_nil_r. auto.
Qed.

Lemma ext_trans st1 st2 st3 : ext st1 st2 -> ext st2 st3 -> ext st1 st3.
Proof.
  intros (Hr1 & He1 & Hs1 & Ht1 & Hi1) (Hr2 & He2 & Hs2 & Ht2 & Hi2).
  split; [eapply rep_ext_trans; eassumption|].
  split; [eapply excl_ext_trans; eassumption|].
  split; [congruence|].
  split; [eapply trail_ext_trans; eassumption|]. auto.
Qed.

(** Changes outside the scoped stores. *)
Lemma ext_same st st' :
  m_rep st' = m_rep st -> m_exclude st' = m_exclude st -> m_saved st' = m_saved st ->
  m_trail_stack st' = m_trail_stack st -> guarded st' = guarded st -> ext st st'.
Proof.
  intros Hr He Hs Ht Hg. unfold ext, trail_ext. rewrite Hr, He, Hs, Ht, Hg.
  split; [apply rep_ext_refl|]. split; [apply excl_ext_refl|]. split; [reflexivity|].
  split.
  - split; [reflexivity|]. exists []. rewrite app_nil_r. auto.
  - unfold guarded in Hg. congruence.
Qed.

Lemma ext_set_ctx (c : C) st : ext st (set_ctx c st).
Proof. apply ext_same; reflexivity. Qed.

Lemma ext_on_ctx (f : C -> C) st : ext st (on_ctx f st).
Proof. apply ext_set_ctx. Qed.

Lemma ext_set_m_eqs (v : list pending_eq) st : ext st (set_m_eqs v st).
Proof. apply ext_same; reflexivity. Qed.

Lemma ext_set_m_stats (v : stats) st : ext st (set_m_stats v st).
Proof. apply ext_same; reflexivity. Qed.

Lemma ext_set_m_branch_variable_head (v : nat) st : ext st (set_m_branch_variable_head v st).
Proof. apply ext_same; reflexivity. Qed.

Lemma ext_set_m_model_completion (v : bool) st : ext st (set_m_model_completion v st).
Proof. apply ext_same; reflexivity. Qed.

Lemma ext_set_m_axioms_head (v : nat) st : ext st (set_m_axioms_head v st).
Proof. apply ext_same; reflexivity. Qed.

Lemma ext_set_m_rep (r : solution_map.t) st : rep_ext (m_rep st) r -> ext st (set_m_rep r st).
Proof.
  intros Hr. split; [exact Hr|]. split; [apply excl_ext_refl|]. split; [reflexivity|].
  split; [apply trail_ext_same; reflexivity|]. auto.
Qed.

Lemma ext_set_m_exclude (x : exclusion_table.t) st :
  excl_ext (m_exclude st) x -> ext st (set_m_exclude x st).
Proof.
  intros Hx. split; [apply rep_ext_refl|]. split; [exact Hx|]. split; [reflexivity|].
  split; [apply trail_ext_same; reflexivity|]. auto.
Qed.

Lemma ext_set_incomplete (term : expr) st : ext st (set_incomplete term st).
Proof.
  unfold set_incomplete. destruct (m_incomplete st) eqn:E; [apply ext_refl|].
  split; [apply rep_ext_refl|]. split; [apply excl_ext_refl|]. split; [reflexivity|].
  split; [|reflexivity].
  split; [reflexivity|]. exists [value_trail_incomplete false]. split; [reflexivity|].
  unfold guarded. cbn. rewrite E. reflexivity.
Qed.

Lemma ext_create_axiom (e : expr) st : ext st (create_axiom e st).
Proof.
  split; [apply rep_ext_refl|]. split; [apply excl_ext_refl|]. split; [reflexivity|].
  split; [|auto].
  split; [reflexivity|]. exists [push_back_vector_axioms]. split; [reflexivity|].
  unfold guarded. cbn. rewrite removelast_last. reflexivity.
Qed.

Lemma ext_push_ineq (e : expr) st :
  ext st (set_m_ineqs (m_ineqs st ++ [e]) (trail_push push_back_vector_ineqs st)).
Proof.
  split; [apply rep_ext_refl|]. split; [apply excl_ext_refl|]. split; [reflexivity|].
  split; [|auto].
  split; [reflexivity|]. exists [push_back_vector_ineqs]. split; [reflexivity|].
  unfold guarded. cbn. rewrite removelast_last. reflexivity.
Qed.

(** Undoing trail objects touches the guarded fields and the axiom cursor
    only. *)
Lemma undo_trail_guarded (t : trail) st :
  guarded (undo_trail t st) = undo_guarded t (guarded st).
Proof. destruct t; reflexivity. Qed.

Lemma foldr_undo_trail_guarded (suf : list trail) st :
  guarded (foldr undo_trail st suf) = foldr undo_guarded (guarded st) suf.
Proof.
  induction suf as [|t suf IH]; [reflexivity|]. cbn. rewrite undo_trail_guarded, IH. reflexivity.
Qed.

Lemma foldr_undo_trail_rest (suf : list trail) st :
  let st' := foldr undo_trail st suf in
  m_rep st' = m_rep st /\ m_exclude st' = m_exclude st /\ m_eqs st' = m_eqs st /\
  m_saved st' = m_saved st /\ m_trail_stack st' = m_trail_stack st /\ ctx st' = ctx st /\
  m_stats st' = m_stats st /\ m_branch_variable_head st' = m_branch_variable_head st /\
  m_model_completion st' = m_model_completion st.
Proof.
  induction suf as [|t suf IH]; [cbn; repeat split|].
  cbn in *. destruct t; cbn; exact IH.
Qed.

End Ext.

Section Scopes.
Context {C : Type} `{SmtContext C} `{Rewriter} `{AstIds}.
Implicit Type st : theory_seq C.

Lemma trail_stack_eta (ts : trail_stack) : mk_trail_stack (ts_trail ts) (ts_scopes ts) = ts.
Proof. destruct ts; reflexivity. Qed.

(** A pop of one scope after a push and any extension within the pushed
    scope gives back every scoped store as it was before the push. *)
Lemma pop_after_push st st' :
  ext (push_scope_eh st) st' ->
  exists st'', pop_scope_eh 1 st' = Some st'' /\ scoped st'' = scoped st.
Proof.
  intros (Hr & He & Hs & [Hsc (suf & Htr & Hg)] & _).
  change (m_rep (push_scope_eh st)) with (solution_map.push_scope (m_rep st)) in Hr.
  change (m_exclude (push_scope_eh st)) with (exclusion_table.push_scope (m_exclude st)) in He.
  change (m_saved (push_scope_eh st)) with (m_eqs st :: m_saved st) in Hs.
  change (guarded (push_scope_eh st)) with (guarded st) in Hg.
  change (ts_scopes (m_trail_stack (push_scope_eh st)))
    with (ts_scopes (m_trail_stack st) ++ [length (ts_trail (m_trail_stack st))]) in Hsc.
  change (ts_trail (m_trail_stack (push_scope_eh st)))
    with (ts_trail (m_trail_stack st) ++ [value_trail_axioms_head (m_axioms_head st)]) in Htr.
  apply pop_after_rep_ext in Hr. apply pop_after_excl_ext in He.
  unfold pop_scope_eh, trail_pop_scope. cbn [Nat.eqb].
  rewrite Hsc, length_app. cbn [length].
  replace (length (ts_scopes (m_trail_stack st)) + 1 <? 1) with false
    by (symmetry; apply Nat.ltb_ge; lia).
  replace (length (ts_scopes (m_trail_stack st)) + 1 - 1)
    with (length (ts_scopes (m_trail_stack st))) by lia.
  rewrite list_lookup_middle by reflexivity. cbn [mbind option_bind].
  rewrite Htr, <- app_assoc, drop_app_length, !take_app_length. cbn [List.app foldr].
  destruct (foldr_undo_trail_rest suf st')
    as (Er & Ee & Eq & Esv & Ets & Ec & Est & Eb & Em).
  assert (Eg : guarded (foldr undo_trail st' suf) = guarded st)
    by (rewrite foldr_undo_trail_guarded; exact Hg).
  cbv zeta in Er, Ee, Eq, Esv, Ets, Ec, Est, Eb, Em.
  remember (foldr undo_trail st' suf) as st1 eqn:Est1. clear Est1.
  cbn. rewrite Er, Hr. cbn. rewrite Ee, He. cbn. rewrite Esv, Hs.
  eexists. split; [reflexivity|].
  unfold scoped. cbn. rewrite trail_stack_eta.
  unfold guarded in Eg. injection Eg as -> -> ->. reflexivity.
Qed.

Lemma ext_scoped_l st1 st1' st2 : scoped st1 = scoped st1' -> ext st1 st2 -> ext st1' st2.
Proof.
  unfold scoped. intros [= Er Ee Eq Es Ei Ea Eh Einc Et].
  unfold ext, trail_ext, guarded. rewrite Er, Ee, Es, Ei, Ea, Einc, Et. auto.
Qed.

Lemma ext_scoped_r st1 st2 st2' : scoped st2 = scoped st2' -> ext st1 st2 -> ext st1 st2'.
Proof.
  unfold scoped. intros [= Er Ee Eq Es Ei Ea Eh Einc Et].
  unfold ext, trail_ext, guarded. rewrite Er, Ee, Es, Ei, Ea, Einc, Et. auto.
Qed.

End Scopes.

Section Canon.
Context {C : Type} `{SmtContext C} `{Rewriter} `{AstIds}.
Implicit Type st : theory_seq C.

Lemma canon_step_refl st : canon_step st st.
Proof. split; [reflexivity|apply rep_ext_refl]. Qed.

Lemma canon_step_trans st1 st2 st3 : canon_step st1 st2 -> canon_step st2 st3 -> canon_step st1 st3.
Proof.
  intros [Ho1 Hr1] [Ho2 Hr2]. split; [congruence|eapply rep_ext_trans; eassumption].
Qed.

Lemma canon_step_set_m_rep (r : solution_map.t) st :
  rep_ext (m_rep st) r -> canon_step st (set_m_rep r st).
Proof. intros Hr. split; [reflexivity|exact Hr]. Qed.

Lemma canon_step_set_ctx (c : C) st : canon_step st (set_ctx c st).
Proof. split; [reflexivity|apply rep_ext_refl]. Qed.

Lemma linearize_mk_join (d1 d2 : enode_pair_dependency) (p : enode_pair) :
  p ∈ linearize (mk_join d1 d2) <-> p ∈ linearize d1 \/ p ∈ linearize d2.
Proof.
  destruct d1 as [a|], d2 as [b|]; cbn.
  - destruct (decide (a = b)) as [->|]; cbn; [tauto|]. apply elem_of_app.
  - rewrite elem_of_nil. tauto.
  - rewrite elem_of_nil. tauto.
  - tauto.
Qed.

Lemma canon_run_refl (eqs : enode_pair_dependency) st : canon_run eqs st eqs st.
Proof. split; [apply canon_step_refl|]. split; [reflexivity|]. auto. Qed.

Lemma canon_run_trans (d1 d2 d3 : enode_pair_dependency) st1 st2 st3 :
  canon_run d1 st1 d2 st2 -> canon_run d2 st2 d3 st3 -> canon_run d1 st1 d3 st3.
Proof.
  intros (Hs1 & Hd1 & Hc1) (Hs2 & Hd2 & Hc2).
  split; [eapply canon_step_trans; eassumption|]. split; [etrans; eassumption|].
  intros Hm. rewrite Hc2, Hc1; [reflexivity|exact Hm|].
  destruct Hs1 as [Ho _]. unfold outside_rep in Ho. congruence.
Qed.

Lemma canon_run_set_m_rep (d : enode_pair_dependency) (r : solution_map.t) st :
  rep_ext (m_rep st) r -> canon_run d st d (set_m_rep r st).
Proof.
  intros Hr. split; [apply canon_step_set_m_rep, Hr|]. split; [reflexivity|]. auto.
Qed.

Lemma canon_run_join (d d' : enode_pair_dependency) st : canon_run d st (mk_join d d') st.
Proof.
  split; [apply canon_step_refl|]. split; [|auto].
  intros p Hp. apply linearize_mk_join. auto.
Qed.

Lemma expand_canon_run (fuel : nat) (e : expr) (eqs : enode_pair_dependency) st
    (r : expr) (eqs' : enode_pair_dependency) st' :
  expand fuel e eqs st = Some (r, eqs', st') -> canon_run eqs st eqs' st'.
Proof.
  revert e eqs st r eqs' st'. induction fuel as [|fuel IH]; intros e eqs st r eqs' st' E;
    [discriminate|].
  cbn [expand] in E.
  destruct (solution_map.find fuel e (m_rep st)) as [[[e0 deps] rep]|] eqn:Ef; [|discriminate].
  cbn [mbind option_bind] in E.
  assert (Hst : canon_run eqs st (mk_join eqs deps) (set_m_rep rep st)).
  { eapply canon_run_trans; [apply canon_run_join|].
    apply canon_run_set_m_rep. eapply rep_ext_find; eassumption. }
  revert E. generalize (set_m_rep rep st) (mk_join eqs deps) Hst. clear Hst Ef.
  intros st0 d0 Hst0 E.
  assert (Hbin : forall (mk : expr -> expr -> expr) e1 e2,
             (expand fuel e1 d0 st0 ≫= λ '(r1, eqs, st),
                expand fuel e2 eqs st ≫= λ '(r2, eqs0, st0), Some (mk r1 r2, eqs0, st0))
             = Some (r, eqs', st') -> canon_run eqs st eqs' st').
  { intros mk e1 e2 E2.
    destruct (expand fuel e1 d0 st0) as [[[r1 d1] st1]|] eqn:Ea; [|discriminate].
    cbn [mbind option_bind] in E2.
    destruct (expand fuel e2 d1 st1) as [[[r2 d2] st2]|] eqn:Eb; [|discriminate].
    cbn [mbind option_bind] in E2. injection E2 as <- <- <-.
    eapply canon_run_trans; [exact Hst0|].
    eapply canon_run_trans; eapply IH; eassumption. }
  destruct (is_concat e0) as [[e1 e2]|]; [eapply Hbin, E|].
  destruct (is_empty e0 || bool_decide (is_Some (is_string e0)));
    [injection E as <- <- <-; exact Hst0|].
  destruct (is_eq e0) as [[e1 e2]|]; [eapply Hbin, E|].
  destruct (is_prefix e0) as [[e1 e2]|]; [eapply Hbin, E|].
  destruct (is_suffix e0) as [[e1 e2]|]; [eapply Hbin, E|].
  destruct (is_contains e0) as [[e1 e2]|]; [eapply Hbin, E|].
  destruct (m_model_completion st0 && is_var e0) eqn:Emc;
    [|injection E as <- <- <-; exact Hst0].
  apply andb_true_iff in Emc as [Emc _].
  destruct (factory_get_fresh_value (get_sort e0) (ctx st0)) as [[v|] c];
    injection E as <- <- <-; (eapply canon_run_trans; [exact Hst0|]).
  - split; [|split; [reflexivity|congruence]].
    eapply canon_step_trans; [apply canon_step_set_ctx|].
    apply canon_step_set_m_rep, rep_ext_update.
  - split; [apply canon_step_set_ctx|]. split; [reflexivity|congruence].
Qed.

Lemma canonize_canon_run (fuel : nat) (e : expr) (eqs : enode_pair_dependency) st
    (r : expr) (eqs' : enode_pair_dependency) st' :
  canonize fuel e eqs st = Some (r, eqs', st') -> canon_run eqs st eqs' st'.
Proof.
  unfold canonize. intros E.
  destruct (expand fuel e eqs st) as [[[r0 d0] st0]|] eqn:Ee; [|discriminate].
  cbn [mbind option_bind] in E. injection E as <- <- <-.
  eapply expand_canon_run, Ee.
Qed.

Lemma canonize_canon_step (fuel : nat) (e : expr) (eqs : enode_pair_dependency) st
    (r : expr) (eqs' : enode_pair_dependency) st' :
  canonize fuel e eqs st = Some (r, eqs', st') -> canon_step st st'.
Proof. intros E. apply canonize_canon_run in E. apply E. Qed.

Lemma canon_step_ext st st' : canon_step st st' -> ext st st'.
Proof.
  intros [Ho Hr]. unfold outside_rep in Ho.
  injection Ho as Ee Eq Es Ei Ea Eh Eb Einc Em Est Et.
  split; [exact Hr|]. rewrite Ee.
  split; [apply excl_ext_refl|]. split; [exact Es|].
  split; [apply trail_ext_same; [exact Et|unfold guarded; congruence]|]. congruence.
Qed.

End Canon.

(** *** Inequations: [check_ineqs] *)

Section CheckIneqs.
Context {C : Type} `{SmtContext C} `{Rewriter}.
Implicit Type st : theory_seq C.

Lemma check_ineqs_loop_scanned (fuel : nat) (pre rest : list expr) st st1 :
  scanned fuel pre st st1 ->
  check_ineqs_loop fuel (pre ++ rest) st = check_ineqs_loop fuel rest st1.
Proof.
  induction 1 as [|a pre st b eqs st1 st2 Ec Eb _ IH]; [reflexivity|].
  cbn [List.app check_ineqs_loop]. rewrite Ec. cbn [mbind option_bind]. rewrite Eb. exact IH.
Qed.

Lemma scanned_canon_step (fuel : nat) (l : list expr) st st1 :
  scanned fuel l st st1 ->
  canon_step st st1 /\ (m_model_completion st = false -> ctx st1 = ctx st).
Proof.
  induction 1 as [|a pre st b eqs st1 st2 Ec Eb _ [IHs IHc]];
    [split; [apply canon_step_refl|auto]|].
  apply canonize_canon_run in Ec as (Hs & _ & Hc).
  split; [eapply canon_step_trans; eassumption|].
  intros Hm. rewrite IHc, Hc; [reflexivity|exact Hm|].
  destruct Hs as [Ho _]. unfold outside_rep in Ho. congruence.
Qed.

(** C9.  [check_ineqs] canonizes the recorded atoms in order.  At the first
    atom [a] whose canonical form is true it internalizes [a], assigns its
    literal with a justification made of the canonicalization witnesses, and
    returns false; the atoms after [a] play no part in the result.  If no
    atom comes out true it returns true.  In both cases the inequation list
    is as before, and in the second case nothing was reported to the host
    (outside model-completion mode the context is untouched). *)
Theorem check_ineqs_reports_first_true (fuel : nat) (pre : list expr) st st1 :
  scanned fuel pre st st1 ->
  (m_ineqs st = pre ->
     check_ineqs fuel st = Some (true, st1) /\
     m_ineqs st1 = m_ineqs st /\
     (m_model_completion st = false -> ctx st1 = ctx st)) /\
  (forall a post b eqs st2,
     m_ineqs st = pre ++ a :: post ->
     canonize fuel a None st1 = Some (b, eqs, st2) ->
     is_true b = true ->
     check_ineqs fuel st = Some (false, refuted a eqs st2) /\
     m_ineqs (refuted a eqs st2) = m_ineqs st).
Proof.
  intros Hs. destruct (scanned_canon_step _ _ _ _ Hs) as [[Ho _] Hc]. split.
  - intros Hpre. unfold check_ineqs. rewrite Hpre, <- (app_nil_r pre).
    rewrite (check_ineqs_loop_scanned _ _ _ _ _ Hs), app_nil_r.
    split; [reflexivity|]. split; [|exact Hc].
    unfold outside_rep in Ho. congruence.
  - intros a post b eqs st2 Hin Ec Eb. unfold check_ineqs. rewrite Hin.
    rewrite (check_ineqs_loop_scanned _ _ _ _ _ Hs).
    cbn [check_ineqs_loop]. rewrite Ec. cbn [mbind option_bind]. rewrite Eb.
    split; [reflexivity|].
    apply canonize_canon_step in Ec as [Ho2 _].
    unfold outside_rep in Ho, Ho2. cbn. congruence.
Qed.

End CheckIneqs.

Lemma st_ineqs_scanned :
  scanned 3 [mk_eq var_x var_z] st_ineqs st_ineqs.
Proof.
  eapply scanned_cons; [vm_compute; reflexivity|reflexivity|]. apply scanned_nil.
Defined.

Lemma check_ineqs_reports_first_true_witness :
  let a := mk_eq var_x var_y in
  check_ineqs 3 st_ineqs = Some (false, refuted a dep_xy st_ineqs) /\
  m_ineqs (refuted a dep_xy st_ineqs) = m_ineqs st_ineqs.
Proof.
  refine (proj2 (check_ineqs_reports_first_true 3 [mk_eq var_x var_z] st_ineqs _
                   st_ineqs_scanned)
            (mk_eq var_x var_y) [mk_eq var_y var_z] mk_true dep_xy _ _ _ _).
  - reflexivity.
  - vm_compute. reflexivity.
  - reflexivity.
Defined.

(** *** Simplification: [simplify_eq] *)

Section SimplifyEq.
Context {C : Type} `{SmtContext C} `{Rewriter}.
Implicit Type st : theory_seq C.

Lemma eq_rows_zip (lhs rhs : list expr) (d : enode_pair_dependency) :
  length lhs = length rhs ->
  eq_rows lhs rhs d = Some (map (fun p => (p.1, p.2, d)) (zip lhs rhs)).
Proof.
  revert rhs. induction lhs as [|x lhs IH]; intros [|y rhs] Hlen; try discriminate;
    [reflexivity|].
  cbn in Hlen. cbn [eq_rows zip zip_with map]. rewrite IH by lia. reflexivity.
Qed.

Lemma unchanged_pair_iff (lhs rhs : list expr) (l r : expr) :
  bool_decide (length lhs = 1) && bool_decide (lhs !! 0 = Some l) &&
  bool_decide (length rhs = 1) && bool_decide (rhs !! 0 = Some r) = true
  <-> lhs = [l] /\ rhs = [r].
Proof.
  rewrite !andb_true_iff, !bool_decide_eq_true. split.
  - intros [[[Hl1 Hl2] Hr1] Hr2].
    destruct lhs as [|x [|x' lhs]]; try discriminate.
    destruct rhs as [|y [|y' rhs]]; try discriminate.
    cbn in Hl2, Hr2. split; congruence.
  - intros [-> ->]. auto.
Qed.

(** Moving the last entry into place [i] and popping the last entry removes
    entry [i], up to the order of the entries. *)
Lemma swap_remove_perm {A : Type} (l : list A) (i : nat) (x : A) :
  i + 1 < length l -> l !! (length l - 1) = Some x ->
  removelast (<[i := x]> l) ≡ₚ delete i l.
Proof.
  intros Hi Hx.
  assert (Hl : l = take (length l - 1) l ++ [x]).
  { rewrite <- (take_S_r _ _ _ Hx).
    replace (S (length l - 1)) with (length l) by lia. symmetry. apply firstn_all. }
  set (ini := take (length l - 1) l) in *.
  assert (Hlen : length ini = length l - 1) by (subst ini; rewrite length_take; lia).
  rewrite Hl. rewrite insert_app_l by lia. rewrite removelast_last.
  rewrite delete_take_drop, insert_take_drop by lia.
  rewrite take_app_le, drop_app_le by lia.
  apply Permutation_app_head.
  first [apply Permutation_cons_append | symmetry; apply Permutation_cons_append].
Qed.

Lemma remove_eq_deletes (i : nat) st (e : pending_eq) :
  m_eqs st !! i = Some e ->
  exists i' st', remove_eq i st = Some (i', st') /\ m_eqs st' ≡ₚ delete i (m_eqs st).
Proof.
  intros Hi. pose proof (lookup_lt_Some _ _ _ Hi) as Hlt. unfold remove_eq.
  destruct (bool_decide (i + 1 ≠ length (m_eqs st))) eqn:E.
  - apply bool_decide_eq_true in E.
    destruct (m_eqs st !! (length (m_eqs st) - 1)) as [lst|] eqn:El;
      [|apply lookup_ge_None in El; lia].
    cbn [mbind option_bind]. eexists _, _. split; [reflexivity|].
    cbn. apply swap_remove_perm; [lia|exact El].
  - apply bool_decide_eq_false in E. eexists _, _. split; [reflexivity|]. cbn.
    assert (Hn : i + 1 = length (m_eqs st)) by (destruct (decide (i + 1 = length (m_eqs st))); tauto).
    rewrite delete_take_drop, drop_ge, app_nil_r by lia.
    destruct (m_eqs st) as [|a l] using rev_ind; [cbn in Hn; lia|].
    rewrite removelast_last. rewrite length_app in Hn. cbn in Hn.
    rewrite take_app_length' by lia. reflexivity.
Qed.

(** C6 (amended).  When the reducer does not report an inconsistency,
    [simplify_eq] reports no progress exactly when the reducer returned the
    single pair made of the ORIGINAL sides [l], [r] (not of their canonical
    forms).  Otherwise it reports progress, the subproblems are appended to
    the frame, each tagged with the dependency [D] joined with the
    canonicalization witnesses of both sides, and the step of
    [pre_process_eqs] that follows removes the original entry. *)
Theorem simplify_eq_progress (fuel : nat) (l r : expr) (D : enode_pair_dependency) st
    (lh rh : expr) (d1 d2 : enode_pair_dependency) st1 st2 (lhs rhs : list expr) :
  canonize fuel l D st = Some (lh, d1, st1) ->
  canonize fuel r d1 st1 = Some (rh, d2, st2) ->
  reduce_eq lh rh = Some (lhs, rhs) ->
  length lhs = length rhs ->
  let rows := map (fun p => (p.1, p.2, d2)) (zip lhs rhs) in
  exists b st',
    simplify_eq fuel l r D st = Some (b, st') /\
    (b = false <-> lhs = [l] /\ rhs = [r]) /\
    (b = false -> st' = st2) /\
    (b = true ->
       st' = set_m_eqs (m_eqs st ++ rows) st2 /\
       linearize D ⊆ linearize d2 /\
       forall i, m_eqs st !! i = Some (l, r, D) ->
         exists i' st'', remove_eq i st' = Some (i', st'') /\
                         m_eqs st'' ≡ₚ delete i (m_eqs st) ++ rows).
Proof.
  intros Ec1 Ec2 Er Hlen rows.
  unfold simplify_eq. rewrite Ec1. cbn [mbind option_bind]. rewrite Ec2.
  cbn [mbind option_bind]. rewrite Er.
  apply canonize_canon_run in Ec1 as ([Ho1 _] & Hd1 & _).
  apply canonize_canon_run in Ec2 as ([Ho2 _] & Hd2 & _).
  assert (Heqs : m_eqs st2 = m_eqs st) by (unfold outside_rep in Ho1, Ho2; congruence).
  destruct (bool_decide (length lhs = 1) && bool_decide (lhs !! 0 = Some l) &&
            bool_decide (length rhs = 1) && bool_decide (rhs !! 0 = Some r)) eqn:E.
  - apply unchanged_pair_iff in E. exists false, st2.
    split; [reflexivity|]. split; [tauto|]. split; [reflexivity|discriminate].
  - rewrite (eq_rows_zip _ _ _ Hlen). cbn [mbind option_bind]. fold rows.
    exists true, (set_m_eqs (m_eqs st2 ++ rows) st2).
    split; [reflexivity|]. split.
    { split; [discriminate|]. intros Hp. apply unchanged_pair_iff in Hp. congruence. }
    split; [discriminate|]. intros _. rewrite Heqs. split; [reflexivity|].
    split; [etrans; eassumption|].
    intros i Hi.
    destruct (remove_eq_deletes i (set_m_eqs (m_eqs st ++ rows) st2) (l, r, D))
      as (i' & st'' & Hrm & Hp).
    { cbn. rewrite lookup_app_l by (eapply lookup_lt_Some, Hi). exact Hi. }
    exists i', st''. split; [exact Hrm|]. rewrite Hp. cbn.
    apply lookup_lt_Some in Hi.
    rewrite !delete_take_drop, take_app_le, drop_app_le by (unfold pending_eq in *; lia).
    rewrite app_assoc. reflexivity.
Qed.

End SimplifyEq.

Lemma simplify_eq_progress_witness :
  let rows := map (fun p => (p.1, p.2, dep_xy)) (zip [var_y] [var_z]) in
  exists b st',
    simplify_eq 2 var_x var_z None st_x_eq_z = Some (b, st') /\
    (b = false <-> [var_y] = [var_x] /\ [var_z] = [var_z]) /\
    (b = false -> st' = st_x_eq_z) /\
    (b = true ->
       st' = set_m_eqs (m_eqs st_x_eq_z ++ rows) st_x_eq_z /\
       linearize None ⊆ linearize dep_xy /\
       forall i, m_eqs st_x_eq_z !! i = Some (var_x, var_z, None) ->
         exists i' st'', remove_eq i st' = Some (i', st'') /\
                         m_eqs st'' ≡ₚ delete i (m_eqs st_x_eq_z) ++ rows).
Proof.
  refine (simplify_eq_progress 2 var_x var_z None st_x_eq_z var_y var_z dep_xy dep_xy
            st_x_eq_z st_x_eq_z [var_y] [var_z] _ _ _ _).
  - vm_compute. reflexivity.
  - vm_compute. reflexivity.
  - reflexivity.
  - reflexivity.
Defined.

(** C6 as stated fails.  The solution map sends [x] to [y]; the pending
    equation [x = z] canonizes to [y = z], which the reducer returns as the
    single pair [(y, z)], unchanged.  [simplify_eq] still reports progress
    and appends [(y, z)], tagged with the witness of [x ↦ y] rather than
    with the dependency of the original equation alone. *)
Lemma simplify_eq_progress_on_unchanged_reduct :
  canonize 2 var_x None st_x_eq_z = Some (var_y, dep_xy, st_x_eq_z) /\
  canonize 2 var_z dep_xy st_x_eq_z = Some (var_z, dep_xy, st_x_eq_z) /\
  reduce_eq var_y var_z = Some ([var_y], [var_z]) /\
  simplify_eq 2 var_x var_z None st_x_eq_z =
    Some (true, set_m_eqs [(var_x, var_z, None); (var_y, var_z, dep_xy)] st_x_eq_z).
Proof. repeat split; vm_compute; reflexivity. Qed.

(** *** Final check *)

Section FinalCheck.
Context {C : Type} `{SmtContext C} `{Rewriter} `{AstIds}.
Implicit Type st : theory_seq C.

Lemma find_branch_candidate_false (l : expr) (rs : list expr) st st' :
  find_branch_candidate l rs st = (false, st') -> st' = st.
Proof.
  unfold find_branch_candidate. destruct (is_var l); cbn [negb]; [|congruence].
  destruct (exclusion_table.contains l (mk_empty (get_sort l)) (m_exclude st)) eqn:E.
  - rewrite (assume_equality_excluded _ _ _ E), branch_atoms_spec.
    apply propose_first_unchanged.
  - rewrite (assume_equality_proposes _ _ _ E). discriminate.
Qed.

Lemma branch_variable_loop_false (sz : nat) (idx : list nat) st st' :
  branch_variable_loop sz idx st = (false, st') -> st' = st.
Proof.
  revert st. induction idx as [|i idx IH]; intros st E; cbn [branch_variable_loop] in E;
    [congruence|].
  destruct (m_eqs st !! ((i + m_branch_variable_head st) mod sz)) as [[[l r] d]|];
    [|congruence].
  destruct (match get_concat l with
            | [] => (false, st)
            | l0 :: _ => find_branch_candidate l0 (get_concat r) st
            end) as [[|] st1] eqn:E1; [discriminate|].
  assert (st1 = st) as ->.
  { destruct (get_concat l); [congruence|]. eapply find_branch_candidate_false, E1. }
  destruct (match get_concat r with
            | [] => (false, st)
            | r0 :: _ => find_branch_candidate r0 (get_concat l) st
            end) as [[|] st2] eqn:E2; [discriminate|].
  assert (st2 = st) as ->.
  { destruct (get_concat r); [congruence|]. eapply find_branch_candidate_false, E2. }
  apply IH, E.
Qed.

Lemma branch_variable_false st st' : branch_variable st = (false, st') -> st' = st.
Proof. apply branch_variable_loop_false. Qed.

(** C1.  [final_check_eh] runs [check_ineqs], then [simplify_and_solve_eqs]
    on the state the first left, then [branch_variable], then
    [split_variable].  It answers continue as soon as [check_ineqs] found a
    refutation, the equations changed, the host is inconsistent, or a
    case split was asserted.  If none of this happened the state is the one
    simplification left, and the answer is give-up exactly when the current
    frame still holds an equation or the incompleteness flag is set, and
    done otherwise. *)
Theorem final_check_eh_phases (fuel : nat) st :
  (forall st1,
     check_ineqs fuel st = Some (false, st1) ->
     final_check_eh fuel st = Some (FC_CONTINUE, st1)) /\
  (forall st1 change st2,
     check_ineqs fuel st = Some (true, st1) ->
     simplify_and_solve_eqs fuel st1 = Some (change, st2) ->
     if change || ctx_inconsistent (ctx st2)
     then final_check_eh fuel st = Some (FC_CONTINUE, st2)
     else
       exists b st3,
         branch_variable st2 = (b, st3) /\
         if b then final_check_eh fuel st = Some (FC_CONTINUE, st3)
         else
           st3 = st2 /\
           split_variable st2 = (false, st2) /\
           exists status,
             final_check_eh fuel st = Some (status, st2) /\
             (status = FC_GIVEUP <-> m_eqs st2 <> [] \/ m_incomplete st2 = true) /\
             (status = FC_DONE <-> m_eqs st2 = [] /\ m_incomplete st2 = false)).
Proof.
  split.
  - intros st1 E. unfold final_check_eh. rewrite E. reflexivity.
  - intros st1 change st2 E1 E2. unfold final_check_eh. rewrite E1.
    cbn [mbind option_bind negb]. rewrite E2. cbn [mbind option_bind].
    destruct change; [reflexivity|]. cbn [orb].
    destruct (ctx_inconsistent (ctx st2)) eqn:Ei; [reflexivity|].
    destruct (branch_variable st2) as [b st3] eqn:Eb. exists b, st3.
    split; [reflexivity|]. destruct b; [reflexivity|].
    apply branch_variable_false in Eb. subst st3.
    split; [reflexivity|]. split; [reflexivity|].
    unfold split_variable. rewrite Ei.
    destruct (m_eqs st2) as [|e eqs] eqn:Eq; cbn [length]; unfold Nat.ltb; cbn [Nat.leb orb].
    + destruct (m_incomplete st2); eexists; (split; [reflexivity|]);
        intuition congruence.
    + eexists. split; [reflexivity|]. intuition congruence.
Qed.

End FinalCheck.

Lemma final_check_eh_phases_witness :
  exists b st3,
    branch_variable st_length = (b, st3) /\
    if b then final_check_eh 1 st_length = Some (FC_CONTINUE, st3)
    else
      st3 = st_length /\
      split_variable st_length = (false, st_length) /\
      exists status,
        final_check_eh 1 st_length = Some (status, st_length) /\
        (status = FC_GIVEUP <-> m_eqs st_length <> [] \/ m_incomplete st_length = true) /\
        (status = FC_DONE <-> m_eqs st_length = [] /\ m_incomplete st_length = false).
Proof.
  exact (proj2 (final_check_eh_phases 1 st_length) st_length false st_length
           eq_refl eq_refl).
Defined.

(** *** Every operation stays within the current scope *)

Ltac ext_one :=
  first
    [ apply ext_on_ctx | apply ext_set_ctx | apply ext_set_m_eqs | apply ext_set_m_stats
    | apply ext_set_m_branch_variable_head | apply ext_set_m_model_completion
    | apply ext_set_m_axioms_head | apply ext_set_incomplete | apply ext_create_axiom
    | apply ext_push_ineq ].

Ltac ext_chain :=
  repeat first
    [ apply ext_refl
    | assumption
    | ext_one
    | eapply ext_trans; [|ext_one] ].

Section OpsExt.
Context {C : Type} `{SmtContext C} `{Rewriter} `{AstIds}.
Implicit Type st : theory_seq C.

Lemma ext_propagate_lit (dep : enode_pair_dependency) (lit : literal) st :
  ext st (propagate_lit dep lit st).
Proof. unfold propagate_lit. ext_chain. Qed.

Lemma ext_set_conflict (dep : enode_pair_dependency) st : ext st (set_conflict dep st).
Proof. unfold set_conflict. ext_chain. Qed.

Lemma ext_propagate_eq (dep : enode_pair_dependency) (n1 n2 : enode) st :
  ext st (propagate_eq dep n1 n2 st).
Proof. unfold propagate_eq. ext_chain. Qed.

Lemma ext_propagate_eq_lit (v : bool_var) (e1 e2 : expr) st :
  ext st (propagate_eq_lit v e1 e2 st).
Proof. unfold propagate_eq_lit. ext_chain. Qed.

Lemma ext_canonize (fuel : nat) (e : expr) (eqs : enode_pair_dependency) st
    (r : expr) (eqs' : enode_pair_dependency) st' :
  canonize fuel e eqs st = Some (r, eqs', st') -> ext st st'.
Proof. intros E. eapply canon_step_ext, canonize_canon_step, E. Qed.

Lemma ext_check_ineqs_loop (fuel : nat) (ineqs : list expr) st (b : bool) st' :
  check_ineqs_loop fuel ineqs st = Some (b, st') -> ext st st'.
Proof.
  revert st. induction ineqs as [|a ineqs IH]; intros st E; cbn [check_ineqs_loop] in E.
  - injection E as <- <-. apply ext_refl.
  - destruct (canonize fuel a None st) as [[[b0 eqs] st0]|] eqn:Ec; [|discriminate].
    cbn [mbind option_bind] in E. apply ext_canonize in Ec.
    eapply ext_trans; [exact Ec|].
    destruct (is_true b0).
    + injection E as <- <-. eapply ext_trans; [|apply ext_propagate_lit]. ext_chain.
    + eapply IH, E.
Qed.

Lemma ext_assume_equality (l r : expr) st (b : bool) st' :
  assume_equality l r st = (b, st') -> ext st st'.
Proof.
  unfold assume_equality. destruct (exclusion_table.contains l r (m_exclude st)).
  - intros [= <- <-]. apply ext_refl.
  - intros [= <- <-]. destruct (ctx_e_internalized (ctx st) r); ext_chain.
Qed.

Lemma ext_find_branch_candidate (l : expr) (rs : list expr) st (b : bool) st' :
  find_branch_candidate l rs st = (b, st') -> ext st st'.
Proof.
  destruct b.
  - intros E. apply find_branch_candidate_true in E as [c ->]. unfold proposed.
    destruct (ctx_e_internalized (ctx st) c); ext_chain.
  - intros E. apply find_branch_candidate_false in E. subst. apply ext_refl.
Qed.

Lemma ext_branch_variable_loop (sz : nat) (idx : list nat) st (b : bool) st' :
  branch_variable_loop sz idx st = (b, st') -> ext st st'.
Proof.
  revert st. induction idx as [|i idx IH]; intros st E; cbn [branch_variable_loop] in E.
  - injection E as <- <-. apply ext_refl.
  - destruct (m_eqs st !! ((i + m_branch_variable_head st) mod sz)) as [[[l r] d]|];
      [|injection E as <- <-; apply ext_refl].
    destruct (match get_concat l with
              | [] => (false, st)
              | l0 :: _ => find_branch_candidate l0 (get_concat r) st
              end) as [b1 st1] eqn:E1.
    assert (X1 : ext st st1).
    { destruct (get_concat l); [injection E1 as <- <-; apply ext_refl|].
      eapply ext_find_branch_candidate, E1. }
    destruct b1; [injection E as <- <-; ext_chain|].
    destruct (match get_concat r with
              | [] => (false, st1)
              | r0 :: _ => find_branch_candidate r0 (get_concat l) st1
              end) as [b2 st2] eqn:E2.
    assert (X2 : ext st1 st2).
    { destruct (get_concat r); [injection E2 as <- <-; apply ext_refl|].
      eapply ext_find_branch_candidate, E2. }
    destruct b2.
    + injection E as <- <-. eapply ext_trans; [exact X1|]. ext_chain.
    + eapply ext_trans; [exact X1|]. eapply ext_trans; [exact X2|]. eapply IH, E.
Qed.

Lemma ext_branch_variable st (b : bool) st' : branch_variable st = (b, st') -> ext st st'.
Proof. apply ext_branch_variable_loop. Qed.

Lemma ext_simplify_eq (fuel : nat) (l r : expr) (deps : enode_pair_dependency) st
    (b : bool) st' :
  simplify_eq fuel l r deps st = Some (b, st') -> ext st st'.
Proof.
  unfold simplify_eq. intros E.
  destruct (canonize fuel l deps st) as [[[lh d1] st1]|] eqn:E1; [|discriminate].
  cbn [mbind option_bind] in E.
  destruct (canonize fuel r d1 st1) as [[[rh d2] st2]|] eqn:E2; [|discriminate].
  cbn [mbind option_bind] in E.
  apply ext_canonize in E1. apply ext_canonize in E2.
  eapply ext_trans; [exact E1|]. eapply ext_trans; [exact E2|].
  destruct (reduce_eq lh rh) as [[lhs rhs]|].
  - destruct (_ && _); [injection E as <- <-; apply ext_refl|].
    destruct (eq_rows lhs rhs d2); [|discriminate].
    cbn [mbind option_bind] in E. injection E as <- <-. ext_chain.
  - injection E as <- <-. apply ext_set_conflict.
Qed.

Lemma ext_add_solution (l r : expr) (deps : enode_pair_dependency) st :
  ext st (add_solution l r deps st).
Proof.
  unfold add_solution.
  assert (X : ext st (set_m_rep (solution_map.update l r deps (m_rep st)) st))
    by apply ext_set_m_rep, rep_ext_update.
  destruct (_ && _); [|exact X].
  eapply ext_trans; [exact X|]. apply ext_propagate_eq.
Qed.

Lemma ext_solve_unit_eq (fuel : nat) (l r : expr) (deps : enode_pair_dependency) st
    (b : bool) st' :
  solve_unit_eq fuel l r deps st = Some (b, st') -> ext st st'.
Proof.
  unfold solve_unit_eq. intros E.
  destruct (canonize fuel l deps st) as [[[lh d1] st1]|] eqn:E1; [|discriminate].
  cbn [mbind option_bind] in E.
  destruct (canonize fuel r d1 st1) as [[[rh d2] st2]|] eqn:E2; [|discriminate].
  cbn [mbind option_bind] in E.
  apply ext_canonize in E1. apply ext_canonize in E2.
  eapply ext_trans; [exact E1|]. eapply ext_trans; [exact E2|].
  destruct (bool_decide (lh = rh)); [injection E as <- <-; apply ext_refl|].
  destruct (is_var lh && negb (occurs lh rh));
    [injection E as <- <-; apply ext_add_solution|].
  destruct (is_var rh && negb (occurs rh lh));
    injection E as <- <-; [apply ext_add_solution|apply ext_refl].
Qed.

Lemma ext_remove_eq (i : nat) st (i' : nat) st' :
  remove_eq i st = Some (i', st') -> ext st st'.
Proof.
  unfold remove_eq. destruct (bool_decide _).
  - destruct (m_eqs st !! _); [|discriminate]. cbn [mbind option_bind].
    intros [= <- <-]. unfold incr_num_reductions. ext_chain.
  - intros [= <- <-]. ext_chain.
Qed.

Lemma ext_pre_process_eqs_loop (fuel : nat) (simplify_or_solve : bool) (i : nat)
    (change : bool) st (b : bool) st' :
  pre_process_eqs_loop fuel simplify_or_solve i change st = Some (b, st') -> ext st st'.
Proof.
  revert i change st. induction fuel as [|fuel IH]; intros i change st E;
    cbn [pre_process_eqs_loop] in E.
  - destruct (ctx_inconsistent (ctx st)); [injection E as <- <-; apply ext_refl|].
    destruct (m_eqs st !! i) as [[[l r] d]|]; [discriminate|].
    injection E as <- <-; apply ext_refl.
  - destruct (ctx_inconsistent (ctx st)); [injection E as <- <-; apply ext_refl|].
    destruct (m_eqs st !! i) as [[[l r] d]|]; [|injection E as <- <-; apply ext_refl].
    destruct (if simplify_or_solve then simplify_eq fuel l r d st
              else solve_unit_eq fuel l r d st) as [[b1 st1]|] eqn:E1; [|discriminate].
    cbn [mbind option_bind] in E.
    assert (X1 : ext st st1).
    { destruct simplify_or_solve;
        [eapply ext_simplify_eq, E1|eapply ext_solve_unit_eq, E1]. }
    eapply ext_trans; [exact X1|].
    destruct b1.
    + destruct (remove_eq i st1) as [[i2 st2]|] eqn:E2; [|discriminate].
      cbn [mbind option_bind] in E. apply ext_remove_eq in E2.
      eapply ext_trans; [exact E2|]. eapply IH, E.
    + eapply IH, E.
Qed.

Lemma ext_solve_loop (fuel : nat) (change : bool) st (b : bool) st' :
  solve_loop fuel change st = Some (b, st') -> ext st st'.
Proof.
  revert change st. induction fuel as [|fuel IH]; intros change st E; cbn [solve_loop] in E.
  - destruct (ctx_inconsistent (ctx st)); [injection E as <- <-; apply ext_refl|discriminate].
  - destruct (ctx_inconsistent (ctx st)); [injection E as <- <-; apply ext_refl|].
    destruct (solve_basic_eqs fuel st) as [[b1 st1]|] eqn:E1; [|discriminate].
    cbn [mbind option_bind] in E. apply ext_pre_process_eqs_loop in E1.
    eapply ext_trans; [exact E1|].
    destruct b1; [|injection E as <- <-; apply ext_refl].
    destruct (simplify_eqs fuel st1) as [[b2 st2]|] eqn:E2; [|discriminate].
    cbn [mbind option_bind] in E. apply ext_pre_process_eqs_loop in E2.
    eapply ext_trans; [exact E2|]. eapply IH, E.
Qed.

Lemma ext_simplify_and_solve_eqs (fuel : nat) st (b : bool) st' :
  simplify_and_solve_eqs fuel st = Some (b, st') -> ext st st'.
Proof.
  unfold simplify_and_solve_eqs. intros E.
  destruct (simplify_eqs fuel st) as [[b1 st1]|] eqn:E1; [|discriminate].
  cbn [mbind option_bind] in E. apply ext_pre_process_eqs_loop in E1.
  eapply ext_trans; [exact E1|]. eapply ext_solve_loop, E.
Qed.

Lemma ext_final_check_eh (fuel : nat) st (status : final_check_status) st' :
  final_check_eh fuel st = Some (status, st') -> ext st st'.
Proof.
  unfold final_check_eh. intros E.
  destruct (check_ineqs fuel st) as [[ok st1]|] eqn:E1; [|discriminate].
  cbn [mbind option_bind] in E. apply ext_check_ineqs_loop in E1.
  eapply ext_trans; [exact E1|].
  destruct ok; cbn [negb] in E; [|injection E as <- <-; apply ext_refl].
  destruct (simplify_and_solve_eqs fuel st1) as [[change st2]|] eqn:E2; [|discriminate].
  cbn [mbind option_bind] in E. apply ext_simplify_and_solve_eqs in E2.
  eapply ext_trans; [exact E2|].
  destruct change; [injection E as <- <-; apply ext_refl|].
  destruct (ctx_inconsistent (ctx st2)); [injection E as <- <-; apply ext_refl|].
  destruct (branch_variable st2) as [b st3] eqn:E3. apply ext_branch_variable in E3.
  eapply ext_trans; [exact E3|].
  destruct b; [injection E as <- <-; apply ext_refl|].
  unfold split_variable in E.
  destruct (ctx_inconsistent (ctx st3)); [injection E as <- <-; apply ext_refl|].
  destruct (_ || _); injection E as <- <-; apply ext_refl.
Qed.

Lemma ext_mk_var (n : enode) st : ext st (mk_var n st).
Proof. unfold mk_var. destruct (ctx_is_attached_to_var (ctx st) n); ext_chain. Qed.

Lemma ext_internalize_term (term : expr) st : ext st (internalize_term term st).2.
Proof.
  unfold internalize_term. cbn [snd].
  set (st1 := foldl internalize_arg st match term with app _ args => args end).
  assert (X1 : ext st st1).
  { subst st1. generalize (match term with app _ args => args end). intros args.
    revert st. induction args as [|a args IH]; intros st; [apply ext_refl|].
    cbn [foldl]. eapply ext_trans; [|apply IH].
    unfold internalize_arg. destruct (ctx_e_internalized _ a).
    - eapply ext_trans; [|apply ext_mk_var]. ext_chain.
    - ext_chain. }
  clearbody st1.
  set (st2 := if is_bool term then _ else _).
  assert (X2 : ext st1 st2).
  { subst st2. destruct (is_bool term); [ext_chain|].
    eapply ext_trans; [|apply ext_mk_var].
    destruct (ctx_e_internalized (ctx st1) term); ext_chain. }
  clearbody st2. eapply ext_trans; [exact X1|]. eapply ext_trans; [exact X2|].
  destruct (negb (supported_head term)); ext_chain.
Qed.

Lemma ext_assert_axiom (e : expr) st : ext st (assert_axiom e st).
Proof. unfold assert_axiom. destruct (is_true e); ext_chain. Qed.

Lemma ext_propagate st : ext st (propagate st).
Proof.
  unfold propagate. generalize (drop (m_axioms_head st) (m_axioms st)). intros pending.
  revert st. induction pending as [|e pending IH]; intros st; cbn [propagate_loop];
    [apply ext_refl|].
  destruct (ctx_inconsistent (ctx st)); [apply ext_refl|].
  eapply ext_trans; [|apply IH]. eapply ext_trans; [apply ext_assert_axiom|]. ext_chain.
Qed.

Lemma ext_add_len_concat_axiom (c : expr) st st' :
  add_len_concat_axiom c st = Some st' -> ext st st'.
Proof.
  unfold add_len_concat_axiom. destruct (is_concat c) as [[a b]|]; [|discriminate].
  cbn [mbind option_bind]. intros [= <-]. ext_chain.
Qed.

Lemma ext_add_indexof_axiom (i : expr) st st' :
  add_indexof_axiom i st = Some st' -> ext st st'.
Proof.
  unfold add_indexof_axiom. destruct (is_index i) as [[s t]|]; [|discriminate].
  cbn [mbind option_bind]. intros [= <-]. ext_chain.
Qed.

Lemma ext_add_replace_axiom (r : expr) st st' :
  add_replace_axiom r st = Some st' -> ext st st'.
Proof.
  unfold add_replace_axiom. destruct (is_replace r) as [[[a s] t]|]; [|discriminate].
  cbn [mbind option_bind]. intros [= <-]. ext_chain.
Qed.

Lemma ext_add_len_axiom (n : expr) st st' : add_len_axiom n st = Some st' -> ext st st'.
Proof.
  unfold add_len_axiom. destruct (is_length n) as [x|]; [|discriminate].
  cbn [mbind option_bind]. intros [= <-]. destruct (bool_decide _); ext_chain.
Qed.

Lemma ext_relevant_eh (n : expr) st st' : relevant_eh n st = Some st' -> ext st st'.
Proof.
  unfold relevant_eh. destruct (is_seq_app OP_SEQ_LENGTH n).
  - apply ext_add_len_axiom.
  - intros [= <-]. apply ext_refl.
Qed.

Lemma ext_assign_eq (v : bool_var) (is_true : bool) st st' :
  assign_eq v is_true st = Some st' -> ext st st'.
Proof.
  unfold assign_eq. destruct is_true.
  - destruct (is_prefix v) as [[e1 e2]|]; [intros [= <-]; apply ext_propagate_eq_lit|].
    destruct (is_suffix v) as [[e1 e2]|]; [intros [= <-]; apply ext_propagate_eq_lit|].
    destruct (is_contains v) as [[e1 e2]|]; [intros [= <-]; apply ext_propagate_eq_lit|].
    discriminate.
  - intros [= <-]. apply ext_push_ineq.
Qed.

Lemma ext_new_eq_eh (v1 v2 : theory_var) st st' : new_eq_eh v1 v2 st = Some st' -> ext st st'.
Proof.
  unfold new_eq_eh. destruct (bool_decide _); [|intros [= <-]; apply ext_refl].
  rewrite new_eq_len_concat_inert. cbn [mbind option_bind]. rewrite new_eq_len_concat_inert.
  intros [= <-]. ext_chain.
Qed.

Lemma ext_new_diseq_eh (v1 v2 : theory_var) st : ext st (new_diseq_eh v1 v2 st).
Proof.
  unfold new_diseq_eh. eapply ext_trans; [apply ext_push_ineq|].
  apply ext_set_m_exclude, excl_ext_update.
Qed.

Lemma ext_mk_value (fuel : nat) (n : enode) st (e : expr) st' :
  mk_value fuel n st = Some (e, st') -> ext st st'.
Proof.
  unfold mk_value. intros E.
  destruct (canonize fuel n None (set_m_model_completion true st)) as [[[e0 d0] st0]|] eqn:Ec;
    [|discriminate].
  cbn [mbind option_bind] in E. injection E as <- <-. apply ext_canonize in Ec.
  eapply ext_trans; [apply (ext_set_m_model_completion true)|].
  eapply ext_trans; [exact Ec|]. ext_chain.
Qed.

Lemma ext_run_op (fuel : nat) (o : operation) st st' : run_op fuel o st = Some st' -> ext st st'.
Proof.
  destruct o; cbn [run_op].
  - intros [= <-]. apply ext_internalize_term.
  - apply ext_new_eq_eh.
  - intros [= <-]. apply ext_new_diseq_eh.
  - apply ext_assign_eq.
  - intros [= <-]. apply ext_propagate.
  - destruct (final_check_eh fuel st) as [[status st0]|] eqn:E; [|discriminate].
    cbn. intros [= <-]. eapply ext_final_check_eh, E.
  - apply ext_relevant_eh.
  - intros [= <-]. apply ext_refl.
  - destruct (mk_value fuel n st) as [[e st0]|] eqn:E; [|discriminate].
    cbn. intros [= <-]. eapply ext_mk_value, E.
  - intros [= <-]. apply ext_set_m_rep, rep_ext_update.
  - destruct (solution_map.find fuel e (m_rep st)) as [[[r d] rep]|] eqn:E; [|discriminate].
    cbn [mbind option_bind]. intros [= <-]. eapply ext_set_m_rep, rep_ext_find, E.
  - intros [= <-]. apply ext_set_m_exclude, excl_ext_update.
  - intros [= <-]. apply ext_set_incomplete.
  - intros [= <-]. apply ext_create_axiom.
  - apply ext_add_indexof_axiom.
  - apply ext_add_replace_axiom.
  - apply ext_add_len_concat_axiom.
  - intros [= <-]. apply ext_add_solution.
  - intros [= <-]. apply ext_set_m_eqs.
  - destruct (remove_eq i st) as [[i' st0]|] eqn:E; [|discriminate].
    cbn. intros [= <-]. eapply ext_remove_eq, E.
Qed.

Lemma run_app (fuel : nat) (s1 s2 : list step) st :
  run fuel (s1 ++ s2) st = run fuel s1 st ≫= run fuel s2.
Proof.
  revert st. induction s1 as [|s s1 IH]; intros st; [reflexivity|].
  cbn [List.app run]. destruct (run_step fuel s st) as [st1|]; [|reflexivity].
  cbn [mbind option_bind]. apply IH.
Qed.

(** A balanced script stays within the scope it started in. *)
Lemma ext_run_balanced (fuel : nat) (script : list step) st st' :
  balanced script -> run fuel script st = Some st' -> ext st st'.
Proof.
  intros Hb. revert st st'.
  induction Hb as [|o script _ IH|inner script _ IHi _ IHs]; intros st st' E.
  - injection E as <-. apply ext_refl.
  - cbn [run run_step] in E. destruct (run_op fuel o st) as [st1|] eqn:E1; [|discriminate].
    cbn [mbind option_bind] in E. apply ext_run_op in E1.
    eapply ext_trans; [exact E1|]. eapply IH, E.
  - cbn [run run_step mbind option_bind] in E. rewrite run_app in E.
    destruct (run fuel inner (push_scope_eh st)) as [st1|] eqn:E1; [|discriminate].
    cbn [mbind option_bind run run_step] in E.
    destruct (pop_after_push st st1 (IHi _ _ E1)) as (st2 & Ep & Es).
    rewrite Ep in E. cbn [mbind option_bind] in E.
    eapply ext_scoped_l; [exact Es|]. eapply IHs, E.
Qed.

End OpsExt.

(** *** Scope reversibility *)

Section Reversibility.
Context {C : Type} `{SmtContext C} `{Rewriter} `{AstIds}.
Implicit Type st : theory_seq C.

(** C2.  Whatever script [before] led to the state [st]: after
    [push_scope_eh], any further operations (with scope changes of their own
    in matched pairs) and [pop_scope_eh(1)], the solution map, the exclusion
    table, the current frame of pending equations, the incompleteness flag
    and the axiom cursor are what they were in [st]; so are the trails, the
    marks, the saved frames, the axiom queue and the inequation list. *)
Theorem scope_reversibility (fuel : nat) (before inner : list step) st0 st st1 :
  run fuel before st0 = Some st ->
  balanced inner ->
  run fuel inner (push_scope_eh st) = Some st1 ->
  exists st2,
    run fuel (before ++ do_push :: inner ++ [do_pop 1]) st0 = Some st2 /\
    solution_map.m_map (m_rep st2) = solution_map.m_map (m_rep st) /\
    exclusion_table.m_table (m_exclude st2) = exclusion_table.m_table (m_exclude st) /\
    m_eqs st2 = m_eqs st /\
    m_incomplete st2 = m_incomplete st /\
    m_axioms_head st2 = m_axioms_head st /\
    scoped st2 = scoped st.
Proof.
  intros Eb Hbal Ei.
  destruct (pop_after_push st st1 (ext_run_balanced _ _ _ _ Hbal Ei)) as (st2 & Ep & Es).
  exists st2. split.
  - rewrite run_app, Eb. cbn [mbind option_bind run run_step].
    rewrite run_app, Ei. cbn [mbind option_bind run run_step]. rewrite Ep. reflexivity.
  - pose proof Es as Es'. unfold scoped in Es'.
    injection Es' as E1 E2 E3 E4 E5 E6 E7 E8 E9.
    repeat split; congruence.
Qed.

End Reversibility.

(** A run that succeeds returns the state that [default] reads off it. *)
Lemma some_default {A : Type} (d : A) (o : option A) :
  match o with Some _ => true | None => false end = true -> o = Some (default d o).
Proof. destruct o; [reflexivity|discriminate]. Qed.

Lemma script_inner_balanced : balanced script_inner.
Proof.
  unfold script_inner. do 6 apply balanced_op.
  apply (balanced_scope [do_op (op_rep_find var_x)] [do_op op_final_check]);
    repeat constructor.
Defined.

Lemma scope_reversibility_witness :
  let st := set_m_rep (solution_map.update var_x var_y dep_xy solution_map.empty)
              (init host_x_yz) in
  exists st2,
    run 5 (script_before ++ do_push :: script_inner ++ [do_pop 1]) (init host_x_yz) = Some st2 /\
    solution_map.m_map (m_rep st2) = solution_map.m_map (m_rep st) /\
    exclusion_table.m_table (m_exclude st2) = exclusion_table.m_table (m_exclude st) /\
    m_eqs st2 = m_eqs st /\
    m_incomplete st2 = m_incomplete st /\
    m_axioms_head st2 = m_axioms_head st /\
    scoped st2 = scoped st.
Proof.
  refine (scope_reversibility 5 script_before script_inner (init host_x_yz) _ _
            eq_refl script_inner_balanced (some_default (init host_x_yz) _ _)).
  vm_compute. reflexivity.
Defined.

(** *** Incompleteness *)

Section Incomplete.
Context {C : Type} `{SmtContext C} `{Rewriter} `{AstIds}.
Implicit Type st : theory_seq C.

Lemma ext_incomplete st st' : ext st st' -> m_incomplete st = true -> m_incomplete st' = true.
Proof. intros (_ & _ & _ & _ & Hi). exact Hi. Qed.

Lemma final_check_eh_done (fuel : nat) st st' :
  final_check_eh fuel st = Some (FC_DONE, st') -> m_incomplete st = false.
Proof.
  unfold final_check_eh. intros E.
  destruct (check_ineqs fuel st) as [[ok st1]|] eqn:E1; [|discriminate].
  cbn [mbind option_bind] in E. apply ext_check_ineqs_loop in E1.
  destruct ok; cbn [negb] in E; [|discriminate].
  destruct (simplify_and_solve_eqs fuel st1) as [[change st2]|] eqn:E2; [|discriminate].
  cbn [mbind option_bind] in E. apply ext_simplify_and_solve_eqs in E2.
  destruct change; [discriminate|].
  destruct (ctx_inconsistent (ctx st2)); [discriminate|].
  destruct (branch_variable st2) as [b st3] eqn:E3. apply ext_branch_variable in E3.
  destruct b; [discriminate|]. unfold split_variable in E.
  destruct (ctx_inconsistent (ctx st3)); [discriminate|].
  destruct ((0 <? length (m_eqs st3)) || m_incomplete st3) eqn:E4; [discriminate|].
  apply orb_false_iff in E4 as [_ E4].
  destruct (m_incomplete st) eqn:Ei; [|reflexivity].
  pose proof (ext_incomplete _ _ (ext_trans _ _ _ (ext_trans _ _ _ E1 E2) E3) Ei). congruence.
Qed.

Lemma set_incomplete_sets (term : expr) st : m_incomplete (set_incomplete term st) = true.
Proof. unfold set_incomplete. destruct (m_incomplete st) eqn:E; [exact E|reflexivity]. Qed.

Lemma internalize_term_incomplete (term : expr) st :
  supported_head term = false -> m_incomplete (internalize_term term st).2 = true.
Proof.
  intros Hs. unfold internalize_term. cbn [snd]. rewrite Hs. cbn [negb].
  apply set_incomplete_sets.
Qed.

End Incomplete.

Lemma script_after_length_balanced : balanced script_after_length.
Proof.
  unfold script_after_length. do 2 apply balanced_op.
  apply (balanced_scope [do_op (op_rep_update var_x var_y dep_xy)] []); repeat constructor.
Defined.

(** ** Further properties *)

(** *** Occurs check and concat-atoms *)

Lemma get_concat_unfold (b : expr) :
  get_concat b =
  match is_concat b with
  | Some (e1, e2) => get_concat e1 ++ get_concat e2
  | None => [b]
  end.
Proof.
  destruct b as [[n r|k r|s|n r|k|k] args]; try reflexivity.
  destruct args as [|e1 [|e2 [|e3 args]]]; destruct k; reflexivity.
Qed.

Lemma get_concat_atoms (b c : expr) : c ∈ get_concat b -> is_concat c = None.
Proof.
  induction b as [f args IH] using expr_nested_ind.
  rewrite get_concat_unfold.
  destruct (is_concat (app f args)) as [[e1 e2]|] eqn:E.
  - destruct f as [n r|k r|s|n r|k|k]; try discriminate.
    destruct args as [|a1 [|a2 [|a3 args]]]; try discriminate.
    cbn in E. destruct (bool_decide (k = OP_SEQ_CONCAT)); [|discriminate].
    injection E as <- <-.
    inversion IH as [|? ? H1 IH']. inversion IH' as [|? ? H2 _]. subst.
    rewrite elem_of_app. intros [Hc|Hc]; auto.
  - intros Hc. apply list_elem_of_singleton in Hc. subst c. exact E.
Qed.

(** X2.  [occurs(a, b)] is the disjunction of the occurs checks on the
    concat-atoms of [b], and on an atom it compares the two terms with
    their left/right selectors stripped. *)
Theorem occurs_over_concat_atoms (a b : expr) :
  occurs a b = existsb (occurs a) (get_concat b) /\
  forall c, c ∈ get_concat b ->
    occurs a c = bool_decide (strip_selects a = strip_selects c).
Proof.
  split.
  - induction b as [f args IH] using expr_nested_ind.
    rewrite get_concat_unfold, occurs_unfold.
    destruct (is_concat (app f args)) as [[e1 e2]|] eqn:E.
    + destruct f as [n r|k r|s|n r|k|k]; try discriminate.
      destruct args as [|a1 [|a2 [|a3 args]]]; try discriminate.
      cbn in E. destruct (bool_decide (k = OP_SEQ_CONCAT)); [|discriminate].
      injection E as <- <-.
      inversion IH as [|? ? H1 IH']. inversion IH' as [|? ? H2 _]. subst.
      rewrite existsb_app, !occurs_strip, H1, H2. reflexivity.
    + cbn [existsb]. rewrite orb_false_r, occurs_unfold, E. reflexivity.
  - intros c Hc. rewrite occurs_unfold, (get_concat_atoms _ _ Hc). reflexivity.
Qed.

(** *** Solution map *)

Lemma find_loop_inv (fuel : nat) (m : gmap expr (expr * enode_pair_dependency))
    (e r : expr) (d d' : enode_pair_dependency) (n n' : nat) :
  solution_map.find_loop fuel m e d n = Some (r, d', n') ->
  exists ws, chain m e ws r /\ d' = foldl mk_join d ws /\ n' = n + length ws /\
             length ws <= fuel.
Proof.
  revert e d n. induction fuel as [|fuel IH]; intros e d n; cbn.
  - destruct (m !! e) as [[r0 d0]|] eqn:E; [discriminate|].
    intros [= <- <- <-]. exists []. cbn. split; [apply chain_end, E|]. repeat split; lia.
  - destruct (m !! e) as [[r0 d0]|] eqn:E.
    + cbn. intros Hf. apply IH in Hf as (ws & Hc & -> & -> & Hl).
      exists (d0 :: ws). cbn. split; [eapply chain_edge; eassumption|]. repeat split; lia.
    + intros [= <- <- <-]. exists []. cbn. split; [apply chain_end, E|]. repeat split; lia.
Qed.

Lemma chain_functional (m : gmap expr (expr * enode_pair_dependency)) (e r r' : expr)
    (ws ws' : list enode_pair_dependency) :
  chain m e ws r -> chain m e ws' r' -> ws = ws' /\ r = r'.
Proof.
  intros Hc. revert ws' r'. induction Hc as [r Hr|e r0 d0 ws t He _ IH]; intros ws' r' Hc'.
  - inversion Hc'; subst; [auto|congruence].
  - inversion Hc' as [|e0 r1 d1 ws1 t1 He1 Hc1]; subst; [congruence|].
    rewrite He in He1. injection He1 as <- <-.
    destruct (IH _ _ Hc1) as [-> ->]. auto.
Qed.

Lemma linearize_foldl_join (a : enode_pair_dependency) (ws : list enode_pair_dependency)
    (p : enode_pair) :
  p ∈ linearize (foldl mk_join a ws) <->
  p ∈ linearize a \/ exists w, w ∈ ws /\ p ∈ linearize w.
Proof.
  revert a. induction ws as [|w ws IH]; intros a; cbn.
  - split; [auto|]. intros [Hp|(w & Hw & _)]; [exact Hp|]. apply elem_of_nil in Hw. tauto.
  - rewrite IH, linearize_mk_join. split.
    + intros [[Hp|Hp]|(w' & Hw & Hp)]; [auto| |].
      * right. exists w. split; [left|exact Hp].
      * right. exists w'. split; [right; exact Hw|exact Hp].
    + intros [Hp|(w' & Hw & Hp)]; [auto|].
      apply elem_of_cons in Hw as [->|Hw]; [auto|]. right. exists w'. auto.
Qed.

(** X3.  Insert/lookup round trip of the solution map: right after
    [update(e, r, d)], with [r] different from [e] and without an entry of
    its own, [find(e)] answers [r] under the dependency [d] and leaves the
    map and its trail alone, whatever entry [e] had before.  The side
    condition matters: after [update(e, e, d)] the loop of [find] never
    ends. *)
Theorem update_then_find (s : solution_map.t) (e r : expr) (d : enode_pair_dependency)
    (fuel : nat) :
  solution_map.m_map s !! r = None ->
  e <> r ->
  solution_map.find (S fuel) e (solution_map.update e r d s)
    = Some (r, d, solution_map.update e r d s) /\
  forall fuel', solution_map.find fuel' e (solution_map.update e e d s) = None.
Proof.
  intros Hr Hne. split.
  - assert (Hm : solution_map.m_map (solution_map.update e r d s)
                 = <[e := (r, d)]> (solution_map.m_map s)).
    { unfold solution_map.update. destruct (solution_map.m_map s !! e); reflexivity. }
    unfold solution_map.find.
    rewrite (find_loop_chain _ e r [d] (S fuel) None 0).
    + cbn. reflexivity.
    + rewrite Hm. eapply chain_edge; [apply lookup_insert_eq|].
      apply chain_end. rewrite lookup_insert_ne by exact Hne. exact Hr.
    + cbn. lia.
  - intros fuel'.
    assert (Hm : solution_map.m_map (solution_map.update e e d s) !! e = Some (e, d)).
    { unfold solution_map.update.
      destruct (solution_map.m_map s !! e); cbn; apply lookup_insert_eq. }
    unfold solution_map.find.
    assert (Hl : forall d0 n,
               solution_map.find_loop fuel'
                 (solution_map.m_map (solution_map.update e e d s)) e d0 n = None).
    { induction fuel' as [|fuel' IH]; intros d0 n; cbn; rewrite Hm; [reflexivity|].
      cbn. apply IH. }
    rewrite Hl. reflexivity.
Qed.

Lemma update_then_find_witness :
  solution_map.find 1 var_x (solution_map.update var_x var_z dep_xy rep_xyz)
    = Some (var_z, dep_xy, solution_map.update var_x var_z dep_xy rep_xyz) /\
  forall fuel', solution_map.find fuel' var_x (solution_map.update var_x var_x dep_xy rep_xyz)
                = None.
Proof.
  apply (update_then_find rep_xyz var_x var_z dep_xy 0).
  - vm_compute. reflexivity.
  - discriminate.
Defined.

Lemma chain_after_compress (m : gmap expr (expr * enode_pair_dependency)) (e r k t : expr)
    (wse ws : list enode_pair_dependency) :
  chain m e wse r -> wse <> [] -> chain m k ws t ->
  exists ws',
    chain (<[e := (r, foldl mk_join None wse)]> m) k ws' t /\
    length ws' <= length ws /\
    forall p, (exists w, w ∈ ws' /\ p ∈ linearize w) <-> (exists w, w ∈ ws /\ p ∈ linearize w).
Proof.
  intros He Hne Hk.
  assert (Hee : is_Some (m !! e)).
  { inversion He; subst; [congruence|eauto]. }
  induction Hk as [t Ht|k r0 d0 ws t Hk0 Hk IH].
  - exists []. split; [|split; [lia|tauto]].
    apply chain_end. rewrite lookup_insert_ne; [exact Ht|].
    intros ->. rewrite Ht in Hee. destruct Hee; discriminate.
  - destruct (decide (k = e)) as [->|Hke].
    + destruct (chain_functional _ _ _ _ _ _ He (chain_edge _ _ _ _ _ _ Hk0 Hk)) as [-> ->].
      exists [foldl mk_join None (d0 :: ws)]. split; [|split; [cbn; lia|]].
      * eapply chain_edge; [apply lookup_insert_eq|].
        apply chain_end. pose proof (chain_end_free _ _ _ _ Hk) as Ht.
        rewrite lookup_insert_ne; [exact Ht|].
        intros ->. rewrite Ht in Hee. destruct Hee; discriminate.
      * intros p. split.
        -- intros (w & Hw & Hp). apply list_elem_of_singleton in Hw. subst w.
           apply linearize_foldl_join in Hp as [Hp|Hp]; [|exact Hp].
           cbn in Hp. apply elem_of_nil in Hp. tauto.
        -- intros Hp. eexists. split; [apply list_elem_of_singleton; reflexivity|].
           apply linearize_foldl_join. right. exact Hp.
    + destruct IH as (ws' & Hc' & Hl & Hp).
      exists (d0 :: ws'). split; [|split; [cbn; lia|]].
      * eapply chain_edge; [|exact Hc']. rewrite lookup_insert_ne by congruence. exact Hk0.
      * intros p. split; intros (w & Hw & Hpw); apply elem_of_cons in Hw as [->|Hw].
        -- exists d0. split; [left|exact Hpw].
        -- destruct (proj1 (Hp p)) as (w' & Hw' & Hpw'); [eauto|].
           exists w'. split; [right; exact Hw'|exact Hpw'].
        -- exists d0. split; [left|exact Hpw].
        -- destruct (proj2 (Hp p)) as (w' & Hw' & Hpw'); [eauto|].
           exists w'. split; [right; exact Hw'|exact Hpw'].
Qed.

(** X4.  Path compression keeps the answers of [find].  After [find(e)] has
    answered [r] under [d] (and may have compressed the path of [e]), a
    second [find(e)] gives the same answer under the same dependency and
    changes nothing; and [find] of any key [k] still reaches the
    representative it reached before, justified by the same e-node pairs. *)
Theorem find_compression_keeps_answers (s s' : solution_map.t) (e r : expr)
    (d : enode_pair_dependency) (fuel : nat) :
  solution_map.find fuel e s = Some (r, d, s') ->
  solution_map.find fuel e s' = Some (r, d, s') /\
  forall k rk dk sk fuel',
    solution_map.find fuel' k s = Some (rk, dk, sk) ->
    exists dk' sk',
      solution_map.find fuel' k s' = Some (rk, dk', sk') /\
      forall p, p ∈ linearize dk' <-> p ∈ linearize dk.
Proof.
  unfold solution_map.find at 1.
  destruct (solution_map.find_loop fuel (solution_map.m_map s) e None 0)
    as [[[r0 d0] n]|] eqn:El; [|discriminate].
  cbn [mbind option_bind]. intros [= -> -> <-].
  apply find_loop_inv in El as (wse & Hce & -> & -> & Hfuel). cbn [Nat.add] in *.
  destruct (1 <? length wse) eqn:En.
  - apply Nat.ltb_lt in En.
    assert (Hne : wse <> []) by (destruct wse; [cbn in En; lia|discriminate]).
    assert (Hm : solution_map.m_map (solution_map.update e r (foldl mk_join None wse) s)
                 = <[e := (r, foldl mk_join None wse)]> (solution_map.m_map s)).
    { unfold solution_map.update. destruct (solution_map.m_map s !! e); reflexivity. }
    assert (Hre : e <> r).
    { intros ->. pose proof (chain_end_free _ _ _ _ Hce) as Hr.
      inversion Hce; subst; congruence. }
    split.
    + unfold solution_map.find.
      rewrite (find_loop_chain _ e r [foldl mk_join None wse] fuel None 0).
      * cbn. reflexivity.
      * rewrite Hm. eapply chain_edge; [apply lookup_insert_eq|].
        apply chain_end. rewrite lookup_insert_ne by exact Hre.
        eapply chain_end_free, Hce.
      * cbn. lia.
    + intros k rk dk sk fuel' Hk. unfold solution_map.find in Hk.
      destruct (solution_map.find_loop fuel' (solution_map.m_map s) k None 0)
        as [[[r1 d1] n1]|] eqn:Elk; [|discriminate].
      cbn [mbind option_bind] in Hk. injection Hk as -> -> _.
      apply find_loop_inv in Elk as (ws & Hck & -> & -> & Hfuel').
      destruct (chain_after_compress _ _ _ _ _ _ _ Hce Hne Hck) as (ws' & Hc' & Hl & Hp).
      unfold solution_map.find. rewrite Hm.
      rewrite (find_loop_chain _ k rk ws' fuel' None 0 Hc') by lia.
      cbn [mbind option_bind]. eexists _, _. split; [reflexivity|].
      intros p. rewrite !linearize_foldl_join. cbn [linearize]. rewrite elem_of_nil.
      specialize (Hp p). tauto.
  - split.
    + unfold solution_map.find.
      rewrite (find_loop_chain _ e r wse fuel None 0 Hce Hfuel).
      cbn [mbind option_bind Nat.add]. rewrite En. reflexivity.
    + intros k rk dk sk fuel' Hk. exists dk, sk. split; [exact Hk|tauto].
Qed.

Lemma find_compression_keeps_answers_witness :
  let s' := solution_map.update var_x var_z (mk_join dep_xy dep_yz) rep_xyz in
  solution_map.find 2 var_x s' = Some (var_z, mk_join dep_xy dep_yz, s') /\
  forall k rk dk sk fuel',
    solution_map.find fuel' k rep_xyz = Some (rk, dk, sk) ->
    exists dk' sk',
      solution_map.find fuel' k s' = Some (rk, dk', sk') /\
      forall p, p ∈ linearize dk' <-> p ∈ linearize dk.
Proof.
  apply (find_compression_keeps_answers rep_xyz _ var_x var_z (mk_join dep_xy dep_yz) 2).
  vm_compute. reflexivity.
Defined.

(** *** What the operations leave alone *)

Section Steady.
Context {C : Type} `{SmtContext C} `{AstIds}.
Implicit Type st : theory_seq C.

Lemma excl_grows_refl (s : exclusion_table.t) : excl_grows s s.
Proof. exists []. reflexivity. Qed.

Lemma excl_grows_trans (s1 s2 s3 : exclusion_table.t) :
  excl_grows s1 s2 -> excl_grows s2 s3 -> excl_grows s1 s3.
Proof. intros [l1 ->] [l2 ->]. exists (l1 ++ l2). rewrite foldl_app. reflexivity. Qed.

Lemma steady_refl st : steady st st.
Proof. split; [apply excl_grows_refl|]. auto. Qed.

Lemma steady_trans st1 st2 st3 : steady st1 st2 -> steady st2 st3 -> steady st1 st3.
Proof.
  intros (He1 & Hm1 & Hs1) (He2 & Hm2 & Hs2).
  split; [eapply excl_grows_trans; eassumption|].
  split; congruence.
Qed.

Lemma steady_same st st' :
  m_exclude st' = m_exclude st -> m_model_completion st' = m_model_completion st ->
  m_stats st' = m_stats st -> steady st st'.
Proof.
  intros He Hm Hs. unfold steady. rewrite He, Hm, Hs.
  split; [apply excl_grows_refl|]. auto.
Qed.

Lemma steady_set_ctx (c : C) st : steady st (set_ctx c st).
Proof. apply steady_same; reflexivity. Qed.

Lemma steady_on_ctx (f : C -> C) st : steady st (on_ctx f st).
Proof. apply steady_set_ctx. Qed.

Lemma steady_set_m_eqs (v : list pending_eq) st : steady st (set_m_eqs v st).
Proof. apply steady_same; reflexivity. Qed.

Lemma steady_set_m_branch_variable_head (v : nat) st :
  steady st (set_m_branch_variable_head v st).
Proof. apply steady_same; reflexivity. Qed.

Lemma steady_set_m_axioms_head (v : nat) st : steady st (set_m_axioms_head v st).
Proof. apply steady_same; reflexivity. Qed.

Lemma steady_set_m_rep (r : solution_map.t) st : steady st (set_m_rep r st).
Proof. apply steady_same; reflexivity. Qed.

Lemma steady_set_incomplete (term : expr) st : steady st (set_incomplete term st).
Proof.
  unfold set_incomplete. destruct (m_incomplete st); apply steady_same; reflexivity.
Qed.

Lemma steady_create_axiom (e : expr) st : steady st (create_axiom e st).
Proof. apply steady_same; reflexivity. Qed.

Lemma steady_push_ineq (e : expr) st :
  steady st (set_m_ineqs (m_ineqs st ++ [e]) (trail_push push_back_vector_ineqs st)).
Proof. apply steady_same; reflexivity. Qed.

Lemma steady_incr_num_reductions st : steady st (incr_num_reductions st).
Proof.
  split; [apply excl_grows_refl|]. cbn. split; reflexivity.
Qed.

Lemma steady_exclude_update (e r : expr) st :
  steady st (set_m_exclude (exclusion_table.update e r (m_exclude st)) st).
Proof. split; [exists [(e, r)]; reflexivity|]. cbn. auto. Qed.

Lemma canon_step_steady st st' : canon_step st st' -> steady st st'.
Proof.
  intros [Ho _]. unfold outside_rep in Ho.
  injection Ho as Ex _ _ _ _ _ _ _ Em Es _.
  apply steady_same; assumption.
Qed.

End Steady.

Ltac steady_one :=
  first
    [ apply steady_on_ctx | apply steady_set_ctx | apply steady_set_m_eqs 
    | apply steady_set_m_branch_variable_head | apply steady_set_m_rep
    | apply steady_set_m_axioms_head | apply steady_set_incomplete | apply steady_create_axiom
    | apply steady_push_ineq ].

Ltac steady_chain :=
  repeat first
    [ apply steady_refl
    | assumption
    | steady_one
    | eapply steady_trans; [|steady_one] ].

Section OpsSteady.
Context {C : Type} `{SmtContext C} `{Rewriter} `{AstIds}.
Implicit Type st : theory_seq C.

Lemma steady_propagate_lit (dep : enode_pair_dependency) (lit : literal) st :
  steady st (propagate_lit dep lit st).
Proof. unfold propagate_lit. steady_chain. Qed.

Lemma steady_set_conflict (dep : enode_pair_dependency) st : steady st (set_conflict dep st).
Proof. unfold set_conflict. steady_chain. Qed.

Lemma steady_propagate_eq (dep : enode_pair_dependency) (n1 n2 : enode) st :
  steady st (propagate_eq dep n1 n2 st).
Proof. unfold propagate_eq. steady_chain. Qed.

Lemma steady_propagate_eq_lit (v : bool_var) (e1 e2 : expr) st :
  steady st (propagate_eq_lit v e1 e2 st).
Proof. unfold propagate_eq_lit. steady_chain. Qed.

Lemma steady_canonize (fuel : nat) (e : expr) (eqs : enode_pair_dependency) st
    (r : expr) (eqs' : enode_pair_dependency) st' :
  canonize fuel e eqs st = Some (r, eqs', st') -> steady st st'.
Proof. intros E. eapply canon_step_steady, canonize_canon_step, E. Qed.

Lemma steady_check_ineqs_loop (fuel : nat) (ineqs : list expr) st (b : bool) st' :
  check_ineqs_loop fuel ineqs st = Some (b, st') -> steady st st'.
Proof.
  revert st. induction ineqs as [|a ineqs IH]; intros st E; cbn [check_ineqs_loop] in E.
  - injection E as <- <-. apply steady_refl.
  - destruct (canonize fuel a None st) as [[[b0 eqs] st0]|] eqn:Ec; [|discriminate].
    cbn [mbind option_bind] in E. apply steady_canonize in Ec.
    eapply steady_trans; [exact Ec|].
    destruct (is_true b0).
    + injection E as <- <-. eapply steady_trans; [|apply steady_propagate_lit]. steady_chain.
    + eapply IH, E.
Qed.

Lemma steady_assume_equality (l r : expr) st (b : bool) st' :
  assume_equality l r st = (b, st') -> steady st st'.
Proof.
  unfold assume_equality. destruct (exclusion_table.contains l r (m_exclude st)).
  - intros [= <- <-]. apply steady_refl.
  - intros [= <- <-]. destruct (ctx_e_internalized (ctx st) r); steady_chain.
Qed.

Lemma steady_find_branch_candidate (l : expr) (rs : list expr) st (b : bool) st' :
  find_branch_candidate l rs st = (b, st') -> steady st st'.
Proof.
  destruct b.
  - intros E. apply find_branch_candidate_true in E as [c ->]. unfold proposed.
    destruct (ctx_e_internalized (ctx st) c); steady_chain.
  - intros E. apply find_branch_candidate_false in E. subst. apply steady_refl.
Qed.

Lemma steady_branch_variable_loop (sz : nat) (idx : list nat) st (b : bool) st' :
  branch_variable_loop sz idx st = (b, st') -> steady st st'.
Proof.
  revert st. induction idx as [|i idx IH]; intros st E; cbn [branch_variable_loop] in E.
  - injection E as <- <-. apply steady_refl.
  - destruct (m_eqs st !! ((i + m_branch_variable_head st) mod sz)) as [[[l r] d]|];
      [|injection E as <- <-; apply steady_refl].
    destruct (match get_concat l with
              | [] => (false, st)
              | l0 :: _ => find_branch_candidate l0 (get_concat r) st
              end) as [b1 st1] eqn:E1.
    assert (X1 : steady st st1).
    { destruct (get_concat l); [injection E1 as <- <-; apply steady_refl|].
      eapply steady_find_branch_candidate, E1. }
    destruct b1; [injection E as <- <-; steady_chain|].
    destruct (match get_concat r with
              | [] => (false, st1)
              | r0 :: _ => find_branch_candidate r0 (get_concat l) st1
              end) as [b2 st2] eqn:E2.
    assert (X2 : steady st1 st2).
    { destruct (get_concat r); [injection E2 as <- <-; apply steady_refl|].
      eapply steady_find_branch_candidate, E2. }
    destruct b2.
    + injection E as <- <-. eapply steady_trans; [exact X1|]. steady_chain.
    + eapply steady_trans; [exact X1|]. eapply steady_trans; [exact X2|]. eapply IH, E.
Qed.

Lemma steady_branch_variable st (b : bool) st' : branch_variable st = (b, st') -> steady st st'.
Proof. apply steady_branch_variable_loop. Qed.

Lemma steady_simplify_eq (fuel : nat) (l r : expr) (deps : enode_pair_dependency) st
    (b : bool) st' :
  simplify_eq fuel l r deps st = Some (b, st') -> steady st st'.
Proof.
  unfold simplify_eq. intros E.
  destruct (canonize fuel l deps st) as [[[lh d1] st1]|] eqn:E1; [|discriminate].
  cbn [mbind option_bind] in E.
  destruct (canonize fuel r d1 st1) as [[[rh d2] st2]|] eqn:E2; [|discriminate].
  cbn [mbind option_bind] in E.
  apply steady_canonize in E1. apply steady_canonize in E2.
  eapply steady_trans; [exact E1|]. eapply steady_trans; [exact E2|].
  destruct (reduce_eq lh rh) as [[lhs rhs]|].
  - destruct (_ && _); [injection E as <- <-; apply steady_refl|].
    destruct (eq_rows lhs rhs d2); [|discriminate].
    cbn [mbind option_bind] in E. injection E as <- <-. steady_chain.
  - injection E as <- <-. apply steady_set_conflict.
Qed.

Lemma steady_add_solution (l r : expr) (deps : enode_pair_dependency) st :
  steady st (add_solution l r deps st).
Proof.
  unfold add_solution.
  assert (X : steady st (set_m_rep (solution_map.update l r deps (m_rep st)) st))
    by apply steady_set_m_rep.
  destruct (_ && _); [|exact X].
  eapply steady_trans; [exact X|]. apply steady_propagate_eq.
Qed.

Lemma steady_solve_unit_eq (fuel : nat) (l r : expr) (deps : enode_pair_dependency) st
    (b : bool) st' :
  solve_unit_eq fuel l r deps st = Some (b, st') -> steady st st'.
Proof.
  unfold solve_unit_eq. intros E.
  destruct (canonize fuel l deps st) as [[[lh d1] st1]|] eqn:E1; [|discriminate].
  cbn [mbind option_bind] in E.
  destruct (canonize fuel r d1 st1) as [[[rh d2] st2]|] eqn:E2; [|discriminate].
  cbn [mbind option_bind] in E.
  apply steady_canonize in E1. apply steady_canonize in E2.
  eapply steady_trans; [exact E1|]. eapply steady_trans; [exact E2|].
  destruct (bool_decide (lh = rh)); [injection E as <- <-; apply steady_refl|].
  destruct (is_var lh && negb (occurs lh rh));
    [injection E as <- <-; apply steady_add_solution|].
  destruct (is_var rh && negb (occurs rh lh));
    injection E as <- <-; [apply steady_add_solution|apply steady_refl].
Qed.

Lemma steady_remove_eq (i : nat) st (i' : nat) st' :
  remove_eq i st = Some (i', st') -> steady st st'.
Proof.
  unfold remove_eq. destruct (bool_decide _).
  - destruct (m_eqs st !! _); [|discriminate]. cbn [mbind option_bind].
    intros [= <- <-]. eapply steady_trans; [|apply steady_incr_num_reductions]. steady_chain.
  - intros [= <- <-]. steady_chain.
Qed.

Lemma steady_pre_process_eqs_loop (fuel : nat) (simplify_or_solve : bool) (i : nat)
    (change : bool) st (b : bool) st' :
  pre_process_eqs_loop fuel simplify_or_solve i change st = Some (b, st') -> steady st st'.
Proof.
  revert i change st. induction fuel as [|fuel IH]; intros i change st E;
    cbn [pre_process_eqs_loop] in E.
  - destruct (ctx_inconsistent (ctx st)); [injection E as <- <-; apply steady_refl|].
    destruct (m_eqs st !! i) as [[[l r] d]|]; [discriminate|].
    injection E as <- <-; apply steady_refl.
  - destruct (ctx_inconsistent (ctx st)); [injection E as <- <-; apply steady_refl|].
    destruct (m_eqs st !! i) as [[[l r] d]|]; [|injection E as <- <-; apply steady_refl].
    destruct (if simplify_or_solve then simplify_eq fuel l r d st
              else solve_unit_eq fuel l r d st) as [[b1 st1]|] eqn:E1; [|discriminate].
    cbn [mbind option_bind] in E.
    assert (X1 : steady st st1).
    { destruct simplify_or_solve;
        [eapply steady_simplify_eq, E1|eapply steady_solve_unit_eq, E1]. }
    eapply steady_trans; [exact X1|].
    destruct b1.
    + destruct (remove_eq i st1) as [[i2 st2]|] eqn:E2; [|discriminate].
      cbn [mbind option_bind] in E. apply steady_remove_eq in E2.
      eapply steady_trans; [exact E2|]. eapply IH, E.
    + eapply IH, E.
Qed.

Lemma steady_solve_loop (fuel : nat) (change : bool) st (b : bool) st' :
  solve_loop fuel change st = Some (b, st') -> steady st st'.
Proof.
  revert change st. induction fuel as [|fuel IH]; intros change st E; cbn [solve_loop] in E.
  - destruct (ctx_inconsistent (ctx st)); [injection E as <- <-; apply steady_refl|discriminate].
  - destruct (ctx_inconsistent (ctx st)); [injection E as <- <-; apply steady_refl|].
    destruct (solve_basic_eqs fuel st) as [[b1 st1]|] eqn:E1; [|discriminate].
    cbn [mbind option_bind] in E. apply steady_pre_process_eqs_loop in E1.
    eapply steady_trans; [exact E1|].
    destruct b1; [|injection E as <- <-; apply steady_refl].
    destruct (simplify_eqs fuel st1) as [[b2 st2]|] eqn:E2; [|discriminate].
    cbn [mbind option_bind] in E. apply steady_pre_process_eqs_loop in E2.
    eapply steady_trans; [exact E2|]. eapply IH, E.
Qed.

Lemma steady_simplify_and_solve_eqs (fuel : nat) st (b : bool) st' :
  simplify_and_solve_eqs fuel st = Some (b, st') -> steady st st'.
Proof.
  unfold simplify_and_solve_eqs. intros E.
  destruct (simplify_eqs fuel st) as [[b1 st1]|] eqn:E1; [|discriminate].
  cbn [mbind option_bind] in E. apply steady_pre_process_eqs_loop in E1.
  eapply steady_trans; [exact E1|]. eapply steady_solve_loop, E.
Qed.

Lemma steady_final_check_eh (fuel : nat) st (status : final_check_status) st' :
  final_check_eh fuel st = Some (status, st') -> steady st st'.
Proof.
  unfold final_check_eh. intros E.
  destruct (check_ineqs fuel st) as [[ok st1]|] eqn:E1; [|discriminate].
  cbn [mbind option_bind] in E. apply steady_check_ineqs_loop in E1.
  eapply steady_trans; [exact E1|].
  destruct ok; cbn [negb] in E; [|injection E as <- <-; apply steady_refl].
  destruct (simplify_and_solve_eqs fuel st1) as [[change st2]|] eqn:E2; [|discriminate].
  cbn [mbind option_bind] in E. apply steady_simplify_and_solve_eqs in E2.
  eapply steady_trans; [exact E2|].
  destruct change; [injection E as <- <-; apply steady_refl|].
  destruct (ctx_inconsistent (ctx st2)); [injection E as <- <-; apply steady_refl|].
  destruct (branch_variable st2) as [b st3] eqn:E3. apply steady_branch_variable in E3.
  eapply steady_trans; [exact E3|].
  destruct b; [injection E as <- <-; apply steady_refl|].
  unfold split_variable in E.
  destruct (ctx_inconsistent (ctx st3)); [injection E as <- <-; apply steady_refl|].
  destruct (_ || _); injection E as <- <-; apply steady_refl.
Qed.

Lemma steady_mk_var (n : enode) st : steady st (mk_var n st).
Proof. unfold mk_var. destruct (ctx_is_attached_to_var (ctx st) n); steady_chain. Qed.

Lemma steady_internalize_term (term : expr) st : steady st (internalize_term term st).2.
Proof.
  unfold internalize_term. cbn [snd].
  set (st1 := foldl internalize_arg st match term with app _ args => args end).
  assert (X1 : steady st st1).
  { subst st1. generalize (match term with app _ args => args end). intros args.
    revert st. induction args as [|a args IH]; intros st; [apply steady_refl|].
    cbn [foldl]. eapply steady_trans; [|apply IH].
    unfold internalize_arg. destruct (ctx_e_internalized _ a).
    - eapply steady_trans; [|apply steady_mk_var]. steady_chain.
    - steady_chain. }
  clearbody st1.
  set (st2 := if is_bool term then _ else _).
  assert (X2 : steady st1 st2).
  { subst st2. destruct (is_bool term); [steady_chain|].
    eapply steady_trans; [|apply steady_mk_var].
    destruct (ctx_e_internalized (ctx st1) term); steady_chain. }
  clearbody st2. eapply steady_trans; [exact X1|]. eapply steady_trans; [exact X2|].
  destruct (negb (supported_head term)); steady_chain.
Qed.

Lemma steady_assert_axiom (e : expr) st : steady st (assert_axiom e st).
Proof. unfold assert_axiom. destruct (is_true e); steady_chain. Qed.

Lemma steady_propagate st : steady st (propagate st).
Proof.
  unfold propagate. generalize (drop (m_axioms_head st) (m_axioms st)). intros pending.
  revert st. induction pending as [|e pending IH]; intros st; cbn [propagate_loop];
    [apply steady_refl|].
  destruct (ctx_inconsistent (ctx st)); [apply steady_refl|].
  eapply steady_trans; [|apply IH]. eapply steady_trans; [apply steady_assert_axiom|]. steady_chain.
Qed.

Lemma steady_add_len_concat_axiom (c : expr) st st' :
  add_len_concat_axiom c st = Some st' -> steady st st'.
Proof.
  unfold add_len_concat_axiom. destruct (is_concat c) as [[a b]|]; [|discriminate].
  cbn [mbind option_bind]. intros [= <-]. steady_chain.
Qed.

Lemma steady_add_indexof_axiom (i : expr) st st' :
  add_indexof_axiom i st = Some st' -> steady st st'.
Proof.
  unfold add_indexof_axiom. destruct (is_index i) as [[s t]|]; [|discriminate].
  cbn [mbind option_bind]. intros [= <-]. steady_chain.
Qed.

Lemma steady_add_replace_axiom (r : expr) st st' :
  add_replace_axiom r st = Some st' -> steady st st'.
Proof.
  unfold add_replace_axiom. destruct (is_replace r) as [[[a s] t]|]; [|discriminate].
  cbn [mbind option_bind]. intros [= <-]. steady_chain.
Qed.

Lemma steady_add_len_axiom (n : expr) st st' : add_len_axiom n st = Some st' -> steady st st'.
Proof.
  unfold add_len_axiom. destruct (is_length n) as [x|]; [|discriminate].
  cbn [mbind option_bind]. intros [= <-]. destruct (bool_decide _); steady_chain.
Qed.

Lemma steady_relevant_eh (n : expr) st st' : relevant_eh n st = Some st' -> steady st st'.
Proof.
  unfold relevant_eh. destruct (is_seq_app OP_SEQ_LENGTH n).
  - apply steady_add_len_axiom.
  - intros [= <-]. apply steady_refl.
Qed.

Lemma steady_assign_eq (v : bool_var) (is_true : bool) st st' :
  assign_eq v is_true st = Some st' -> steady st st'.
Proof.
  unfold assign_eq. destruct is_true.
  - destruct (is_prefix v) as [[e1 e2]|]; [intros [= <-]; apply steady_propagate_eq_lit|].
    destruct (is_suffix v) as [[e1 e2]|]; [intros [= <-]; apply steady_propagate_eq_lit|].
    destruct (is_contains v) as [[e1 e2]|]; [intros [= <-]; apply steady_propagate_eq_lit|].
    discriminate.
  - intros [= <-]. apply steady_push_ineq.
Qed.

Lemma steady_new_eq_eh (v1 v2 : theory_var) st st' : new_eq_eh v1 v2 st = Some st' -> steady st st'.
Proof.
  unfold new_eq_eh. destruct (bool_decide _); [|intros [= <-]; apply steady_refl].
  rewrite new_eq_len_concat_inert. cbn [mbind option_bind]. rewrite new_eq_len_concat_inert.
  intros [= <-]. steady_chain.
Qed.

Lemma steady_new_diseq_eh (v1 v2 : theory_var) st : steady st (new_diseq_eh v1 v2 st).
Proof.
  unfold new_diseq_eh. eapply steady_trans; [apply steady_push_ineq|].
  apply steady_exclude_update.
Qed.

Lemma steady_mk_value (fuel : nat) (n : enode) st (e : expr) st' :
  mk_value fuel n st = Some (e, st') -> steady st st'.
Proof.
  unfold mk_value. intros E.
  destruct (canonize fuel n None (set_m_model_completion true st)) as [[[e0 d0] st0]|] eqn:Ec;
    [|discriminate].
  cbn [mbind option_bind] in E. injection E as <- <-.
  apply canonize_canon_step in Ec as [Ho _]. unfold outside_rep in Ho.
  injection Ho as Ex _ _ _ _ _ _ _ Em Es _. cbn in Ex, Em, Es.
  split; [cbn; rewrite Ex; apply excl_grows_refl|]. cbn. rewrite Es. auto.
Qed.

Lemma steady_run_op (fuel : nat) (o : operation) st st' : run_op fuel o st = Some st' -> steady st st'.
Proof.
  destruct o; cbn [run_op].
  - intros [= <-]. apply steady_internalize_term.
  - apply steady_new_eq_eh.
  - intros [= <-]. apply steady_new_diseq_eh.
  - apply steady_assign_eq.
  - intros [= <-]. apply steady_propagate.
  - destruct (final_check_eh fuel st) as [[status st0]|] eqn:E; [|discriminate].
    cbn. intros [= <-]. eapply steady_final_check_eh, E.
  - apply steady_relevant_eh.
  - intros [= <-]. apply steady_refl.
  - destruct (mk_value fuel n st) as [[e st0]|] eqn:E; [|discriminate].
    cbn. intros [= <-]. eapply steady_mk_value, E.
  - intros [= <-]. apply steady_set_m_rep.
  - destruct (solution_map.find fuel e (m_rep st)) as [[[r d] rep]|] eqn:E; [|discriminate].
    cbn [mbind option_bind]. intros [= <-]. apply steady_set_m_rep.
  - intros [= <-]. apply steady_exclude_update.
  - intros [= <-]. apply steady_set_incomplete.
  - intros [= <-]. apply steady_create_axiom.
  - apply steady_add_indexof_axiom.
  - apply steady_add_replace_axiom.
  - apply steady_add_len_concat_axiom.
  - intros [= <-]. apply steady_add_solution.
  - intros [= <-]. apply steady_set_m_eqs.
  - destruct (remove_eq i st) as [[i' st0]|] eqn:E; [|discriminate].
    cbn. intros [= <-]. eapply steady_remove_eq, E.
Qed.

End OpsSteady.

(** *** Marks of the scoped stores *)

Lemma ascending_cons (a : nat) (l : list nat) :
  ascending (a :: l) = true <-> Forall (le a) l /\ ascending l = true.
Proof.
  revert a. induction l as [|b l IH]; intros a.
  - cbn. split; auto.
  - change (ascending (a :: b :: l)) with ((a <=? b) && ascending (b :: l)).
    rewrite andb_true_iff, Nat.leb_le. split.
    + intros [Hab Hs]. split; [|exact Hs]. constructor; [exact Hab|].
      apply IH in Hs as [Hf _]. eapply Forall_impl; [exact Hf|]. cbn. intros; lia.
    + intros [Hf Hs]. split; [|exact Hs]. inversion Hf; assumption.
Qed.

Lemma ascending_lookup (l : list nat) (i j a b : nat) :
  ascending l = true -> i <= j -> l !! i = Some a -> l !! j = Some b -> a <= b.
Proof.
  revert i j. induction l as [|c l IH]; intros i j Hs Hij Hi Hj; [discriminate|].
  apply ascending_cons in Hs as [Hf Hs].
  destruct i as [|i], j as [|j]; cbn in Hi, Hj; try lia.
  - assert (a = b) by congruence. lia.
  - injection Hi as <-. rewrite Forall_forall in Hf. apply Hf.
    eapply list_elem_of_lookup_2, Hj.
  - eapply (IH i j); [exact Hs|lia|exact Hi|exact Hj].
Qed.

Lemma ascending_snoc (l : list nat) (n : nat) :
  ascending (l ++ [n]) = true <-> ascending l = true /\ Forall (fun m => m <= n) l.
Proof.
  induction l as [|a l IH]; [cbn; split; auto|].
  rewrite <- app_comm_cons, !ascending_cons, IH, Forall_app, !Forall_cons, !Forall_nil.
  tauto.
Qed.

Lemma ascending_take (l : list nat) (i : nat) :
  ascending l = true -> ascending (take i l) = true.
Proof.
  revert i. induction l as [|a l IH]; intros i Hs; [destruct i; reflexivity|].
  destruct i as [|i]; [reflexivity|]. cbn [take].
  apply ascending_cons in Hs as [Hf Hs]. apply ascending_cons.
  split; [apply Forall_take, Hf|apply IH, Hs].
Qed.

Lemma marks_ok_grow (l : list nat) (n n' : nat) :
  marks_ok l n = true -> n <= n' -> marks_ok l n' = true.
Proof.
  unfold marks_ok. rewrite !ascending_snoc. intros [Hs Hf] Hn. split; [exact Hs|].
  eapply Forall_impl; [exact Hf|]. cbn. intros; lia.
Qed.

Lemma marks_ok_push (l : list nat) (n n' : nat) :
  marks_ok l n = true -> n <= n' -> marks_ok (l ++ [n]) n' = true.
Proof.
  unfold marks_ok. rewrite !ascending_snoc. intros [Hs Hf] Hn.
  rewrite Forall_app, Forall_singleton. repeat split; try assumption; try lia.
  eapply Forall_impl; [exact Hf|]. cbn. intros; lia.
Qed.

Lemma marks_ok_bound (l : list nat) (n i m : nat) :
  marks_ok l n = true -> l !! i = Some m -> m <= n.
Proof.
  unfold marks_ok. rewrite ascending_snoc. intros [_ Hf] Hi.
  rewrite Forall_forall in Hf. apply Hf. eapply list_elem_of_lookup_2, Hi.
Qed.

Lemma marks_ok_pop (l : list nat) (n i m : nat) :
  marks_ok l n = true -> l !! i = Some m -> marks_ok (take i l) m = true.
Proof.
  unfold marks_ok. rewrite !ascending_snoc. intros [Hs _] Hi.
  split; [apply ascending_take, Hs|].
  apply Forall_forall. intros x Hx. apply list_elem_of_lookup in Hx as [j Hj].
  apply lookup_take_Some in Hj as [Hj Hlt].
  eapply (ascending_lookup l j i); [exact Hs|lia|exact Hj|exact Hi].
Qed.

Lemma marks_ok_le (l : list nat) (n i j a b : nat) :
  marks_ok l n = true -> i <= j -> l !! i = Some a -> l !! j = Some b -> a <= b.
Proof.
  unfold marks_ok. rewrite ascending_snoc. intros [Hs _]. apply ascending_lookup, Hs.
Qed.

(** *** Popping several scopes *)

Lemma rep_pop_scope_some (n : nat) (s : solution_map.t) :
  0 < n -> n <= length (solution_map.m_limit s) ->
  exists a,
    solution_map.m_limit s !! (length (solution_map.m_limit s) - n) = Some a /\
    solution_map.pop_scope n s =
      Some (solution_map.mk
              (foldr solution_map.undo (solution_map.m_map s) (drop a (solution_map.m_updates s)))
              (take a (solution_map.m_updates s))
              (take (length (solution_map.m_limit s) - n) (solution_map.m_limit s))).
Proof.
  intros Hn Hle.
  destruct (lookup_lt_is_Some_2 (solution_map.m_limit s)
              (length (solution_map.m_limit s) - n)) as [a Ha]; [lia|].
  exists a. split; [exact Ha|]. unfold solution_map.pop_scope.
  replace (n =? 0) with false by (symmetry; apply Nat.eqb_neq; lia).
  replace (length (solution_map.m_limit s) <? n) with false
    by (symmetry; apply Nat.ltb_ge; lia).
  rewrite Ha. reflexivity.
Qed.

Lemma rep_pop_scope_none (n : nat) (s : solution_map.t) :
  length (solution_map.m_limit s) < n -> solution_map.pop_scope n s = None.
Proof.
  intros Hlt. unfold solution_map.pop_scope.
  replace (n =? 0) with false by (symmetry; apply Nat.eqb_neq; lia).
  replace (length (solution_map.m_limit s) <? n) with true
    by (symmetry; apply Nat.ltb_lt; lia).
  reflexivity.
Qed.

Lemma excl_pop_scope_some `{AstIds} (n : nat) (s : exclusion_table.t) :
  0 < n -> n <= length (exclusion_table.m_limit s) ->
  exists b,
    exclusion_table.m_limit s !! (length (exclusion_table.m_limit s) - n) = Some b /\
    exclusion_table.pop_scope n s =
      Some (exclusion_table.mk
              (exclusion_table.m_table s ∖ list_to_set (drop b (exclusion_table.m_pairs s)))
              (take b (exclusion_table.m_pairs s))
              (take (length (exclusion_table.m_limit s) - n) (exclusion_table.m_limit s))).
Proof.
  intros Hn Hle.
  destruct (lookup_lt_is_Some_2 (exclusion_table.m_limit s)
              (length (exclusion_table.m_limit s) - n)) as [b Hb]; [lia|].
  exists b. split; [exact Hb|]. unfold exclusion_table.pop_scope.
  replace (n =? 0) with false by (symmetry; apply Nat.eqb_neq; lia).
  replace (length (exclusion_table.m_limit s) <? n) with false
    by (symmetry; apply Nat.ltb_ge; lia).
  rewrite Hb. cbn [mbind option_bind]. rewrite foldl_difference. reflexivity.
Qed.

Lemma excl_pop_scope_none `{AstIds} (n : nat) (s : exclusion_table.t) :
  length (exclusion_table.m_limit s) < n -> exclusion_table.pop_scope n s = None.
Proof.
  intros Hlt. unfold exclusion_table.pop_scope.
  replace (n =? 0) with false by (symmetry; apply Nat.eqb_neq; lia).
  replace (length (exclusion_table.m_limit s) <? n) with true
    by (symmetry; apply Nat.ltb_lt; lia).
  reflexivity.
Qed.

Section PopFrames.
Context {C : Type}.
Implicit Type st : theory_seq C.

Lemma theory_seq_eq st st' :
  m_rep st = m_rep st' -> m_exclude st = m_exclude st' -> m_eqs st = m_eqs st' ->
  m_saved st = m_saved st' -> m_ineqs st = m_ineqs st' -> m_axioms st = m_axioms st' ->
  m_axioms_head st = m_axioms_head st' ->
  m_branch_variable_head st = m_branch_variable_head st' ->
  m_incomplete st = m_incomplete st' -> m_model_completion st = m_model_completion st' ->
  m_stats st = m_stats st' -> m_trail_stack st = m_trail_stack st' -> ctx st = ctx st' ->
  st = st'.
Proof. destruct st, st'; cbn; intros; subst; reflexivity. Qed.

Lemma pop_frames_some (n : nat) st :
  0 < n -> n <= length (m_saved st) ->
  exists fr,
    m_saved st !! (n - 1) = Some fr /\
    pop_frames n st = Some (set_m_saved (drop n (m_saved st)) (set_m_eqs fr st)).
Proof.
  revert st. induction n as [|n IH]; intros st Hn Hle; [lia|].
  cbn [pop_frames]. destruct (m_saved st) as [|fr saved] eqn:Es; [cbn in Hle; lia|].
  destruct n as [|n].
  - exists fr. split; [reflexivity|]. cbn. rewrite drop_0. reflexivity.
  - destruct (IH (set_m_saved saved (set_m_eqs fr st))) as (fr' & Hfr & Hp);
      [lia|cbn in *; lia|].
    cbn in Hfr. exists fr'. split.
    + cbn. rewrite Nat.sub_0_r in *. exact Hfr.
    + rewrite Hp. reflexivity.
Qed.

Lemma pop_frames_none (n : nat) st : length (m_saved st) < n -> pop_frames n st = None.
Proof.
  revert st. induction n as [|n IH]; intros st Hlt; [lia|].
  cbn [pop_frames]. destruct (m_saved st) as [|fr saved] eqn:Es; [reflexivity|].
  apply IH. cbn in *. lia.
Qed.

End PopFrames.

Section PopScopes.
Context {C : Type} `{SmtContext C} `{Rewriter} `{AstIds}.
Implicit Type st : theory_seq C.

(** The state [pop_scope_eh(n)] leaves when [n] scopes are open in every
    scoped store. *)
Lemma pop_scope_eh_some (n : nat) st :
  well_scoped st -> 0 < n -> n <= length (m_saved st) ->
  exists a b c fr,
    solution_map.m_limit (m_rep st) !! (length (m_saved st) - n) = Some a /\
    exclusion_table.m_limit (m_exclude st) !! (length (m_saved st) - n) = Some b /\
    ts_scopes (m_trail_stack st) !! (length (m_saved st) - n) = Some c /\
    m_saved st !! (n - 1) = Some fr /\
    let st1 := foldr undo_trail st (drop c (ts_trail (m_trail_stack st))) in
    pop_scope_eh n st =
      Some (mk_theory_seq C
              (solution_map.mk
                 (foldr solution_map.undo (solution_map.m_map (m_rep st))
                    (drop a (solution_map.m_updates (m_rep st))))
                 (take a (solution_map.m_updates (m_rep st)))
                 (take (length (m_saved st) - n) (solution_map.m_limit (m_rep st))))
              (exclusion_table.mk
                 (exclusion_table.m_table (m_exclude st)
                    ∖ list_to_set (drop b (exclusion_table.m_pairs (m_exclude st))))
                 (take b (exclusion_table.m_pairs (m_exclude st)))
                 (take (length (m_saved st) - n) (exclusion_table.m_limit (m_exclude st))))
              fr (drop n (m_saved st)) (m_ineqs st1) (m_axioms st1) (m_axioms_head st1)
              (m_branch_variable_head st) (m_incomplete st1) (m_model_completion st)
              (m_stats st)
              (mk_trail_stack (take c (ts_trail (m_trail_stack st)))
                 (take (length (m_saved st) - n) (ts_scopes (m_trail_stack st))))
              (theory_pop_scope_eh n (ctx st))).
Proof.
  intros (Hd1 & Hd2 & Hd3 & _) Hn Hle.
  destruct (rep_pop_scope_some n (m_rep st)) as (a & Ha & Hpa); [lia|lia|].
  destruct (excl_pop_scope_some n (m_exclude st)) as (b & Hb & Hpb); [lia|lia|].
  destruct (lookup_lt_is_Some_2 (ts_scopes (m_trail_stack st))
              (length (ts_scopes (m_trail_stack st)) - n)) as [c Hc]; [lia|].
  destruct (foldr_undo_trail_rest (drop c (ts_trail (m_trail_stack st))) st)
    as (Er & Ee & Eq & Esv & Ets & Ec & Est & Eb & Em).
  cbv zeta in Er, Ee, Eq, Esv, Ets, Ec, Est, Eb, Em.
  remember (foldr undo_trail st (drop c (ts_trail (m_trail_stack st)))) as st1 eqn:Est1.
  destruct (pop_frames_some n
              (set_m_exclude
                 (exclusion_table.mk
                    (exclusion_table.m_table (m_exclude st)
                       ∖ list_to_set (drop b (exclusion_table.m_pairs (m_exclude st))))
                    (take b (exclusion_table.m_pairs (m_exclude st)))
                    (take (length (m_saved st) - n) (exclusion_table.m_limit (m_exclude st))))
                 (set_m_rep
                    (solution_map.mk
                       (foldr solution_map.undo (solution_map.m_map (m_rep st))
                          (drop a (solution_map.m_updates (m_rep st))))
                       (take a (solution_map.m_updates (m_rep st)))
                       (take (length (m_saved st) - n) (solution_map.m_limit (m_rep st))))
                    (on_ctx (theory_pop_scope_eh n)
                       (set_m_trail_stack
                          (mk_trail_stack (take c (ts_trail (m_trail_stack st)))
                             (take (length (m_saved st) - n) (ts_scopes (m_trail_stack st))))
                          st1)))))
    as (fr & Hfr & Hpf); [lia|cbn; rewrite Esv; lia|].
  cbn in Hfr. rewrite Esv in Hfr.
  rewrite Hd1 in Ha, Hpa. rewrite Hd2 in Hb, Hpb. rewrite Hd3 in Hc.
  exists a, b, c, fr. split; [exact Ha|]. split; [exact Hb|]. split; [exact Hc|].
  split; [exact Hfr|]. cbv zeta. rewrite <- Est1.
  unfold pop_scope_eh, trail_pop_scope.
  replace (n =? 0) with false by (symmetry; apply Nat.eqb_neq; lia).
  replace (length (ts_scopes (m_trail_stack st)) <? n) with false
    by (symmetry; apply Nat.ltb_ge; lia).
  rewrite Hd3, Hc. cbn [mbind option_bind]. rewrite <- Est1.
  change (m_rep (on_ctx _ (set_m_trail_stack _ st1))) with (m_rep st1).
  rewrite Er, Hpa. cbn [mbind option_bind].
  change (m_exclude (set_m_rep _ (on_ctx _ (set_m_trail_stack _ st1)))) with (m_exclude st1).
  rewrite Ee, Hpb. cbn [mbind option_bind].
  rewrite Hpf. f_equal. apply theory_seq_eq; cbn; try reflexivity; congruence.
Qed.

Lemma pop_scope_eh_none (n : nat) st :
  well_scoped st -> length (m_saved st) < n -> pop_scope_eh n st = None.
Proof.
  intros (Hd1 & Hd2 & Hd3 & _) Hlt. unfold pop_scope_eh, trail_pop_scope.
  replace (n =? 0) with false by (symmetry; apply Nat.eqb_neq; lia).
  replace (length (ts_scopes (m_trail_stack st)) <? n) with true
    by (symmetry; apply Nat.ltb_lt; lia).
  reflexivity.
Qed.

Lemma pop_scope_eh_0 st : pop_scope_eh 0 st = Some (on_ctx (theory_pop_scope_eh 0) st).
Proof.
  unfold pop_scope_eh, trail_pop_scope, solution_map.pop_scope, exclusion_table.pop_scope.
  cbn. destruct st as [[] []]; reflexivity.
Qed.

End PopScopes.

Section ScopeInvariant.
Context {C : Type} `{SmtContext C} `{Rewriter} `{AstIds}.
Implicit Type st : theory_seq C.

Lemma well_scoped_init (c : C) : well_scoped (init c).
Proof. repeat split. Qed.

Lemma well_scoped_ext st st' : well_scoped st -> ext st st' -> well_scoped st'.
Proof.
  intros (Hd1 & Hd2 & Hd3 & Hm1 & Hm2 & Hm3)
         ([Hl1 (suf1 & Hu1 & _)] & [Hl2 (suf2 & Hu2 & _)] & Hs & [Hl3 (suf3 & Hu3 & _)] & _).
  unfold well_scoped. rewrite Hl1, Hl2, Hl3, Hs, Hu1, Hu2, Hu3, !length_app.
  repeat split; try assumption; eapply marks_ok_grow; try eassumption; lia.
Qed.

Lemma well_scoped_push st : well_scoped st -> well_scoped (push_scope_eh st).
Proof.
  intros (Hd1 & Hd2 & Hd3 & Hm1 & Hm2 & Hm3). unfold well_scoped. cbn.
  rewrite !length_app. cbn. repeat split; try lia.
  - apply marks_ok_push; [exact Hm1|lia].
  - apply marks_ok_push; [exact Hm2|lia].
  - apply marks_ok_push; [exact Hm3|lia].
Qed.

Lemma well_scoped_set_ctx (c : C) st : well_scoped st -> well_scoped (set_ctx c st).
Proof. intros Hw. exact Hw. Qed.

Lemma well_scoped_pop (n : nat) st st' :
  well_scoped st -> pop_scope_eh n st = Some st' ->
  well_scoped st' /\ length (m_saved st') = length (m_saved st) - n.
Proof.
  intros Hw Hp. destruct (decide (n = 0)) as [->|Hn].
  - rewrite pop_scope_eh_0 in Hp. injection Hp as <-. split; [exact Hw|cbn; lia].
  - destruct (decide (n <= length (m_saved st))) as [Hle|Hgt];
      [|rewrite pop_scope_eh_none in Hp by (assumption || lia); discriminate].
    destruct (pop_scope_eh_some n st Hw) as (a & b & c & fr & Ha & Hb & Hc & _ & Hp');
      [lia|exact Hle|].
    cbv zeta in Hp'. rewrite Hp' in Hp. injection Hp as <-.
    destruct Hw as (Hd1 & Hd2 & Hd3 & Hm1 & Hm2 & Hm3).
    pose proof (marks_ok_bound _ _ _ _ Hm1 Ha) as Ba.
    pose proof (marks_ok_bound _ _ _ _ Hm2 Hb) as Bb.
    pose proof (marks_ok_bound _ _ _ _ Hm3 Hc) as Bc.
    unfold well_scoped. cbn. rewrite !length_take, length_drop.
    repeat split; try lia.
    + rewrite Nat.min_l by lia. eapply marks_ok_pop; eassumption.
    + rewrite Nat.min_l by lia. eapply marks_ok_pop; eassumption.
    + rewrite Nat.min_l by lia. eapply marks_ok_pop; eassumption.
Qed.

Lemma well_scoped_run (fuel : nat) (script : list step) st st' :
  well_scoped st -> run fuel script st = Some st' -> well_scoped st'.
Proof.
  revert st. induction script as [|s script IH]; intros st Hw E; cbn [run] in E.
  - injection E as <-. exact Hw.
  - destruct (run_step fuel s st) as [st1|] eqn:E1; [|discriminate].
    cbn [mbind option_bind] in E. eapply IH; [|exact E].
    destruct s as [o| |n]; cbn [run_step] in E1.
    + eapply well_scoped_ext; [exact Hw|]. eapply ext_run_op, E1.
    + injection E1 as <-. apply well_scoped_push, Hw.
    + eapply well_scoped_pop; eassumption.
Qed.

(** X5.  On every state the solver can be in (any script of operations,
    pushes and pops, run from the constructor's state) the solution map,
    the exclusion table, the trail stack and the equation frames have the
    same number of open scopes, and the marks each of them saved are in
    ascending order and within the trail they index. *)
Theorem scopes_stay_aligned (fuel : nat) (script : list step) (c : C) st :
  run fuel script (init c) = Some st ->
  well_scoped st.
Proof. apply well_scoped_run, well_scoped_init. Qed.

(** X6.  With the stores aligned, [pop_scope_eh(n)] returns exactly when at
    most as many scopes are popped as are open, and it closes [n] scopes;
    beyond that the mark [m_limit[m_limit.size() - n]] is out of range. *)
Theorem pop_scope_eh_in_range (n : nat) st :
  well_scoped st ->
  (is_Some (pop_scope_eh n st) <-> n <= length (m_saved st)) /\
  forall st', pop_scope_eh n st = Some st' ->
    well_scoped st' /\ length (m_saved st') = length (m_saved st) - n.
Proof.
  intros Hw. split; [|intros st'; apply well_scoped_pop, Hw]. split.
  - intros [st' Hp]. destruct (decide (n <= length (m_saved st))) as [Hle|Hgt]; [exact Hle|].
    rewrite pop_scope_eh_none in Hp by (assumption || lia). discriminate.
  - intros Hle. destruct (decide (n = 0)) as [->|Hn].
    + rewrite pop_scope_eh_0. eauto.
    + destruct (pop_scope_eh_some n st Hw) as (a & b & c & fr & _ & _ & _ & _ & Hp);
        [lia|exact Hle|].
      cbv zeta in Hp. rewrite Hp. eauto.
Qed.

End ScopeInvariant.

Lemma st_base_run :
  run 3 (do_push :: script_outer ++ do_push :: script_innermost) st_base = Some st_two_open.
Proof. unfold st_two_open. apply some_default. vm_compute. reflexivity. Defined.

Lemma st_two_open_run : run 3 script_two_open (init host_x_yz) = Some st_two_open.
Proof.
  unfold script_two_open. rewrite run_app.
  change (run 3 script_before (init host_x_yz)) with (Some st_base).
  exact st_base_run.
Defined.

Lemma st_two_open_well_scoped : well_scoped st_two_open.
Proof. vm_compute. repeat split. Defined.

Lemma scopes_stay_aligned_witness : well_scoped st_two_open.
Proof. exact (scopes_stay_aligned 3 script_two_open host_x_yz st_two_open st_two_open_run). Defined.

Lemma pop_scope_eh_in_range_witness :
  (is_Some (pop_scope_eh 2 st_two_open) <-> 2 <= length (m_saved st_two_open)) /\
  forall st', pop_scope_eh 2 st_two_open = Some st' ->
    well_scoped st' /\ length (m_saved st') = length (m_saved st_two_open) - 2.
Proof. exact (pop_scope_eh_in_range 2 st_two_open st_two_open_well_scoped). Defined.

Section PopAdditive.
Context {C : Type} `{SmtContext C} `{Rewriter} `{AstIds}.
Implicit Type st : theory_seq C.

Lemma undo_trail_fields (t : trail) st st0 :
  guarded st = guarded st0 -> m_axioms_head st = m_axioms_head st0 ->
  guarded (undo_trail t st) = guarded (undo_trail t st0) /\
  m_axioms_head (undo_trail t st) = m_axioms_head (undo_trail t st0).
Proof.
  unfold guarded. intros [= Hi Ha Hn] Hh.
  destruct t; cbn; rewrite ?Hi, ?Ha, ?Hn, ?Hh; auto.
Qed.

Lemma foldr_undo_trail_fields (l : list trail) st st0 :
  guarded st = guarded st0 -> m_axioms_head st = m_axioms_head st0 ->
  guarded (foldr undo_trail st l) = guarded (foldr undo_trail st0 l) /\
  m_axioms_head (foldr undo_trail st l) = m_axioms_head (foldr undo_trail st0 l).
Proof.
  intros Hg Hh. induction l as [|t l [IHg IHh]]; [auto|].
  cbn [foldr]. apply undo_trail_fields; assumption.
Qed.

Lemma drop_take_drop {A : Type} (l : list A) (i j : nat) :
  i <= j -> j <= length l -> drop i l = drop i (take j l) ++ drop j l.
Proof.
  intros Hij Hj. rewrite <- (take_drop j l) at 1.
  rewrite drop_app_le by (rewrite length_take; lia). reflexivity.
Qed.

Lemma pop_scope_eh_ctx (n : nat) st st' :
  well_scoped st -> pop_scope_eh n st = Some st' ->
  ctx st' = theory_pop_scope_eh n (ctx st).
Proof.
  intros Hw Hp. destruct (decide (n = 0)) as [->|Hn].
  - rewrite pop_scope_eh_0 in Hp. injection Hp as <-. reflexivity.
  - destruct (decide (n <= length (m_saved st))) as [Hle|Hgt];
      [|rewrite pop_scope_eh_none in Hp by (assumption || lia); discriminate].
    destruct (pop_scope_eh_some n st Hw) as (a & b & c & fr & _ & _ & _ & _ & Hp');
      [lia|exact Hle|].
    cbv zeta in Hp'. rewrite Hp' in Hp. injection Hp as <-. reflexivity.
Qed.

(** Popping depends on the host context only through the host's own pop. *)
Lemma pop_scope_eh_set_ctx (n : nat) (c : C) st :
  well_scoped st ->
  pop_scope_eh n (set_ctx c st) = set_ctx (theory_pop_scope_eh n c) <$> pop_scope_eh n st.
Proof.
  intros Hw. destruct (decide (n = 0)) as [->|Hn].
  - rewrite !pop_scope_eh_0. reflexivity.
  - destruct (decide (n <= length (m_saved st))) as [Hle|Hgt].
    + destruct (pop_scope_eh_some n st Hw) as (a & b & c1 & fr & Ha & Hb & Hc & Hfr & Hp);
        [lia|exact Hle|].
      destruct (pop_scope_eh_some n (set_ctx c st) Hw)
        as (a' & b' & c1' & fr' & Ha' & Hb' & Hc' & Hfr' & Hp'); [lia|exact Hle|].
      cbn in Ha', Hb', Hc', Hfr'.
      rewrite Ha in Ha'. rewrite Hb in Hb'. rewrite Hc in Hc'. rewrite Hfr in Hfr'.
      injection Ha' as <-. injection Hb' as <-. injection Hc' as <-. injection Hfr' as <-.
      cbv zeta in Hp, Hp'. rewrite Hp, Hp'. cbn [fmap option_fmap option_map].
      destruct (foldr_undo_trail_fields (drop c1 (ts_trail (m_trail_stack st)))
                  (set_ctx c st) st eq_refl eq_refl) as [Eg Eh].
      unfold guarded in Eg. injection Eg as Ei Ea En.
      f_equal. apply theory_seq_eq; cbn; try reflexivity; assumption.
    + rewrite !pop_scope_eh_none by (assumption || (cbn; lia)). reflexivity.
Qed.

End PopAdditive.

Section PopAdditiveMain.
Context {C : Type} `{SmtContext C} `{Rewriter} `{AstIds}.
Implicit Type st : theory_seq C.

Lemma pop_scope_eh_split (n m : nat) st :
  well_scoped st -> 0 < n -> 0 < m -> n + m <= length (m_saved st) ->
  exists st1 st2 st3,
    pop_scope_eh n st = Some st1 /\
    pop_scope_eh m st1 = Some st2 /\
    pop_scope_eh (n + m) st = Some st3 /\
    st3 = set_ctx (theory_pop_scope_eh (n + m) (ctx st)) st2.
Proof.
  intros Hw Hn Hm Hle.
  destruct (pop_scope_eh_some n st Hw) as (a1 & b1 & c1 & fr1 & Ha1 & Hb1 & Hc1 & Hf1 & Hp1);
    [lia|lia|].
  cbv zeta in Hp1.
  match type of Hp1 with _ = Some ?s => remember s as st1 eqn:Est1 end.
  destruct (well_scoped_pop n st st1 Hw Hp1) as [Hw1 Hd1].
  destruct (pop_scope_eh_some m st1 Hw1) as (a2 & b2 & c2 & fr2 & Ha2 & Hb2 & Hc2 & Hf2 & Hp2);
    [lia|lia|].
  cbv zeta in Hp2.
  destruct (pop_scope_eh_some (n + m) st Hw)
    as (a3 & b3 & c3 & fr3 & Ha3 & Hb3 & Hc3 & Hf3 & Hp3); [lia|lia|].
  cbv zeta in Hp3.
  eexists _, _, _. split; [exact Hp1|]. split; [exact Hp2|]. split; [exact Hp3|].
  destruct Hw as (Hl1 & Hl2 & Hl3 & Hm1 & Hm2 & Hm3).
  pose proof (marks_ok_bound _ _ _ _ Hm1 Ha1) as Ba.
  pose proof (marks_ok_bound _ _ _ _ Hm2 Hb1) as Bb.
  pose proof (marks_ok_bound _ _ _ _ Hm3 Hc1) as Bc.
  rewrite Hd1 in Ha2, Hb2, Hc2.
  replace (length (m_saved st) - n - m) with (length (m_saved st) - (n + m)) in * by lia.
  rewrite Est1 in Ha2, Hb2, Hc2, Hf2. cbn in Ha2, Hb2, Hc2, Hf2.
  rewrite lookup_take_lt in Ha2 by lia. rewrite lookup_take_lt in Hb2 by lia.
  rewrite lookup_take_lt in Hc2 by lia.
  rewrite lookup_drop in Hf2. replace (n + (m - 1)) with (n + m - 1) in Hf2 by lia.
  rewrite Ha3 in Ha2. rewrite Hb3 in Hb2. rewrite Hc3 in Hc2. rewrite Hf3 in Hf2.
  injection Ha2 as <-. injection Hb2 as <-. injection Hc2 as <-. injection Hf2 as <-.
  assert (La : a3 <= a1) by (eapply (marks_ok_le _ _ _ _ _ _ Hm1); [|exact Ha3|exact Ha1]; lia).
  assert (Lb : b3 <= b1) by (eapply (marks_ok_le _ _ _ _ _ _ Hm2); [|exact Hb3|exact Hb1]; lia).
  assert (Lc : c3 <= c1) by (eapply (marks_ok_le _ _ _ _ _ _ Hm3); [|exact Hc3|exact Hc1]; lia).
  destruct (foldr_undo_trail_fields (drop c3 (take c1 (ts_trail (m_trail_stack st))))
              st1 (foldr undo_trail st (drop c1 (ts_trail (m_trail_stack st)))))
    as [Eg Eh]; [rewrite Est1; reflexivity|rewrite Est1; reflexivity|].
  rewrite <- foldr_app, <- drop_take_drop in Eg, Eh by lia.
  unfold guarded in Eg. injection Eg as Ei Ea En.
  rewrite Est1. apply theory_seq_eq; cbn; rewrite <- ?Est1, ?length_drop.
  - f_equal.
    + rewrite (drop_take_drop (solution_map.m_updates (m_rep st)) a3 a1) by lia.
      rewrite foldr_app. reflexivity.
    + rewrite take_take. f_equal. lia.
    + rewrite take_take. f_equal. lia.
  - f_equal.
    + rewrite (drop_take_drop (exclusion_table.m_pairs (m_exclude st)) b3 b1) by lia.
      apply leibniz_equiv. rewrite list_to_set_app. set_solver.
    + rewrite take_take. f_equal. lia.
    + rewrite take_take. f_equal. lia.
  - reflexivity.
  - rewrite drop_drop. reflexivity.
  - symmetry. exact En.
  - symmetry. exact Ea.
  - symmetry. exact Eh.
  - reflexivity.
  - symmetry. exact Ei.
  - reflexivity.
  - reflexivity.
  - f_equal; rewrite take_take; f_equal; lia.
  - reflexivity.
Qed.

Lemma pop_scope_eh_add (n m : nat) st :
  well_scoped st ->
  pop_scope_eh (n + m) st =
    st1 ← pop_scope_eh n st;
    st2 ← pop_scope_eh m st1;
    Some (set_ctx (theory_pop_scope_eh (n + m) (ctx st)) st2).
Proof.
  intros Hw. destruct (decide (n = 0)) as [->|Hn].
  - rewrite pop_scope_eh_0. cbn [mbind option_bind Nat.add].
    unfold on_ctx. rewrite pop_scope_eh_set_ctx by exact Hw.
    destruct (pop_scope_eh m st) as [st2|] eqn:Ep; [|reflexivity].
    cbn. f_equal. rewrite <- (pop_scope_eh_ctx m st st2 Hw Ep). destruct st2; reflexivity.
  - destruct (decide (m = 0)) as [->|Hm].
    + rewrite Nat.add_0_r. destruct (pop_scope_eh n st) as [st1|] eqn:Ep; [|reflexivity].
      cbn [mbind option_bind]. rewrite pop_scope_eh_0. cbn [mbind option_bind].
      f_equal. rewrite <- (pop_scope_eh_ctx n st st1 Hw Ep). destruct st1; reflexivity.
    + destruct (decide (n + m <= length (m_saved st))) as [Hle|Hgt].
      * destruct (pop_scope_eh_split n m st Hw) as (st1 & st2 & st3 & E1 & E2 & E3 & ->);
          [lia|lia|exact Hle|].
        rewrite E3, E1. cbn [mbind option_bind]. rewrite E2. reflexivity.
      * rewrite pop_scope_eh_none by (assumption || lia).
        destruct (pop_scope_eh n st) as [st1|] eqn:Ep; [|reflexivity].
        cbn [mbind option_bind].
        destruct (well_scoped_pop n st st1 Hw Ep) as [Hw1 Hd1].
        rewrite pop_scope_eh_none by (assumption || lia). reflexivity.
Qed.

(** X7.  Popping scopes composes: with the stores aligned,
    [pop_scope_eh(n + m)] is [pop_scope_eh(n)] followed by
    [pop_scope_eh(m)], except that the host is told once of [n + m]
    scopes instead of twice. *)
Theorem pop_scope_eh_additive (n m : nat) st :
  well_scoped st ->
  pop_scope_eh (n + m) st =
    st1 ← pop_scope_eh n st;
    st2 ← pop_scope_eh m st1;
    Some (set_ctx (theory_pop_scope_eh (n + m) (ctx st)) st2).
Proof. apply pop_scope_eh_add. Qed.

End PopAdditiveMain.

Lemma pop_scope_eh_additive_witness :
  pop_scope_eh (1 + 1) st_two_open =
    st1 ← pop_scope_eh 1 st_two_open;
    st2 ← pop_scope_eh 1 st1;
    Some (set_ctx (theory_pop_scope_eh (1 + 1) (ctx st_two_open)) st2).
Proof. exact (pop_scope_eh_additive 1 1 st_two_open st_two_open_well_scoped). Defined.

(** *** Nested scopes *)

Section Nested.
Context {C : Type} `{SmtContext C} `{Rewriter} `{AstIds}.
Implicit Type st : theory_seq C.

Lemma pop_after_opened (fuel k : nat) (script : list step) st st1 :
  well_scoped st -> opened k script ->
  run fuel (do_push :: script) st = Some st1 ->
  exists st2, pop_scope_eh (S k) st1 = Some st2 /\ scoped st2 = scoped st.
Proof.
  intros Hw Ho. revert st st1 Hw.
  induction Ho as [script Hb|k b rest Hb Ho IH]; intros st st1 Hw E.
  - cbn [run run_step mbind option_bind] in E.
    apply (pop_after_push st st1). eapply ext_run_balanced; eassumption.
  - cbn [run run_step mbind option_bind] in E. rewrite run_app in E.
    destruct (run fuel b (push_scope_eh st)) as [stb|] eqn:Eb; [|discriminate].
    cbn [mbind option_bind] in E.
    assert (Hwb : well_scoped stb)
      by (eapply well_scoped_run; [apply well_scoped_push, Hw|exact Eb]).
    destruct (IH stb st1 Hwb E) as (st2 & Ep & Es).
    assert (X : ext (push_scope_eh st) st2).
    { eapply ext_scoped_r; [symmetry; exact Es|]. eapply ext_run_balanced; eassumption. }
    destruct (pop_after_push st st2 X) as (st3 & Ep3 & Es3).
    assert (Hw1 : well_scoped st1).
    { eapply (well_scoped_run fuel (do_push :: rest)); [exact Hwb|exact E]. }
    replace (S (S k)) with (S k + 1) by lia.
    rewrite pop_scope_eh_add by exact Hw1.
    rewrite Ep. cbn [mbind option_bind]. rewrite Ep3. cbn [mbind option_bind].
    eexists. split; [reflexivity|]. exact Es3.
Qed.

Lemma opened_depth (fuel k : nat) (script : list step) st st1 :
  opened k script -> run fuel script st = Some st1 ->
  length (m_saved st1) = length (m_saved st) + k.
Proof.
  intros Ho. revert st st1.
  induction Ho as [script Hb|k b rest Hb Ho IH]; intros st st1 E.
  - destruct (ext_run_balanced _ _ _ _ Hb E) as (_ & _ & Hs & _). rewrite Hs. lia.
  - rewrite run_app in E.
    destruct (run fuel b st) as [stb|] eqn:Eb; [|discriminate].
    cbn [mbind option_bind run run_step] in E.
    destruct (ext_run_balanced _ _ _ _ Hb Eb) as (_ & _ & Hs & _).
    apply IH in E. rewrite E. cbn. rewrite Hs. lia.
Qed.

(** X8.  Scope reversibility for several scopes at once: after
    [push_scope_eh] and a script that opens [k] further scopes (with any
    operations and matched push/pop pairs in between), [pop_scope_eh(k+1)]
    gives back every scoped store as it was before the first push. *)
Theorem nested_scope_reversibility (fuel k : nat) (script : list step) st st1 :
  well_scoped st ->
  opened k script ->
  run fuel (do_push :: script) st = Some st1 ->
  exists st2,
    pop_scope_eh (S k) st1 = Some st2 /\
    solution_map.m_map (m_rep st2) = solution_map.m_map (m_rep st) /\
    exclusion_table.m_table (m_exclude st2) = exclusion_table.m_table (m_exclude st) /\
    m_eqs st2 = m_eqs st /\
    scoped st2 = scoped st.
Proof.
  intros Hw Ho E. destruct (pop_after_opened fuel k script st st1 Hw Ho E) as (st2 & Ep & Es).
  exists st2. split; [exact Ep|]. pose proof Es as Es'. unfold scoped in Es'.
  injection Es' as E1 E2 E3 E4 E5 E6 E7 E8 E9. repeat split; congruence.
Qed.

(** X9.  The destructor pops exactly the scopes that are open: from a state
    without open scopes it does nothing, and after a push and a script that
    opens [k] further scopes it returns every scoped store to what it was
    before the first push. *)
Theorem destructor_returns_to_base (fuel k : nat) (script : list step) st st1 :
  well_scoped st ->
  m_saved st = [] ->
  opened k script ->
  run fuel (do_push :: script) st = Some st1 ->
  destructor st = Some st /\
  exists st2, destructor st1 = Some st2 /\ scoped st2 = scoped st.
Proof.
  intros Hw Hs Ho E. split; [unfold destructor; rewrite Hs; reflexivity|].
  assert (Hd : length (m_saved st1) = S k).
  { cbn [run run_step mbind option_bind] in E.
    rewrite (opened_depth fuel k script _ _ Ho E). cbn. rewrite Hs. reflexivity. }
  unfold destructor. rewrite Hd. cbn [Nat.ltb Nat.leb].
  replace (0 <? S k) with true by (symmetry; apply Nat.ltb_lt; lia).
  eapply pop_after_opened; eassumption.
Qed.

End Nested.

Lemma script_outer_opened : opened 1 (script_outer ++ do_push :: script_innermost).
Proof. apply opened_S; [|apply opened_0]; repeat constructor. Defined.

Lemma st_base_well_scoped : well_scoped st_base.
Proof. vm_compute. repeat split. Defined.

Lemma nested_scope_reversibility_witness :
  exists st2,
    pop_scope_eh 2 st_two_open = Some st2 /\
    solution_map.m_map (m_rep st2) = solution_map.m_map (m_rep st_base) /\
    exclusion_table.m_table (m_exclude st2) = exclusion_table.m_table (m_exclude st_base) /\
    m_eqs st2 = m_eqs st_base /\
    scoped st2 = scoped st_base.
Proof.
  exact (nested_scope_reversibility 3 1 (script_outer ++ do_push :: script_innermost)
           st_base st_two_open st_base_well_scoped script_outer_opened st_base_run).
Defined.

Lemma destructor_returns_to_base_witness :
  destructor st_base = Some st_base /\
  exists st2, destructor st_two_open = Some st2 /\ scoped st2 = scoped st_base.
Proof.
  exact (destructor_returns_to_base 3 1 (script_outer ++ do_push :: script_innermost)
           st_base st_two_open st_base_well_scoped eq_refl script_outer_opened st_base_run).
Defined.

(** *** Incompleteness flag across scopes *)

Section IncompleteScopes.
Context {C : Type} `{SmtContext C} `{Rewriter} `{AstIds}.
Implicit Type st : theory_seq C.

Lemma opened_op (k : nat) (o : operation) (script : list step) :
  opened k script -> opened k (do_op o :: script).
Proof.
  intros Ho. destruct Ho as [script Hb|k b rest Hb Ho].
  - apply opened_0, balanced_op, Hb.
  - change (do_op o :: b ++ do_push :: rest) with ((do_op o :: b) ++ do_push :: rest).
    apply opened_S; [apply balanced_op, Hb|exact Ho].
Qed.

Lemma incomplete_run_opened (fuel k : nat) (script : list step) st st1 :
  opened k script -> run fuel script st = Some st1 ->
  m_incomplete st = true -> m_incomplete st1 = true.
Proof.
  intros Ho. revert st st1.
  induction Ho as [script Hb|k b rest Hb Ho IH]; intros st st1 E Hi.
  - eapply ext_incomplete; [eapply ext_run_balanced; eassumption|exact Hi].
  - rewrite run_app in E.
    destruct (run fuel b st) as [stb|] eqn:Eb; [|discriminate].
    cbn [mbind option_bind run run_step] in E.
    eapply IH; [exact E|].
    change (m_incomplete (push_scope_eh stb)) with (m_incomplete stb).
    eapply ext_incomplete; [eapply ext_run_balanced; eassumption|exact Hi].
Qed.

(** C10.  Internalizing a term whose head is not supported (a length,
    indexof, replace, extract or regex-membership term among others) leaves
    the incompleteness flag set.  It stays set as long as the scope of the
    internalization is open: through every script that pops no scope it has
    not pushed itself, whether the scopes it pushes are popped again or are
    still open at the end ([k] of them).  As long as the flag is set
    [final_check_eh] answers give-up or continue, never done.  Popping the
    scope in which the term was internalized, together with the [k] scopes
    opened since, gives the flag its value from before the push. *)
Theorem unsupported_term_blocks_done (fuel k : nat) (term : expr) (script : list step) st :
  supported_head term = false ->
  opened k script ->
  (forall o r args,
     o ∈ [OP_SEQ_LENGTH; OP_SEQ_INDEX; OP_SEQ_REPLACE; OP_SEQ_EXTRACT; OP_SEQ_IN_RE] ->
     supported_head (app (d_seq o r) args) = false) /\
  m_incomplete (internalize_term term st).2 = true /\
  (forall st1,
     run fuel script (internalize_term term st).2 = Some st1 ->
     m_incomplete st1 = true /\
     forall status st2,
       final_check_eh fuel st1 = Some (status, st2) ->
       (status = FC_GIVEUP \/ status = FC_CONTINUE) /\ m_incomplete st2 = true) /\
  (forall st1,
     well_scoped st ->
     run fuel script (internalize_term term (push_scope_eh st)).2 = Some st1 ->
     exists st2, pop_scope_eh (S k) st1 = Some st2 /\ m_incomplete st2 = m_incomplete st).
Proof.
  intros Hs Ho. split; [|split; [|split]].
  - intros o r args Hk. repeat (apply elem_of_cons in Hk as [->|Hk]; [reflexivity|]).
    apply elem_of_nil in Hk. destruct Hk.
  - apply internalize_term_incomplete, Hs.
  - intros st1 Er.
    pose proof (incomplete_run_opened _ _ _ _ _ Ho Er
                  (internalize_term_incomplete term st Hs)) as Hi.
    split; [exact Hi|]. intros status st2 Ef. split.
    + destruct status; [|auto|auto].
      apply final_check_eh_done in Ef. congruence.
    + eapply ext_incomplete; [eapply ext_final_check_eh, Ef|exact Hi].
  - intros st1 Hw Er.
    destruct (pop_after_opened fuel k (do_op (op_internalize_term term) :: script) st st1 Hw
                (opened_op k _ _ Ho) Er) as (st2 & Ep & Es).
    exists st2. split; [exact Ep|]. unfold scoped in Es. congruence.
Qed.

End IncompleteScopes.

Lemma script_unmatched_push_opened : opened 1 script_unmatched_push.
Proof.
  apply opened_S; [exact script_after_length_balanced|].
  apply opened_0. repeat constructor.
Defined.

Lemma unsupported_term_blocks_done_witness :
  let term := mk_length var_x in
  let st := init blank in
  (forall o r args,
     o ∈ [OP_SEQ_LENGTH; OP_SEQ_INDEX; OP_SEQ_REPLACE; OP_SEQ_EXTRACT; OP_SEQ_IN_RE] ->
     supported_head (app (d_seq o r) args) = false) /\
  m_incomplete (internalize_term term st).2 = true /\
  (forall st1,
     run 3 script_unmatched_push (internalize_term term st).2 = Some st1 ->
     m_incomplete st1 = true /\
     forall status st2,
       final_check_eh 3 st1 = Some (status, st2) ->
       (status = FC_GIVEUP \/ status = FC_CONTINUE) /\ m_incomplete st2 = true) /\
  (forall st1,
     well_scoped st ->
     run 3 script_unmatched_push (internalize_term term (push_scope_eh st)).2 = Some st1 ->
     exists st2, pop_scope_eh 2 st1 = Some st2 /\ m_incomplete st2 = m_incomplete st).
Proof.
  exact (unsupported_term_blocks_done 3 1 (mk_length var_x) script_unmatched_push (init blank)
           eq_refl script_unmatched_push_opened).
Defined.


(** *** Exclusion table *)

Section Exclusion.
Context {C : Type} `{SmtContext C} `{Rewriter} `{AstIds}.
Implicit Type st : theory_seq C.

Lemma normalize_ordered (e r a b : expr) :
  exclusion_table.normalize e r = (a, b) ->
  (get_id a <= get_id b)%N /\ ((a = e /\ b = r) \/ (a = r /\ b = e)).
Proof.
  unfold exclusion_table.normalize.
  destruct (get_id r <? get_id e)%N eqn:E; intros [= <- <-].
  - apply N.ltb_lt in E. split; [lia|auto].
  - apply N.ltb_ge in E. split; [lia|auto].
Qed.

Lemma excl_wf_empty : excl_wf exclusion_table.empty.
Proof.
  split; [reflexivity|]. split; [constructor|]. intros a b Hab. apply elem_of_nil in Hab. tauto.
Qed.

Lemma excl_wf_update (e r : expr) (s : exclusion_table.t) :
  excl_wf s -> excl_wf (exclusion_table.update e r s).
Proof.
  intros (Ht & Hn & Hp). unfold exclusion_table.update.
  destruct (exclusion_table.normalize e r) as [a b] eqn:En.
  destruct (bool_decide (a ≠ b) && negb (bool_decide ((a, b) ∈ exclusion_table.m_table s)))
    eqn:E; [|exact (conj Ht (conj Hn Hp))].
  apply andb_true_iff in E as [Eab E]. apply bool_decide_eq_true in Eab.
  apply negb_true_iff, bool_decide_eq_false in E.
  destruct (normalize_ordered _ _ _ _ En) as [Hid _].
  split; [|split]; cbn.
  - rewrite Ht, list_to_set_app_L. cbn. set_solver.
  - apply NoDup_app. split; [exact Hn|]. split; [|apply NoDup_singleton].
    intros x Hx Hx'. apply list_elem_of_singleton in Hx'. subst x.
    apply E. rewrite Ht. apply elem_of_list_to_set, Hx.
  - intros a' b' Hab. apply elem_of_app in Hab as [Hab|Hab]; [apply Hp, Hab|].
    apply list_elem_of_singleton in Hab. injection Hab as -> ->. auto.
Qed.

Lemma excl_wf_grows (s s' : exclusion_table.t) : excl_wf s -> excl_grows s s' -> excl_wf s'.
Proof.
  intros Hw [l ->]. revert s Hw. induction l as [|p l IH]; intros s Hw; [exact Hw|].
  cbn [foldl]. apply IH, excl_wf_update, Hw.
Qed.

Lemma excl_wf_truncate (b : nat) (lim : list nat) (s : exclusion_table.t) :
  excl_wf s ->
  excl_wf (exclusion_table.mk
             (exclusion_table.m_table s ∖ list_to_set (drop b (exclusion_table.m_pairs s)))
             (take b (exclusion_table.m_pairs s)) lim).
Proof.
  intros (Ht & Hn & Hp).
  rewrite <- (take_drop b (exclusion_table.m_pairs s)) in Hn.
  apply NoDup_app in Hn as (Hn1 & Hdis & _).
  split; [|split]; cbn.
  - rewrite Ht. rewrite <- (take_drop b (exclusion_table.m_pairs s)) at 1.
    rewrite list_to_set_app_L. apply set_eq. intros x.
    rewrite elem_of_difference, elem_of_union, !elem_of_list_to_set.
    specialize (Hdis x). tauto.
  - exact Hn1.
  - intros a' b' Hab. apply Hp. eapply subseteq_take, Hab.
Qed.

Lemma excl_wf_run (fuel : nat) (script : list step) st st' :
  well_scoped st -> excl_wf (m_exclude st) -> run fuel script st = Some st' ->
  excl_wf (m_exclude st').
Proof.
  revert st. induction script as [|s script IH]; intros st Hw Hx E; cbn [run] in E.
  - injection E as <-. exact Hx.
  - destruct (run_step fuel s st) as [st1|] eqn:E1; [|discriminate].
    cbn [mbind option_bind] in E.
    assert (Hw1 : well_scoped st1) by (eapply (well_scoped_run fuel [s]); [exact Hw|];
      cbn [run]; rewrite E1; reflexivity).
    eapply IH; [exact Hw1| |exact E].
    destruct s as [o| |n]; cbn [run_step] in E1.
    + eapply excl_wf_grows; [exact Hx|]. eapply steady_run_op, E1.
    + injection E1 as <-. exact Hx.
    + destruct (decide (n = 0)) as [->|Hn].
      * rewrite pop_scope_eh_0 in E1. injection E1 as <-. exact Hx.
      * destruct (decide (n <= length (m_saved st))) as [Hle|Hgt];
          [|rewrite pop_scope_eh_none in E1 by (assumption || lia); discriminate].
        destruct (pop_scope_eh_some n st Hw) as (a & b & c & fr & _ & _ & _ & _ & Hp);
          [lia|exact Hle|].
        cbv zeta in Hp. rewrite Hp in E1. injection E1 as <-. cbn [m_exclude].
        apply excl_wf_truncate, Hx.
Qed.

(** X10.  On every state the solver can be in, the exclusion table is
    exactly the set of the recorded pairs, no pair is recorded twice (so
    that popping a scope cannot erase a pair an outer scope recorded), and
    every recorded pair is made of two different terms with the smaller
    identifier first. *)
Theorem exclusion_table_faithful (fuel : nat) (script : list step) (c : C) st :
  run fuel script (init c) = Some st ->
  excl_wf (m_exclude st).
Proof. apply excl_wf_run; [apply well_scoped_init|apply excl_wf_empty]. Qed.

(** X11.  A disequality the host reports is never proposed as a case split
    in the same scope.  After [new_diseq_eh(v1, v2)] on two different
    terms, and after any balanced script that follows, [assume_equality]
    refuses the pair without calling the host; with distinct identifiers it
    refuses the pair in either order. *)
Theorem diseq_blocks_assume_equality (fuel : nat) (v1 v2 : theory_var) (script : list step)
    st st' :
  let e1 := ctx_var2enode (ctx st) v1 in
  let e2 := ctx_var2enode (ctx st) v2 in
  e1 <> e2 ->
  balanced script ->
  run fuel script (new_diseq_eh v1 v2 st) = Some st' ->
  assume_equality e1 e2 st' = (false, st') /\
  (get_id e1 <> get_id e2 -> assume_equality e2 e1 st' = (false, st')).
Proof.
  intros e1 e2 Hne Hb E.
  assert (Hin : exclusion_table.normalize e1 e2
                ∈ exclusion_table.m_table (m_exclude (new_diseq_eh v1 v2 st))).
  { unfold new_diseq_eh. fold e1 e2. cbn [m_exclude set_m_exclude].
    unfold exclusion_table.update.
    destruct (exclusion_table.normalize e1 e2) as [a b] eqn:En.
    destruct (normalize_ordered _ _ _ _ En) as [_ Hab].
    destruct (bool_decide (a ≠ b) && negb (bool_decide ((a, b) ∈ _))) eqn:Eg.
    - cbn. set_solver.
    - apply andb_false_iff in Eg as [Eg|Eg].
      + apply bool_decide_eq_false in Eg. exfalso. apply Eg.
        destruct Hab as [[-> ->]|[-> ->]]; congruence.
      + apply negb_false_iff, bool_decide_eq_true in Eg. exact Eg. }
  destruct (ext_run_balanced _ _ _ _ Hb E) as (_ & (_ & suf & _ & Ht) & _).
  assert (Hin' : exclusion_table.normalize e1 e2 ∈ exclusion_table.m_table (m_exclude st')).
  { rewrite <- Ht in Hin. set_solver. }
  split.
  - apply assume_equality_excluded. unfold exclusion_table.contains.
    apply bool_decide_eq_true. exact Hin'.
  - intros Hid. apply assume_equality_excluded. unfold exclusion_table.contains.
    apply bool_decide_eq_true.
    replace (exclusion_table.normalize e2 e1) with (exclusion_table.normalize e1 e2);
      [exact Hin'|].
    unfold exclusion_table.normalize.
    destruct (get_id e2 <? get_id e1)%N eqn:E21, (get_id e1 <? get_id e2)%N eqn:E12;
      try reflexivity.
    + apply N.ltb_lt in E21, E12. lia.
    + apply N.ltb_ge in E21, E12. exfalso. apply Hid. lia.
Qed.

End Exclusion.

Lemma exclusion_table_faithful_witness : excl_wf (m_exclude st_two_open).
Proof.
  exact (exclusion_table_faithful 3 script_two_open host_x_yz st_two_open st_two_open_run).
Defined.

Lemma diseq_blocks_assume_equality_witness :
  let e1 := ctx_var2enode (ctx (init host_x_yz)) 0 in
  let e2 := ctx_var2enode (ctx (init host_x_yz)) 1 in
  assume_equality e1 e2 st_after_diseq = (false, st_after_diseq) /\
  (get_id e1 <> get_id e2 -> assume_equality e2 e1 st_after_diseq = (false, st_after_diseq)).
Proof.
  refine (diseq_blocks_assume_equality 3 0 1 script_after_length (init host_x_yz)
            st_after_diseq _ script_after_length_balanced _).
  - discriminate.
  - unfold st_after_diseq. apply some_default. vm_compute. reflexivity.
Defined.

(** *** Statistics and the model-completion switch *)

Section Unscoped.
Context {C : Type} `{SmtContext C} `{Rewriter} `{AstIds}.
Implicit Type st : theory_seq C.

Lemma pop_frames_unscoped (n : nat) st st' :
  pop_frames n st = Some st' ->
  m_stats st' = m_stats st /\ m_model_completion st' = m_model_completion st.
Proof.
  revert st. induction n as [|n IH]; intros st E; cbn [pop_frames] in E.
  - injection E as <-. auto.
  - destruct (m_saved st) as [|fr saved]; [discriminate|]. apply IH in E. exact E.
Qed.

Lemma pop_scope_eh_unscoped (n : nat) st st' :
  pop_scope_eh n st = Some st' ->
  m_stats st' = m_stats st /\ m_model_completion st' = m_model_completion st.
Proof.
  unfold pop_scope_eh. intros E.
  destruct (trail_pop_scope n st) as [st1|] eqn:E1; [|discriminate].
  cbn [mbind option_bind] in E.
  assert (X1 : m_stats st1 = m_stats st /\ m_model_completion st1 = m_model_completion st).
  { unfold trail_pop_scope in E1. destruct (n =? 0); [injection E1 as <-; auto|].
    destruct (_ <? n); [discriminate|].
    destruct (ts_scopes (m_trail_stack st) !! _) as [old|]; [|discriminate].
    cbn [mbind option_bind] in E1. injection E1 as <-.
    destruct (foldr_undo_trail_rest (drop old (ts_trail (m_trail_stack st))) st)
      as (_ & _ & _ & _ & _ & _ & Est & _ & Em).
    cbn. auto. }
  destruct (solution_map.pop_scope n _) as [rep|]; [|discriminate].
  cbn [mbind option_bind] in E.
  destruct (exclusion_table.pop_scope n _) as [ex|]; [|discriminate].
  cbn [mbind option_bind] in E. apply pop_frames_unscoped in E. cbn in E.
  destruct X1, E. split; congruence.
Qed.

Lemma run_unscoped (fuel : nat) (script : list step) st st' :
  run fuel script st = Some st' ->
  m_model_completion st' = m_model_completion st /\
  m_num_splits (m_stats st') = m_num_splits (m_stats st).
Proof.
  revert st. induction script as [|s script IH]; intros st E; cbn [run] in E.
  - injection E as <-. auto.
  - destruct (run_step fuel s st) as [st1|] eqn:E1; [|discriminate].
    cbn [mbind option_bind] in E. apply IH in E as (Em & Es).
    assert (X : m_model_completion st1 = m_model_completion st /\
                m_num_splits (m_stats st1) = m_num_splits (m_stats st)).
    { destruct s as [o| |n]; cbn [run_step] in E1.
      - apply steady_run_op in E1 as (_ & X). exact X.
      - injection E1 as <-. cbn. auto.
      - apply pop_scope_eh_unscoped in E1 as [-> ->]. auto. }
    destruct X as (Xm & Xs). split; congruence.
Qed.

(** X12.  The statistics are not scoped and no split is ever counted:
    along any script, pops included, the number of splits reported by
    [collect_statistics] stays what it was (nothing in the solver counts a
    split), and a pop gives back no earlier statistics: [pop_scope_eh]
    leaves both counters as they are.  The reduction counter is an unsigned
    machine integer; it is advanced modulo [2^32], so nothing is said about
    its order. *)
Theorem statistics_not_scoped (fuel : nat) (script : list step) st st' :
  run fuel script st = Some st' ->
  (exists r,
     collect_statistics st' =
       [("seq num splits", m_num_splits (m_stats st)); ("seq num reductions", r)]) /\
  (forall n st'',
     pop_scope_eh n st' = Some st'' -> collect_statistics st'' = collect_statistics st').
Proof.
  intros E. apply run_unscoped in E as (_ & Es). split.
  - exists (m_num_reductions (m_stats st')).
    unfold collect_statistics. rewrite Es. reflexivity.
  - intros n st'' Ep. apply pop_scope_eh_unscoped in Ep as [Ep _].
    unfold collect_statistics. rewrite Ep. reflexivity.
Qed.

(** X13.  The model-completion switch is only on inside [mk_value]: on
    every state the solver can be in it is off, so the canonizer run by
    the final check never asks the value factory for a value and never
    touches the host. *)
Theorem model_completion_stays_off (fuel : nat) (script : list step) (c : C) st :
  run fuel script (init c) = Some st ->
  m_model_completion st = false /\
  forall fuel' e eqs r eqs' st',
    canonize fuel' e eqs st = Some (r, eqs', st') -> ctx st' = ctx st.
Proof.
  intros E. apply run_unscoped in E as (Em & _). cbn in Em. split; [exact Em|].
  intros fuel' e eqs r eqs' st' Ec.
  apply canonize_canon_run in Ec as (_ & _ & Hc). apply Hc, Em.
Qed.

End Unscoped.

Lemma statistics_not_scoped_witness :
  (exists r,
     collect_statistics st_two_open =
       [("seq num splits", m_num_splits (m_stats (init host_x_yz)));
        ("seq num reductions", r)]) /\
  (forall n st'',
     pop_scope_eh n st_two_open = Some st'' ->
     collect_statistics st'' = collect_statistics st_two_open).
Proof.
  exact (statistics_not_scoped 3 script_two_open (init host_x_yz) st_two_open
           st_two_open_run).
Defined.

Lemma model_completion_stays_off_witness :
  m_model_completion st_two_open = false /\
  forall fuel' e eqs r eqs' st',
    canonize fuel' e eqs st_two_open = Some (r, eqs', st') -> ctx st' = ctx st_two_open.
Proof.
  exact (model_completion_stays_off 3 script_two_open host_x_yz st_two_open st_two_open_run).
Defined.

(** *** Axiom factory: [add_replace_axiom] and [add_len_axiom] *)

Section MoreAxioms.
Context {C : Type} `{SmtContext C} `{Rewriter} `{AstIds}.
Implicit Type st : theory_seq C.

(** X15.  For [r = replace(a, s, t)] the factory appends exactly four
    clauses to the axiom queue, each under a trail entry of its own.  Read
    as formulas over their atoms they say: contains(s,a) implies
    a = x⌢s⌢y, r = x⌢t⌢y and the tightest prefix constraint of s and x;
    not contains(s,a) implies r = a. *)
Theorem add_replace_axiom_clauses (r a s t : expr) st :
  is_replace r = Some (a, s, t) ->
  let x := mk_skolem m_contains_left_sym s (Some a) in
  let y := mk_skolem m_contains_right_sym s (Some a) in
  let s1 := mk_skolem "first" s None in
  let c := mk_skolem "last" s None in
  let cnt := mk_contains s a in
  let split_s := mk_eq s (mk_concat s1 c) in
  let unit_c := mk_eq (mk_length c) (mk_int 1) in
  let early := mk_contains s (mk_concat x s1) in
  let c1 := mk_or [mk_not cnt; mk_eq a (mk_concat3 x s y)] in
  let c2 := mk_or [mk_not cnt; mk_eq r (mk_concat3 x t y)] in
  let c3 := mk_or [mk_not cnt; mk_and [split_s; unit_c; mk_not early]] in
  let c4 := mk_or [cnt; mk_eq r a] in
  exists st',
    add_replace_axiom r st = Some st' /\
    m_axioms st' = m_axioms st ++ [c1; c2; c3; c4] /\
    ts_trail (m_trail_stack st') =
      ts_trail (m_trail_stack st) ++ repeat push_back_vector_axioms 4 /\
    (forall rho, holds rho c1 && (holds rho c2 && holds rho c3) =
                 implb (rho cnt)
                   (rho (mk_eq a (mk_concat3 x s y)) &&
                    (rho (mk_eq r (mk_concat3 x t y)) &&
                     (rho split_s && (rho unit_c && negb (rho early)))))) /\
    (forall rho, holds rho c4 = implb (negb (rho cnt)) (rho (mk_eq r a))).
Proof.
  intros Hr x y s1 c cnt split_s unit_c early c1 c2 c3 c4.
  unfold add_replace_axiom. rewrite Hr. cbn [mbind option_bind].
  eexists. split; [reflexivity|]. split.
  { unfold create_axiom. cbn. rewrite <- !app_assoc. reflexivity. }
  split.
  { unfold create_axiom. cbn. rewrite <- !app_assoc. reflexivity. }
  split; intros rho.
  - unfold c1, c2, c3. rewrite !holds_or2, holds_and3, !holds_not.
    unfold cnt at 1 2 3, split_s at 1, unit_c at 1, early at 1.
    rewrite !holds_contains, !holds_eq. fold cnt split_s unit_c early.
    destruct (rho cnt); cbn; reflexivity.
  - unfold c4. rewrite holds_or2. unfold cnt at 1.
    rewrite holds_contains, holds_eq. fold cnt. destruct (rho cnt); reflexivity.
Qed.

(** X16.  For a length term [n = |x|] that becomes relevant, [relevant_eh]
    queues [0 <= n] and two clauses that together say that [n] is 0 exactly
    when [x] is empty; the equation between [n] and its rewritten form is
    queued only when the rewriter changes [n].  A term with any other head
    queues nothing. *)
Theorem add_len_axiom_clauses (n x : expr) st :
  is_length n = Some x ->
  let eq1 := mk_eq (mk_int 0) n in
  let eq2 := mk_eq x (mk_empty (get_sort x)) in
  let c1 := mk_le (mk_int 0) n in
  let c2 := mk_or [mk_not eq1; eq2] in
  let c3 := mk_or [mk_not eq2; eq1] in
  exists st',
    relevant_eh n st = Some st' /\
    add_len_axiom n st = Some st' /\
    m_axioms st' =
      m_axioms st ++ [c1; c2; c3] ++
        (if bool_decide (m_rewrite n = n) then [] else [mk_eq n (m_rewrite n)]) /\
    (forall rho, holds rho c2 && holds rho c3 = Bool.eqb (rho eq1) (rho eq2)) /\
    (forall n', is_seq_app OP_SEQ_LENGTH n' = false -> relevant_eh n' st = Some st).
Proof.
  intros Hn eq1 eq2 c1 c2 c3.
  assert (Hh : is_seq_app OP_SEQ_LENGTH n = true).
  { destruct n as [[? ?|k ?|?|? ?|?|?] args]; try discriminate.
    destruct k; try discriminate. reflexivity. }
  unfold relevant_eh. rewrite Hh. unfold add_len_axiom. rewrite Hn. cbn [mbind option_bind].
  eexists. split; [reflexivity|]. split; [reflexivity|]. split; [|split].
  - destruct (bool_decide (m_rewrite n = n)) eqn:E.
    + apply bool_decide_eq_true in E.
      rewrite bool_decide_eq_false_2 by (intros Hne; apply Hne, E).
      unfold create_axiom. cbn. rewrite <- !app_assoc. reflexivity.
    + apply bool_decide_eq_false in E. rewrite bool_decide_eq_true_2 by exact E.
      unfold create_axiom. cbn. rewrite <- !app_assoc. reflexivity.
  - intros rho. unfold c2, c3. rewrite !holds_or2, !holds_not.
    unfold eq1 at 1 2, eq2 at 1 2. rewrite !holds_eq. fold eq1 eq2.
    destruct (rho eq1), (rho eq2); reflexivity.
  - intros n' Hn'. rewrite Hn'. reflexivity.
Qed.

End MoreAxioms.

Lemma add_replace_axiom_clauses_witness :
  let r := mk_replace var_x var_y var_z in
  let a := var_x in
  let s := var_y in
  let t := var_z in
  let st := init blank in
  let x := mk_skolem m_contains_left_sym s (Some a) in
  let y := mk_skolem m_contains_right_sym s (Some a) in
  let s1 := mk_skolem "first" s None in
  let c := mk_skolem "last" s None in
  let cnt := mk_contains s a in
  let split_s := mk_eq s (mk_concat s1 c) in
  let unit_c := mk_eq (mk_length c) (mk_int 1) in
  let early := mk_contains s (mk_concat x s1) in
  let c1 := mk_or [mk_not cnt; mk_eq a (mk_concat3 x s y)] in
  let c2 := mk_or [mk_not cnt; mk_eq r (mk_concat3 x t y)] in
  let c3 := mk_or [mk_not cnt; mk_and [split_s; unit_c; mk_not early]] in
  let c4 := mk_or [cnt; mk_eq r a] in
  exists st',
    add_replace_axiom r st = Some st' /\
    m_axioms st' = m_axioms st ++ [c1; c2; c3; c4] /\
    ts_trail (m_trail_stack st') =
      ts_trail (m_trail_stack st) ++ repeat push_back_vector_axioms 4 /\
    (forall rho, holds rho c1 && (holds rho c2 && holds rho c3) =
                 implb (rho cnt)
                   (rho (mk_eq a (mk_concat3 x s y)) &&
                    (rho (mk_eq r (mk_concat3 x t y)) &&
                     (rho split_s && (rho unit_c && negb (rho early)))))) /\
    (forall rho, holds rho c4 = implb (negb (rho cnt)) (rho (mk_eq r a))).
Proof.
  exact (add_replace_axiom_clauses (mk_replace var_x var_y var_z) var_x var_y var_z
           (init blank) eq_refl).
Defined.

Lemma add_len_axiom_clauses_witness :
  let n := mk_length var_x in
  let x := var_x in
  let st := init blank in
  let eq1 := mk_eq (mk_int 0) n in
  let eq2 := mk_eq x (mk_empty (get_sort x)) in
  let c1 := mk_le (mk_int 0) n in
  let c2 := mk_or [mk_not eq1; eq2] in
  let c3 := mk_or [mk_not eq2; eq1] in
  exists st',
    relevant_eh n st = Some st' /\
    add_len_axiom n st = Some st' /\
    m_axioms st' =
      m_axioms st ++ [c1; c2; c3] ++
        (if bool_decide (m_rewrite n = n) then [] else [mk_eq n (m_rewrite n)]) /\
    (forall rho, holds rho c2 && holds rho c3 = Bool.eqb (rho eq1) (rho eq2)) /\
    (forall n', is_seq_app OP_SEQ_LENGTH n' = false -> relevant_eh n' st = Some st).
Proof. exact (add_len_axiom_clauses (mk_length var_x) var_x (init blank) eq_refl). Defined.

(** *** Canonizer and simplification *)

Section Solving.
Context {C : Type} `{SmtContext C} `{Rewriter} `{AstIds}.
Implicit Type st : theory_seq C.

(** X18.  [canonize] changes the solution map and the host context only;
    the solution map is changed by trail-recorded updates (path
    compression, model values) that a pop undoes; the dependency it
    returns contains the one it was given; and outside model-completion
    mode the host context is untouched as well. *)
Theorem canonize_changes_solution_map_only (fuel : nat) (e : expr)
    (eqs : enode_pair_dependency) st (r : expr) (eqs' : enode_pair_dependency) st' :
  canonize fuel e eqs st = Some (r, eqs', st') ->
  outside_rep st' = outside_rep st /\
  rep_ext (m_rep st) (m_rep st') /\
  linearize eqs ⊆ linearize eqs' /\
  (m_model_completion st = false -> ctx st' = ctx st).
Proof.
  intros E. apply canonize_canon_run in E as ([Ho Hr] & Hd & Hc). auto.
Qed.

Lemma simplify_eq_unchanged (fuel : nat) (l r : expr) (deps : enode_pair_dependency) st st' :
  simplify_eq fuel l r deps st = Some (false, st') -> canon_step st st'.
Proof.
  unfold simplify_eq. intros E.
  destruct (canonize fuel l deps st) as [[[lh d1] st1]|] eqn:E1; [|discriminate].
  cbn [mbind option_bind] in E.
  destruct (canonize fuel r d1 st1) as [[[rh d2] st2]|] eqn:E2; [|discriminate].
  cbn [mbind option_bind] in E.
  apply canonize_canon_step in E1. apply canonize_canon_step in E2.
  destruct (reduce_eq lh rh) as [[lhs rhs]|]; [|discriminate].
  destruct (_ && _).
  - injection E as <-. eapply canon_step_trans; eassumption.
  - destruct (eq_rows lhs rhs d2); discriminate.
Qed.

Lemma solve_unit_eq_unchanged (fuel : nat) (l r : expr) (deps : enode_pair_dependency)
    st st' :
  solve_unit_eq fuel l r deps st = Some (false, st') -> canon_step st st'.
Proof.
  unfold solve_unit_eq. intros E.
  destruct (canonize fuel l deps st) as [[[lh d1] st1]|] eqn:E1; [|discriminate].
  cbn [mbind option_bind] in E.
  destruct (canonize fuel r d1 st1) as [[[rh d2] st2]|] eqn:E2; [|discriminate].
  cbn [mbind option_bind] in E.
  apply canonize_canon_step in E1. apply canonize_canon_step in E2.
  destruct (bool_decide (lh = rh)); [discriminate|].
  destruct (is_var lh && negb (occurs lh rh)); [discriminate|].
  destruct (is_var rh && negb (occurs rh lh)); [discriminate|].
  injection E as <-. eapply canon_step_trans; eassumption.
Qed.

Lemma pre_process_eqs_loop_true (fuel : nat) (sos : bool) (i : nat) st (b : bool) st' :
  pre_process_eqs_loop fuel sos i true st = Some (b, st') -> b = true.
Proof.
  revert i st. induction fuel as [|fuel IH]; intros i st E; cbn [pre_process_eqs_loop] in E.
  - destruct (ctx_inconsistent (ctx st)); [congruence|].
    destruct (m_eqs st !! i) as [[[l r] d]|]; [discriminate|congruence].
  - destruct (ctx_inconsistent (ctx st)); [congruence|].
    destruct (m_eqs st !! i) as [[[l r] d]|]; [|congruence].
    destruct (if sos then simplify_eq fuel l r d st else solve_unit_eq fuel l r d st)
      as [[b1 st1]|]; [|discriminate].
    cbn [mbind option_bind] in E. destruct b1.
    + destruct (remove_eq i st1) as [[i2 st2]|]; [|discriminate].
      cbn [mbind option_bind] in E. eapply IH, E.
    + eapply IH, E.
Qed.

Lemma pre_process_eqs_loop_unchanged (fuel : nat) (sos : bool) (i : nat) st st' :
  pre_process_eqs_loop fuel sos i false st = Some (false, st') -> canon_step st st'.
Proof.
  revert i st. induction fuel as [|fuel IH]; intros i st E; cbn [pre_process_eqs_loop] in E.
  - destruct (ctx_inconsistent (ctx st)); [injection E as <-; apply canon_step_refl|].
    destruct (m_eqs st !! i) as [[[l r] d]|]; [discriminate|].
    injection E as <-; apply canon_step_refl.
  - destruct (ctx_inconsistent (ctx st)); [injection E as <-; apply canon_step_refl|].
    destruct (m_eqs st !! i) as [[[l r] d]|]; [|injection E as <-; apply canon_step_refl].
    destruct (if sos then simplify_eq fuel l r d st else solve_unit_eq fuel l r d st)
      as [[b1 st1]|] eqn:E1; [|discriminate].
    cbn [mbind option_bind] in E. destruct b1.
    + destruct (remove_eq i st1) as [[i2 st2]|]; [|discriminate].
      cbn [mbind option_bind] in E. apply pre_process_eqs_loop_true in E. discriminate.
    + eapply canon_step_trans; [|eapply IH, E].
      destruct sos; [eapply simplify_eq_unchanged, E1|eapply solve_unit_eq_unchanged, E1].
Qed.

Lemma solve_loop_true (fuel : nat) st (b : bool) st' :
  solve_loop fuel true st = Some (b, st') -> b = true.
Proof.
  revert st. induction fuel as [|fuel IH]; intros st E; cbn [solve_loop] in E.
  - destruct (ctx_inconsistent (ctx st)); [congruence|discriminate].
  - destruct (ctx_inconsistent (ctx st)); [congruence|].
    destruct (solve_basic_eqs fuel st) as [[b1 st1]|]; [|discriminate].
    cbn [mbind option_bind] in E. destruct b1; [|congruence].
    destruct (simplify_eqs fuel st1) as [[b2 st2]|]; [|discriminate].
    cbn [mbind option_bind] in E. eapply IH, E.
Qed.

(** X19.  The answer "no change" of [simplify_and_solve_eqs] can be
    trusted: when it returns false the pending equations, the inequations,
    the axiom queue, the exclusion table, the statistics and the trail are
    what they were; only the solution map (by trail-recorded path
    compression) and the host context can differ. *)
Theorem simplify_and_solve_eqs_no_change (fuel : nat) st st' :
  simplify_and_solve_eqs fuel st = Some (false, st') ->
  outside_rep st' = outside_rep st /\ rep_ext (m_rep st) (m_rep st').
Proof.
  unfold simplify_and_solve_eqs. intros E.
  destruct (simplify_eqs fuel st) as [[b1 st1]|] eqn:E1; [|discriminate].
  cbn [mbind option_bind] in E.
  destruct b1; [apply solve_loop_true in E; discriminate|].
  apply pre_process_eqs_loop_unchanged in E1.
  cut (canon_step st1 st'); [intros X; exact (canon_step_trans _ _ _ E1 X)|].
  destruct fuel as [|fuel]; cbn [solve_loop] in E.
  - destruct (ctx_inconsistent (ctx st1)); [|discriminate].
    injection E as <-. apply canon_step_refl.
  - destruct (ctx_inconsistent (ctx st1)); [injection E as <-; apply canon_step_refl|].
    destruct (solve_basic_eqs fuel st1) as [[b2 st2]|] eqn:E2; [|discriminate].
    cbn [mbind option_bind] in E. destruct b2.
    + destruct (simplify_eqs fuel st2) as [[b3 st3]|]; [|discriminate].
      cbn [mbind option_bind] in E. apply solve_loop_true in E. discriminate.
    + injection E as <-. eapply pre_process_eqs_loop_unchanged, E2.
Qed.

(** X20.  An inconsistent equation: when the reducer rejects the canonical
    sides, [simplify_eq] reports a conflict to the host, justified by the
    e-node pairs of the equation's own dependency together with the
    canonicalization witnesses, and answers true; the frame is left as it
    is, and the step of [pre_process_eqs] that follows drops the
    equation. *)
Theorem simplify_eq_conflict (fuel : nat) (l r : expr) (D : enode_pair_dependency) st
    (lh rh : expr) (d1 d2 : enode_pair_dependency) st1 st2 :
  canonize fuel l D st = Some (lh, d1, st1) ->
  canonize fuel r d1 st1 = Some (rh, d2, st2) ->
  reduce_eq lh rh = None ->
  let js := ext_theory_conflict_justification [] (linearize d2) in
  simplify_eq fuel l r D st = Some (true, set_ctx (ctx_set_conflict js (ctx st2)) st2) /\
  linearize D ⊆ linearize d2 /\
  m_eqs st2 = m_eqs st /\
  forall i, m_eqs st !! i = Some (l, r, D) ->
    exists i' st3,
      remove_eq i (set_ctx (ctx_set_conflict js (ctx st2)) st2) = Some (i', st3) /\
      m_eqs st3 ≡ₚ delete i (m_eqs st).
Proof.
  intros Ec1 Ec2 Er js.
  unfold simplify_eq. rewrite Ec1. cbn [mbind option_bind]. rewrite Ec2.
  cbn [mbind option_bind]. rewrite Er.
  apply canonize_canon_run in Ec1 as ([Ho1 _] & Hd1 & _).
  apply canonize_canon_run in Ec2 as ([Ho2 _] & Hd2 & _).
  assert (Heqs : m_eqs st2 = m_eqs st) by (unfold outside_rep in Ho1, Ho2; congruence).
  split; [reflexivity|]. split; [etrans; eassumption|]. split; [exact Heqs|].
  intros i Hi.
  destruct (remove_eq_deletes i (set_ctx (ctx_set_conflict js (ctx st2)) st2) (l, r, D))
    as (i' & st3 & Hrm & Hp).
  { cbn. rewrite Heqs. exact Hi. }
  exists i', st3. split; [exact Hrm|]. rewrite Hp. cbn. rewrite Heqs. reflexivity.
Qed.

Lemma pre_process_eqs_loop_empty (fuel : nat) (sos : bool) (i : nat) (change : bool) st :
  m_eqs st = [] -> pre_process_eqs_loop fuel sos i change st = Some (change, st).
Proof.
  intros He. destruct fuel; cbn [pre_process_eqs_loop];
    destruct (ctx_inconsistent (ctx st)); try reflexivity; rewrite He; reflexivity.
Qed.

Lemma simplify_and_solve_eqs_empty (fuel : nat) st :
  m_eqs st = [] -> simplify_and_solve_eqs (S fuel) st = Some (false, st).
Proof.
  intros He. unfold simplify_and_solve_eqs, simplify_eqs, pre_process_eqs.
  rewrite pre_process_eqs_loop_empty by exact He. cbn [mbind option_bind solve_loop].
  destruct (ctx_inconsistent (ctx st)); [reflexivity|].
  unfold solve_basic_eqs, pre_process_eqs.
  rewrite pre_process_eqs_loop_empty by exact He. reflexivity.
Qed.

(** X21.  Empty input: with no inequation recorded and no equation pending,
    [final_check_eh] leaves the state alone and answers continue if the
    host is inconsistent, give-up if the incompleteness flag is set, and
    done otherwise. *)
Theorem final_check_eh_nothing_pending (fuel : nat) st :
  m_ineqs st = [] ->
  m_eqs st = [] ->
  final_check_eh (S fuel) st =
    Some (if ctx_inconsistent (ctx st) then FC_CONTINUE
          else if m_incomplete st then FC_GIVEUP else FC_DONE, st).
Proof.
  intros Hi He. unfold final_check_eh, check_ineqs. rewrite Hi.
  cbn [check_ineqs_loop mbind option_bind negb].
  rewrite simplify_and_solve_eqs_empty by exact He. cbn [mbind option_bind].
  destruct (ctx_inconsistent (ctx st)) eqn:Ec; [reflexivity|].
  unfold branch_variable. rewrite He. cbn [length seq branch_variable_loop split_variable].
  rewrite Ec, He. cbn. destruct (m_incomplete st); reflexivity.
Qed.

End Solving.

Lemma canonize_changes_solution_map_only_witness :
  outside_rep st_ineqs = outside_rep st_ineqs /\
  rep_ext (m_rep st_ineqs) (m_rep st_ineqs) /\
  linearize dep_yz ⊆ linearize (mk_join dep_yz dep_xy) /\
  (m_model_completion st_ineqs = false -> ctx st_ineqs = ctx st_ineqs).
Proof.
  apply (canonize_changes_solution_map_only 2 var_x dep_yz st_ineqs var_y).
  vm_compute. reflexivity.
Defined.

Lemma simplify_and_solve_eqs_no_change_witness :
  outside_rep st_stuck = outside_rep st_stuck /\ rep_ext (m_rep st_stuck) (m_rep st_stuck).
Proof.
  apply (simplify_and_solve_eqs_no_change 5 st_stuck st_stuck). vm_compute. reflexivity.
Defined.

Lemma simplify_eq_conflict_witness :
  let l := mk_string "a" in
  let r := mk_string "b" in
  let js := ext_theory_conflict_justification [] (linearize dep_xy) in
  simplify_eq 1 l r dep_xy st_clash
    = Some (true, set_ctx (ctx_set_conflict js (ctx st_clash)) st_clash) /\
  linearize dep_xy ⊆ linearize dep_xy /\
  m_eqs st_clash = m_eqs st_clash /\
  forall i, m_eqs st_clash !! i = Some (l, r, dep_xy) ->
    exists i' st3,
      remove_eq i (set_ctx (ctx_set_conflict js (ctx st_clash)) st_clash) = Some (i', st3) /\
      m_eqs st3 ≡ₚ delete i (m_eqs st_clash).
Proof.
  refine (simplify_eq_conflict 1 (mk_string "a") (mk_string "b") dep_xy st_clash
            (mk_string "a") (mk_string "b") dep_xy dep_xy st_clash st_clash _ _ _).
  - vm_compute. reflexivity.
  - vm_compute. reflexivity.
  - reflexivity.
Defined.

Lemma final_check_eh_nothing_pending_witness :
  final_check_eh 1 (init blank) =
    Some (if ctx_inconsistent (ctx (init blank)) then FC_CONTINUE
          else if m_incomplete (init blank) then FC_GIVEUP else FC_DONE, init blank).
Proof. exact (final_check_eh_nothing_pending 0 (init blank) eq_refl eq_refl). Defined.

(** *** Branching: [branch_variable] *)

Section RoundRobin.
Context {C : Type} `{SmtContext C} `{Rewriter} `{AstIds}.
Implicit Type st : theory_seq C.

Lemma rotate_onto (sz h k : nat) : k < sz -> exists j, j < sz /\ (j + h) mod sz = k.
Proof.
  intros Hk. exists ((k + (sz - h mod sz)) mod sz).
  split; [apply Nat.mod_upper_bound; lia|].
  rewrite Nat.Div0.add_mod_idemp_l.
  pose proof (Nat.mod_upper_bound h sz ltac:(lia)) as Hm.
  pose proof (Nat.div_mod_eq h sz) as Hd.
  replace (k + (sz - h mod sz) + h) with (k + (1 + h / sz) * sz) by nia.
  rewrite Nat.Div0.mod_add. apply Nat.mod_small, Hk.
Qed.

Lemma proposed_keeps (l c : expr) st :
  m_eqs (proposed l c st) = m_eqs st /\
  m_branch_variable_head (proposed l c st) = m_branch_variable_head st.
Proof. unfold proposed. destruct (ctx_e_internalized (ctx st) c); auto. Qed.

Lemma branch_variable_loop_spec (sz : nat) (idx : list nat) st (b : bool) st' :
  branch_variable_loop sz idx st = (b, st') ->
  (forall i, i ∈ idx -> is_Some (m_eqs st !! ((i + m_branch_variable_head st) mod sz))) ->
  if b then
    exists pre i post,
      idx = pre ++ i :: post /\
      (forall j, j ∈ pre -> offers st ((j + m_branch_variable_head st) mod sz) = false) /\
      offers st ((i + m_branch_variable_head st) mod sz) = true /\
      m_branch_variable_head st' = (i + m_branch_variable_head st) mod sz /\
      m_eqs st' = m_eqs st
  else
    (forall j, j ∈ idx -> offers st ((j + m_branch_variable_head st) mod sz) = false) /\
    st' = st.
Proof.
  induction idx as [|i idx IH]; intros E Hin; cbn [branch_variable_loop] in E.
  - injection E as <- <-. split; [|reflexivity]. intros j Hj. apply elem_of_nil in Hj. tauto.
  - destruct (Hin i) as [[[l r] d] Hk]; [left|]. unfold pending_eq in *. rewrite Hk in E.
    destruct (match get_concat l with
              | [] => (false, st)
              | l0 :: _ => find_branch_candidate l0 (get_concat r) st
              end) as [b1 st1] eqn:E1.
    destruct b1.
    + injection E as <- <-. exists [], i, idx. split; [reflexivity|].
      split; [intros j Hj; apply elem_of_nil in Hj; tauto|].
      split; [unfold offers, pending_eq; rewrite Hk; destruct (get_concat l);
              [discriminate|rewrite E1; reflexivity]|].
      split; [reflexivity|]. cbn.
      destruct (get_concat l) as [|l0 ls]; [discriminate|].
      apply find_branch_candidate_true in E1 as [c ->]. apply proposed_keeps.
    + assert (st1 = st) as ->.
      { destruct (get_concat l); [congruence|]. eapply find_branch_candidate_false, E1. }
      destruct (match get_concat r with
                | [] => (false, st)
                | r0 :: _ => find_branch_candidate r0 (get_concat l) st
                end) as [b2 st2] eqn:E2.
      destruct b2.
      * injection E as <- <-. exists [], i, idx. split; [reflexivity|].
        split; [intros j Hj; apply elem_of_nil in Hj; tauto|].
        split.
        { unfold offers, pending_eq. rewrite Hk. destruct (get_concat r); [discriminate|].
          rewrite E2. apply orb_true_r. }
        split; [reflexivity|]. cbn.
        destruct (get_concat r) as [|r0 rs]; [discriminate|].
        apply find_branch_candidate_true in E2 as [c ->]. apply proposed_keeps.
      * assert (st2 = st) as ->.
        { destruct (get_concat r); [congruence|]. eapply find_branch_candidate_false, E2. }
        assert (Hoff : offers st ((i + m_branch_variable_head st) mod sz) = false).
        { unfold offers, pending_eq. rewrite Hk.
          destruct (get_concat l); destruct (get_concat r);
            rewrite ?E1, ?E2; reflexivity. }
        specialize (IH E (fun j Hj => Hin j (list_elem_of_further _ _ _ Hj))).
        destruct b.
        -- destruct IH as (pre & i' & post & -> & Hpre & Hi' & Hh & He).
           exists (i :: pre), i', post. split; [reflexivity|].
           split; [|auto]. intros j Hj. apply elem_of_cons in Hj as [->|Hj]; auto.
        -- destruct IH as [Hall ->]. split; [|reflexivity].
           intros j Hj. apply elem_of_cons in Hj as [->|Hj]; auto.
Qed.

(** X22.  [branch_variable] goes through the pending equations round-robin,
    starting at the position it stopped at the last time.  When it returns
    true, the equation it stopped at is the first in that order that
    offers a case split, its position is the new start (an index into the
    frame), and the frame is unchanged; when it returns false no equation
    of the frame offers a case split and nothing has changed. *)
Theorem branch_variable_round_robin st (b : bool) st' :
  branch_variable st = (b, st') ->
  let sz := length (m_eqs st) in
  let h := m_branch_variable_head st in
  if b then
    exists i,
      i < sz /\
      (forall j, j < i -> offers st ((j + h) mod sz) = false) /\
      offers st ((i + h) mod sz) = true /\
      m_branch_variable_head st' = (i + h) mod sz /\
      m_branch_variable_head st' < length (m_eqs st') /\
      m_eqs st' = m_eqs st
  else
    (forall k, k < sz -> offers st k = false) /\ st' = st.
Proof.
  intros E sz h. unfold branch_variable in E. fold sz in E.
  apply branch_variable_loop_spec in E.
  - destruct b.
    + destruct E as (pre & i & post & Hidx & Hpre & Hi & Hh & He).
      assert (Hlen : i = length pre /\ length pre < sz).
      { assert (Hl : seq 0 sz !! length pre = Some i)
          by (rewrite Hidx; apply list_lookup_middle; reflexivity).
        apply lookup_seq in Hl. cbn in Hl. lia. }
      destruct Hlen as [-> Hlt].
      exists (length pre). split; [exact Hlt|]. split.
      * intros j Hj. apply Hpre.
        assert (Hl : seq 0 sz !! j = Some j) by (apply lookup_seq; lia).
        rewrite Hidx, lookup_app_l in Hl by lia. eapply list_elem_of_lookup_2, Hl.
      * split; [exact Hi|]. split; [exact Hh|]. split; [|exact He].
        rewrite Hh, He. apply Nat.mod_upper_bound. fold sz. lia.
    + destruct E as [Hall ->]. split; [|reflexivity].
      intros k Hk. destruct (rotate_onto sz h k Hk) as (j & Hj & <-).
      apply Hall. apply elem_of_seq. lia.
  - intros i Hi. apply elem_of_seq in Hi. apply lookup_lt_is_Some.
    apply Nat.mod_upper_bound. fold sz. lia.
Qed.

End RoundRobin.

Lemma branch_variable_round_robin_witness :
  exists i,
    i < length (m_eqs st_x_eq_z) /\
    (forall j, j < i ->
       offers st_x_eq_z ((j + m_branch_variable_head st_x_eq_z) mod length (m_eqs st_x_eq_z))
       = false) /\
    offers st_x_eq_z ((i + m_branch_variable_head st_x_eq_z) mod length (m_eqs st_x_eq_z))
    = true /\
    m_branch_variable_head (branch_variable st_x_eq_z).2
    = (i + m_branch_variable_head st_x_eq_z) mod length (m_eqs st_x_eq_z) /\
    m_branch_variable_head (branch_variable st_x_eq_z).2
    < length (m_eqs (branch_variable st_x_eq_z).2) /\
    m_eqs (branch_variable st_x_eq_z).2 = m_eqs st_x_eq_z.
Proof.
  apply (branch_variable_round_robin st_x_eq_z true (branch_variable st_x_eq_z).2).
  destruct (branch_variable st_x_eq_z) as [b st'] eqn:E.
  assert (Hb : (branch_variable st_x_eq_z).1 = true) by (vm_compute; reflexivity).
  rewrite E in Hb. cbn in Hb. subst b. reflexivity.
Defined.

(** *** Model values: [mk_value] *)

Section ModelValues.
Context {C : Type} `{SmtContext C} `{Rewriter} `{AstIds}.
Implicit Type st : theory_seq C.

Lemma var_heads (x : expr) :
  is_var x = true ->
  is_concat x = None /\ is_empty x = false /\ is_string x = None /\ is_eq x = None /\
  is_prefix x = None /\ is_suffix x = None /\ is_contains x = None.
Proof.
  destruct x as [[n r|k r|s0|n r|k|k] args]; try discriminate; intros _; repeat split.
Qed.

Lemma string_heads (v : expr) (s : string) :
  is_string v = Some s -> is_concat v = None /\ is_var v = false.
Proof.
  destruct v as [[n r|k r|s0|n r|k|k] args]; try discriminate. intros _. split; reflexivity.
Qed.

(** X23.  Model values are memoized.  For a variable [x] without a
    solution, [mk_value] asks the value factory once, records the literal
    it got as the solution of [x] (under the empty dependency) and returns
    its rewritten form; the model-completion switch is back to what it was.
    A second [mk_value] of [x] returns the same value without asking the
    factory again. *)
Theorem mk_value_memoizes (fuel : nat) (x val : expr) (s : string) (c' : C) st :
  is_var x = true ->
  solution_map.m_map (m_rep st) !! x = None ->
  solution_map.m_map (m_rep st) !! val = None ->
  factory_get_fresh_value (get_sort x) (ctx st) = (Some val, c') ->
  is_string val = Some s ->
  exists st1,
    mk_value (S (S fuel)) x st = Some (m_rewrite val, st1) /\
    st1 = set_m_rep (solution_map.update x val None (m_rep st))
            (set_ctx (factory_add_trail (m_rewrite val) c') st) /\
    mk_value (S (S fuel)) x st1
      = Some (m_rewrite val, on_ctx (factory_add_trail (m_rewrite val)) st1).
Proof.
  intros Hv Hx Hval Hf Hs.
  destruct (var_heads x Hv) as (Hc1 & Hc2 & Hc3 & Hc4 & Hc5 & Hc6 & Hc7).
  destruct (string_heads val s Hs) as [Hs1 Hs2].
  assert (Hne : x <> val) by (intros ->; congruence).
  eexists. split; [|split; [reflexivity|]].
  - unfold mk_value, canonize. cbn [expand]. unfold solution_map.find.
    rewrite (find_loop_chain _ x x [] (S fuel) None 0); [|apply chain_end, Hx|cbn; lia].
    cbn [mbind option_bind foldl length Nat.add].
    replace (1 <? 0) with false by reflexivity.
    rewrite Hc1, Hc2, Hc3, Hc4, Hc5, Hc6, Hc7. cbn [orb bool_decide].
    rewrite bool_decide_eq_false_2 by (intros [? ?]; discriminate).
    cbn [m_model_completion set_m_rep set_m_model_completion andb]. rewrite Hv.
    change (ctx (set_m_rep (m_rep (set_m_model_completion true st))
                   (set_m_model_completion true st))) with (ctx st).
    rewrite Hf. cbn [mbind option_bind]. destruct st; reflexivity.
  - unfold mk_value, canonize. cbn [expand]. unfold solution_map.find.
    assert (Hm : solution_map.m_map (solution_map.update x val None (m_rep st))
                 = <[x := (val, None)]> (solution_map.m_map (m_rep st))).
    { unfold solution_map.update. rewrite Hx. reflexivity. }
    cbn [m_rep set_m_rep set_m_model_completion].
    rewrite (find_loop_chain _ x val [None] (S fuel) None 0).
    + cbn [mbind option_bind foldl length Nat.add mk_join].
      replace (1 <? 1) with false by reflexivity.
      rewrite Hs1. cbn [set_m_rep]. rewrite Hs.
      replace (is_empty val || bool_decide (is_Some (Some s))) with true
        by (symmetry; apply orb_true_iff; right; apply bool_decide_eq_true; eauto).
      cbn [mbind option_bind]. destruct st; reflexivity.
    + rewrite Hm. eapply chain_edge; [apply lookup_insert_eq|].
      apply chain_end. rewrite lookup_insert_ne by exact Hne. exact Hval.
    + cbn. lia.
Qed.

End ModelValues.

Lemma mk_value_memoizes_witness :
  exists st1,
    @mk_value recorder valued_context plain_rewriter 2 var_x (init blank)
      = Some (m_rewrite (mk_string "a"), st1) /\
    st1 = set_m_rep (solution_map.update var_x (mk_string "a") None (m_rep (init blank)))
            (set_ctx (@factory_add_trail recorder valued_context
                        (m_rewrite (mk_string "a")) blank) (init blank)) /\
    @mk_value recorder valued_context plain_rewriter 2 var_x st1
      = Some (m_rewrite (mk_string "a"),
              on_ctx (@factory_add_trail recorder valued_context (m_rewrite (mk_string "a")))
                st1).
Proof.
  exact (@mk_value_memoizes recorder valued_context plain_rewriter
           0 var_x (mk_string "a") "a" blank (init blank)
           eq_refl eq_refl eq_refl eq_refl eq_refl).
Defined.

(** *** Unit solving: [solve_unit_eq] *)

Section UnitSolving.
Context {C : Type} `{SmtContext C} `{Rewriter} `{AstIds}.
Implicit Type st : theory_seq C.

Lemma add_solution_lookup (x t : expr) (d : enode_pair_dependency) st :
  solution_map.m_map (m_rep (add_solution x t d st)) !! x = Some (t, d).
Proof.
  assert (Hm : m_rep (add_solution x t d st) = solution_map.update x t d (m_rep st)).
  { unfold add_solution. destruct (_ && _); reflexivity. }
  rewrite Hm. unfold solution_map.update.
  destruct (solution_map.m_map (m_rep st) !! x); cbn; apply lookup_insert_eq.
Qed.

(** X24.  [solve_unit_eq] on the canonical sides [lh], [rh] of a pending
    equation does one of three things.  Identical sides: the equation is
    reported solved and nothing is recorded.  Otherwise, if one side is a
    variable that passes the occurs check against the other side (the left
    side is tried first), that variable is bound to the other side in the
    solution map, under the equation's dependency joined with the
    canonicalization witnesses.  Otherwise the equation is reported
    unsolved and nothing is recorded.  A variable is never bound to itself
    or to a term in which the occurs check finds it. *)
Theorem solve_unit_eq_cases (fuel : nat) (l r : expr) (D : enode_pair_dependency) st
    (lh rh : expr) (d1 d2 : enode_pair_dependency) st1 st2 :
  canonize fuel l D st = Some (lh, d1, st1) ->
  canonize fuel r d1 st1 = Some (rh, d2, st2) ->
  linearize D ⊆ linearize d2 /\
  ((lh = rh /\ solve_unit_eq fuel l r D st = Some (true, st2)) \/
   (exists x t,
      ((x = lh /\ t = rh) \/
       (x = rh /\ t = lh /\ is_var lh && negb (occurs lh rh) = false)) /\
      x <> t /\ is_var x = true /\ occurs x t = false /\
      solve_unit_eq fuel l r D st = Some (true, add_solution x t d2 st2) /\
      solution_map.m_map (m_rep (add_solution x t d2 st2)) !! x = Some (t, d2)) \/
   (lh <> rh /\
    is_var lh && negb (occurs lh rh) = false /\
    is_var rh && negb (occurs rh lh) = false /\
    solve_unit_eq fuel l r D st = Some (false, st2))).
Proof.
  intros Ec1 Ec2. unfold solve_unit_eq. rewrite Ec1. cbn [mbind option_bind]. rewrite Ec2.
  cbn [mbind option_bind].
  apply canonize_canon_run in Ec1 as (_ & Hd1 & _).
  apply canonize_canon_run in Ec2 as (_ & Hd2 & _).
  split; [etrans; eassumption|].
  destruct (bool_decide (lh = rh)) eqn:E; [apply bool_decide_eq_true in E; auto|].
  apply bool_decide_eq_false in E. right.
  destruct (is_var lh && negb (occurs lh rh)) eqn:E1.
  - left. exists lh, rh. apply andb_true_iff in E1 as [Hv Ho].
    apply negb_true_iff in Ho. repeat split; auto using add_solution_lookup.
  - destruct (is_var rh && negb (occurs rh lh)) eqn:E2.
    + left. exists rh, lh. apply andb_true_iff in E2 as [Hv Ho].
      apply negb_true_iff in Ho. repeat split; auto using add_solution_lookup.
    + right. auto.
Qed.

End UnitSolving.

Lemma solve_unit_eq_cases_witness :
  let l := var_x in
  let r := mk_string "a" in
  linearize dep_xy ⊆ linearize dep_xy /\
  ((l = r /\ solve_unit_eq 1 l r dep_xy st_unit = Some (true, st_unit)) \/
   (exists x t,
      ((x = l /\ t = r) \/
       (x = r /\ t = l /\ is_var l && negb (occurs l r) = false)) /\
      x <> t /\ is_var x = true /\ occurs x t = false /\
      solve_unit_eq 1 l r dep_xy st_unit = Some (true, add_solution x t dep_xy st_unit) /\
      solution_map.m_map (m_rep (add_solution x t dep_xy st_unit)) !! x = Some (t, dep_xy)) \/
   (l <> r /\
    is_var l && negb (occurs l r) = false /\
    is_var r && negb (occurs r l) = false /\
    solve_unit_eq 1 l r dep_xy st_unit = Some (false, st_unit))).
Proof.
  refine (solve_unit_eq_cases 1 var_x (mk_string "a") dep_xy st_unit
            var_x (mk_string "a") dep_xy dep_xy st_unit st_unit _ _).
  - vm_compute. reflexivity.
  - vm_compute. reflexivity.
Defined.

(** *** Assignments: [assign_eq] *)

Section Assign.
Context {C : Type} `{SmtContext C} `{Rewriter} `{AstIds}.
Implicit Type st : theory_seq C.

Lemma get_concat_mk_concat (a b : expr) :
  get_concat (mk_concat a b) = get_concat a ++ get_concat b.
Proof. reflexivity. Qed.

Lemma get_concat_skolem (name : string) (e1 : expr) (e2 : option expr) :
  get_concat (mk_skolem name e1 e2) = [mk_skolem name e1 e2].
Proof. reflexivity. Qed.

(** X25.  An atom assigned true is turned into one equation for the host
    and changes nothing on the solver's side: [prefix(e1, e2)] gives
    [e1 ⌢ p = e2], [suffix(e1, e2)] gives [s ⌢ e1 = e2] and
    [contains(e1, e2)] gives [l ⌢ e1 ⌢ r = e2], over skolem variables that
    depend on [e1] and [e2] only, justified by the literal of the atom.
    Any other atom (a regular-expression membership among them) is not
    handled.  An atom assigned false is appended to the inequations under
    a trail entry, and the host is not involved. *)
Theorem assign_eq_true_tells_host (v : bool_var) st :
  (forall st', assign_eq v true st = Some st' ->
     exists e1 e2 n1 skolems,
       (is_prefix v = Some (e1, e2) \/ is_suffix v = Some (e1, e2) \/
        is_contains v = Some (e1, e2)) /\
       st' = propagate_eq_lit v n1 e2 st /\
       set_ctx (ctx st) st' = st /\
       Forall (fun f => is_var f = true /\ is_left_select f = None /\
                        is_right_select f = None /\
                        exists name, f = mk_skolem name e1 (Some e2)) skolems /\
       ((is_prefix v = Some (e1, e2) /\
         exists p, skolems = [p] /\ get_concat n1 = get_concat e1 ++ [p]) \/
        (is_prefix v = None /\ is_suffix v = Some (e1, e2) /\
         exists s, skolems = [s] /\ get_concat n1 = [s] ++ get_concat e1) \/
        (is_prefix v = None /\ is_suffix v = None /\ is_contains v = Some (e1, e2) /\
         exists l r, skolems = [l; r] /\ l <> r /\
                     get_concat n1 = [l] ++ get_concat e1 ++ [r]))) /\
  (is_prefix v = None -> is_suffix v = None -> is_contains v = None ->
   assign_eq v true st = None) /\
  assign_eq v false st
    = Some (set_m_ineqs (m_ineqs st ++ [v]) (trail_push push_back_vector_ineqs st)).
Proof.
  split; [|split].
  - intros st'. unfold assign_eq.
    destruct (is_prefix v) as [[e1 e2]|] eqn:Ep.
    { intros [= <-]. exists e1, e2, (mk_concat e1 (mk_skolem m_prefix_sym e1 (Some e2))),
        [mk_skolem m_prefix_sym e1 (Some e2)].
      split; [auto|]. split; [reflexivity|]. split; [destruct st; reflexivity|].
      split; [repeat constructor; eexists; reflexivity|].
      left. split; [reflexivity|]. eexists. split; reflexivity. }
    destruct (is_suffix v) as [[e1 e2]|] eqn:Es.
    { intros [= <-]. exists e1, e2, (mk_concat (mk_skolem m_suffix_sym e1 (Some e2)) e1),
        [mk_skolem m_suffix_sym e1 (Some e2)].
      split; [auto|]. split; [reflexivity|]. split; [destruct st; reflexivity|].
      split; [repeat constructor; eexists; reflexivity|].
      right. left. split; [reflexivity|]. split; [reflexivity|].
      eexists. split; reflexivity. }
    destruct (is_contains v) as [[e1 e2]|] eqn:Ec; [|discriminate].
    intros [= <-].
    exists e1, e2,
      (mk_concat (mk_concat (mk_skolem m_contains_left_sym e1 (Some e2)) e1)
         (mk_skolem m_contains_right_sym e1 (Some e2))),
      [mk_skolem m_contains_left_sym e1 (Some e2);
       mk_skolem m_contains_right_sym e1 (Some e2)].
    split; [auto|]. split; [reflexivity|]. split; [destruct st; reflexivity|].
    split; [repeat constructor; eexists; reflexivity|].
    right. right. split; [reflexivity|]. split; [reflexivity|]. split; [reflexivity|].
    eexists _, _. split; [reflexivity|]. split; [discriminate|].
    rewrite !get_concat_mk_concat, !get_concat_skolem, <- app_assoc. reflexivity.
  - intros Ep Es Ec. unfold assign_eq. rewrite Ep, Es, Ec. reflexivity.
  - reflexivity.
Qed.

End Assign.

(** *** The trails are complete logs *)

Section CompleteLogs.
Context {C : Type} `{SmtContext C} `{Rewriter} `{AstIds}.
Implicit Type st : theory_seq C.

(** X26.  [exclusion_table::update] records a pair at most once and never a
    term against itself, and with distinct identifiers the order of the
    two terms does not matter. *)
Theorem exclusion_update_laws (e r : expr) (s : exclusion_table.t) :
  exclusion_table.update e e s = s /\
  exclusion_table.update e r (exclusion_table.update e r s) = exclusion_table.update e r s /\
  (get_id e <> get_id r -> exclusion_table.update r e s = exclusion_table.update e r s).
Proof.
  split; [|split].
  - unfold exclusion_table.update.
    destruct (exclusion_table.normalize e e) as [a b] eqn:En.
    destruct (normalize_ordered _ _ _ _ En) as [_ [[-> ->]|[-> ->]]];
      rewrite bool_decide_eq_false_2 by (intros Hne; apply Hne; reflexivity); reflexivity.
  - unfold exclusion_table.update.
    destruct (exclusion_table.normalize e r) as [a b] eqn:En.
    destruct (bool_decide (a ≠ b) && negb (bool_decide ((a, b) ∈ exclusion_table.m_table s)))
      eqn:E; [|rewrite E; reflexivity].
    cbn [exclusion_table.m_table].
    rewrite (bool_decide_eq_true_2 ((a, b) ∈ {[(a, b)]} ∪ exclusion_table.m_table s))
      by set_solver.
    rewrite andb_false_r. reflexivity.
  - intros Hid.
    assert (Hn : exclusion_table.normalize r e = exclusion_table.normalize e r).
    { unfold exclusion_table.normalize.
      destruct (get_id e <? get_id r)%N eqn:E1, (get_id r <? get_id e)%N eqn:E2;
        try reflexivity.
      - apply N.ltb_lt in E1, E2. lia.
      - apply N.ltb_ge in E1, E2. exfalso. apply Hid. lia. }
    unfold exclusion_table.update. rewrite Hn. reflexivity.
Qed.

Lemma logs_run (fuel : nat) (script : list step) st st' :
  well_scoped st ->
  foldr solution_map.undo (solution_map.m_map (m_rep st)) (solution_map.m_updates (m_rep st))
    = ∅ ->
  foldr undo_guarded (guarded st) (ts_trail (m_trail_stack st)) = (false, [], []) ->
  run fuel script st = Some st' ->
  foldr solution_map.undo (solution_map.m_map (m_rep st')) (solution_map.m_updates (m_rep st'))
    = ∅ /\
  foldr undo_guarded (guarded st') (ts_trail (m_trail_stack st')) = (false, [], []).
Proof.
  revert st. induction script as [|s script IH]; intros st Hw Hr Hg E; cbn [run] in E.
  - injection E as <-. auto.
  - destruct (run_step fuel s st) as [st1|] eqn:E1; [|discriminate].
    cbn [mbind option_bind] in E.
    assert (Hw1 : well_scoped st1) by (eapply (well_scoped_run fuel [s]); [exact Hw|];
      cbn [run]; rewrite E1; reflexivity).
    cut (foldr solution_map.undo (solution_map.m_map (m_rep st1))
           (solution_map.m_updates (m_rep st1)) = ∅ /\
         foldr undo_guarded (guarded st1) (ts_trail (m_trail_stack st1)) = (false, [], [])).
    { intros [Hr1 Hg1]. eapply IH; eassumption. }
    destruct s as [o| |n]; cbn [run_step] in E1.
    + apply ext_run_op in E1 as ((_ & suf1 & Hu1 & Hm1) & _ & _ & (_ & suf3 & Hu3 & Hm3) & _).
      rewrite Hu1, Hu3, !foldr_app, Hm1, Hm3. auto.
    + injection E1 as <-. cbn. rewrite foldr_app. cbn. auto.
    + destruct (decide (n = 0)) as [->|Hn].
      * rewrite pop_scope_eh_0 in E1. injection E1 as <-. auto.
      * destruct (decide (n <= length (m_saved st))) as [Hle|Hgt];
          [|rewrite pop_scope_eh_none in E1 by (assumption || lia); discriminate].
        destruct (pop_scope_eh_some n st Hw) as (a & b & c & fr & _ & _ & _ & _ & Hp);
          [lia|exact Hle|].
        cbv zeta in Hp. rewrite Hp in E1. injection E1 as <-. cbn. split.
        -- rewrite <- foldr_app, take_drop. exact Hr.
        -- pose proof (foldr_undo_trail_guarded (drop c (ts_trail (m_trail_stack st))) st)
             as Hf.
           unfold guarded in Hf at 1. unfold guarded at 1. cbn. rewrite Hf.
           rewrite <- foldr_app, take_drop. exact Hg.
Qed.

(** X27.  The trails are complete logs of the scoped stores: on every state
    the solver can be in, undoing the whole update trail of the solution
    map leaves the empty map, and undoing the whole trail stack leaves the
    incompleteness flag off and the axiom queue and the inequation list
    empty. *)
Theorem trails_are_complete_logs (fuel : nat) (script : list step) (c : C) st :
  run fuel script (init c) = Some st ->
  foldr solution_map.undo (solution_map.m_map (m_rep st)) (solution_map.m_updates (m_rep st))
    = ∅ /\
  foldr undo_guarded (guarded st) (ts_trail (m_trail_stack st)) = (false, [], []).
Proof. apply logs_run; [apply well_scoped_init|reflexivity|reflexivity]. Qed.

End CompleteLogs.

Lemma trails_are_complete_logs_witness :
  foldr solution_map.undo (solution_map.m_map (m_rep st_two_open))
    (solution_map.m_updates (m_rep st_two_open)) = ∅ /\
  foldr undo_guarded (guarded st_two_open) (ts_trail (m_trail_stack st_two_open))
    = (false, [], []).
Proof.
  exact (trails_are_complete_logs 3 script_two_open host_x_yz st_two_open st_two_open_run).
Defined.

(** *** Where dependencies come from *)

Section Provenance.
Context {C : Type} `{SmtContext C} `{Rewriter} `{AstIds}.
Implicit Type st : theory_seq C.

Lemma chain_deps (m : gmap expr (expr * enode_pair_dependency)) (e r : expr)
    (ws : list enode_pair_dependency) (w : enode_pair_dependency) :
  chain m e ws r -> w ∈ ws -> exists k v, m !! k = Some (v, w).
Proof.
  induction 1 as [r Hr|e r0 d0 ws t He _ IH]; intros Hw.
  - apply elem_of_nil in Hw. tauto.
  - apply elem_of_cons in Hw as [->|Hw]; [eauto|auto].
Qed.

Lemma recorded_insert (m : gmap expr (expr * enode_pair_dependency)) (e r : expr)
    (d : enode_pair_dependency) (p : enode_pair) :
  (forall q, q ∈ linearize d -> recorded m q) ->
  recorded (<[e := (r, d)]> m) p -> recorded m p.
Proof.
  intros Hd (k & v & d' & Hk & Hp). destruct (decide (k = e)) as [->|Hne].
  - rewrite lookup_insert_eq in Hk. injection Hk as <- <-. auto.
  - rewrite lookup_insert_ne in Hk by congruence. exists k, v, d'. auto.
Qed.

Lemma update_map (e r : expr) (d : enode_pair_dependency) (s : solution_map.t) :
  solution_map.m_map (solution_map.update e r d s) = <[e := (r, d)]> (solution_map.m_map s).
Proof. unfold solution_map.update. destruct (solution_map.m_map s !! e); reflexivity. Qed.

Lemma find_provenance (fuel : nat) (e r : expr) (d : enode_pair_dependency)
    (s s' : solution_map.t) :
  solution_map.find fuel e s = Some (r, d, s') ->
  (forall p, p ∈ linearize d -> recorded (solution_map.m_map s) p) /\
  (forall p, recorded (solution_map.m_map s') p -> recorded (solution_map.m_map s) p).
Proof.
  unfold solution_map.find.
  destruct (solution_map.find_loop fuel (solution_map.m_map s) e None 0)
    as [[[r0 d0] n]|] eqn:El; [|discriminate].
  cbn [mbind option_bind]. intros [= -> -> <-].
  apply find_loop_inv in El as (ws & Hc & -> & _ & _).
  assert (Hd : forall p, p ∈ linearize (foldl mk_join None ws) ->
                         recorded (solution_map.m_map s) p).
  { intros p Hp. apply linearize_foldl_join in Hp as [Hp|(w & Hw & Hp)].
    - cbn in Hp. apply elem_of_nil in Hp. tauto.
    - destruct (chain_deps _ _ _ _ _ Hc Hw) as (k & v & Hk). exists k, v, w. auto. }
  split; [exact Hd|]. intros p. destruct (1 <? n); [|auto].
  rewrite update_map. apply recorded_insert, Hd.
Qed.

Lemma expand_provenance (fuel : nat) (e : expr) (eqs : enode_pair_dependency) st
    (r : expr) (eqs' : enode_pair_dependency) st' :
  expand fuel e eqs st = Some (r, eqs', st') ->
  (forall p, p ∈ linearize eqs' ->
     p ∈ linearize eqs \/ recorded (solution_map.m_map (m_rep st)) p) /\
  (forall p, recorded (solution_map.m_map (m_rep st')) p ->
     recorded (solution_map.m_map (m_rep st)) p).
Proof.
  revert e eqs st r eqs' st'.
  induction fuel as [|fuel IH]; intros e eqs st r eqs' st' E; [discriminate|].
  cbn [expand] in E.
  destruct (solution_map.find fuel e (m_rep st)) as [[[e0 deps] rep]|] eqn:Ef; [|discriminate].
  cbn [mbind option_bind] in E.
  apply find_provenance in Ef as [Hd Hm].
  assert (Hj : forall p, p ∈ linearize (mk_join eqs deps) ->
                         p ∈ linearize eqs \/ recorded (solution_map.m_map (m_rep st)) p).
  { intros p Hp. apply linearize_mk_join in Hp as [Hp|Hp]; auto. }
  assert (X2 : forall (mk : expr -> expr -> expr) e1 e2,
             ('(r1, eqs1, st1) ← expand fuel e1 (mk_join eqs deps) (set_m_rep rep st);
              '(r2, eqs2, st2) ← expand fuel e2 eqs1 st1;
              Some (mk r1 r2, eqs2, st2)) = Some (r, eqs', st') ->
             (forall p, p ∈ linearize eqs' ->
                p ∈ linearize eqs \/ recorded (solution_map.m_map (m_rep st)) p) /\
             (forall p, recorded (solution_map.m_map (m_rep st')) p ->
                recorded (solution_map.m_map (m_rep st)) p)).
  { intros mk e1 e2 E2.
    destruct (expand fuel e1 (mk_join eqs deps) (set_m_rep rep st))
      as [[[r1 eqs1] st1]|] eqn:E21; [|discriminate].
    cbn [mbind option_bind] in E2.
    destruct (expand fuel e2 eqs1 st1) as [[[r2 eqs2] st2]|] eqn:E22; [|discriminate].
    cbn [mbind option_bind] in E2. injection E2 as <- <- <-.
    apply IH in E21 as [Hd1 Hm1]. apply IH in E22 as [Hd2 Hm2]. cbn in Hd1, Hm1. split.
    - intros p Hp. apply Hd2 in Hp as [Hp|Hp].
      + apply Hd1 in Hp as [Hp|Hp]; auto.
      + right. auto.
    - intros p Hp. auto. }
  destruct (is_concat e0) as [[e1 e2]|]; [eapply X2, E|].
  destruct (is_empty e0 || bool_decide (is_Some (is_string e0))).
  { injection E as <- <- <-. split; [exact Hj|exact Hm]. }
  destruct (is_eq e0) as [[e1 e2]|]; [eapply X2, E|].
  destruct (is_prefix e0) as [[e1 e2]|]; [eapply X2, E|].
  destruct (is_suffix e0) as [[e1 e2]|]; [eapply X2, E|].
  destruct (is_contains e0) as [[e1 e2]|]; [eapply X2, E|].
  destruct (m_model_completion (set_m_rep rep st) && is_var e0).
  - destruct (factory_get_fresh_value (get_sort e0) (ctx (set_m_rep rep st))) as [[v|] c].
    + injection E as <- <- <-. split; [exact Hj|]. intros p Hp. apply Hm.
      cbn in Hp. rewrite update_map in Hp.
      eapply recorded_insert; [|exact Hp]. intros q Hq. cbn in Hq.
      apply elem_of_nil in Hq. tauto.
    + injection E as <- <- <-. split; [exact Hj|exact Hm].
  - injection E as <- <- <-. split; [exact Hj|exact Hm].
Qed.

Lemma canonize_provenance (fuel : nat) (e : expr) (eqs : enode_pair_dependency) st
    (r : expr) (eqs' : enode_pair_dependency) st' :
  canonize fuel e eqs st = Some (r, eqs', st') ->
  (forall p, p ∈ linearize eqs' ->
     p ∈ linearize eqs \/ recorded (solution_map.m_map (m_rep st)) p) /\
  (forall p, recorded (solution_map.m_map (m_rep st')) p ->
     recorded (solution_map.m_map (m_rep st)) p).
Proof.
  unfold canonize. intros E.
  destruct (expand fuel e eqs st) as [[[r0 eqs0] st0]|] eqn:Ee; [|discriminate].
  cbn [mbind option_bind] in E. injection E as <- <- <-.
  eapply expand_provenance, Ee.
Qed.

(** X28.  The canonizer justifies its result by recorded witnesses only:
    every e-node pair of the dependency it returns comes from the
    dependency it was given or from a dependency the solution map held
    when it started, and the solution map it leaves holds no e-node pair it
    did not hold before. *)
Theorem canonize_justifies_from_solution_map (fuel : nat) (e : expr)
    (eqs : enode_pair_dependency) st (r : expr) (eqs' : enode_pair_dependency) st' :
  canonize fuel e eqs st = Some (r, eqs', st') ->
  (forall p, p ∈ linearize eqs' ->
     p ∈ linearize eqs \/ recorded (solution_map.m_map (m_rep st)) p) /\
  (forall p, recorded (solution_map.m_map (m_rep st')) p ->
     recorded (solution_map.m_map (m_rep st)) p).
Proof. apply canonize_provenance. Qed.

End Provenance.

Section NoNewDependency.
Context {C : Type} `{SmtContext C} `{Rewriter} `{AstIds}.
Implicit Type st : theory_seq C.

Lemma known_same st st' (p : enode_pair) :
  m_rep st' = m_rep st -> m_eqs st' = m_eqs st -> known st' p -> known st p.
Proof. unfold known. intros -> ->. auto. Qed.

Lemma known_two_canonize (fuel : nat) (l r : expr) (deps : enode_pair_dependency) st
    (lh rh : expr) (d1 d2 : enode_pair_dependency) st1 st2 :
  canonize fuel l deps st = Some (lh, d1, st1) ->
  canonize fuel r d1 st1 = Some (rh, d2, st2) ->
  (forall p, p ∈ linearize deps -> known st p) ->
  (forall p, p ∈ linearize d2 -> known st p) /\
  (forall p, recorded (solution_map.m_map (m_rep st2)) p ->
             recorded (solution_map.m_map (m_rep st)) p) /\
  m_eqs st2 = m_eqs st.
Proof.
  intros E1 E2 Hd.
  pose proof (canonize_canon_step _ _ _ _ _ _ _ E1) as [Ho1 _].
  pose proof (canonize_canon_step _ _ _ _ _ _ _ E2) as [Ho2 _].
  apply canonize_provenance in E1 as [Hp1 Hm1].
  apply canonize_provenance in E2 as [Hp2 Hm2].
  split; [|split].
  - intros p Hp. apply Hp2 in Hp as [Hp|Hp].
    + apply Hp1 in Hp as [Hp|Hp]; [auto|left; exact Hp].
    + left. auto.
  - auto.
  - unfold outside_rep in Ho1, Ho2. congruence.
Qed.

Lemma eq_rows_deps (lhs rhs : list expr) (d : enode_pair_dependency) (rows : list pending_eq)
    (x y : expr) (d' : enode_pair_dependency) :
  eq_rows lhs rhs d = Some rows -> (x, y, d') ∈ rows -> d' = d.
Proof.
  revert rhs rows. induction lhs as [|a lhs IH]; intros rhs rows E Hin; cbn [eq_rows] in E.
  - injection E as <-. apply elem_of_nil in Hin. tauto.
  - destruct rhs as [|b rhs]; [discriminate|].
    destruct (eq_rows lhs rhs d) as [rows0|] eqn:E0; [|discriminate].
    cbn [mbind option_bind] in E. injection E as <-.
    apply elem_of_cons in Hin as [Hin|Hin]; [congruence|]. eapply IH; eauto.
Qed.

Lemma known_simplify_eq (fuel : nat) (l r : expr) (deps : enode_pair_dependency) st
    (b : bool) st' :
  simplify_eq fuel l r deps st = Some (b, st') ->
  (forall p, p ∈ linearize deps -> known st p) ->
  forall p, known st' p -> known st p.
Proof.
  unfold simplify_eq. intros E Hd.
  destruct (canonize fuel l deps st) as [[[lh d1] st1]|] eqn:E1; [|discriminate].
  cbn [mbind option_bind] in E.
  destruct (canonize fuel r d1 st1) as [[[rh d2] st2]|] eqn:E2; [|discriminate].
  cbn [mbind option_bind] in E.
  destruct (known_two_canonize _ _ _ _ _ _ _ _ _ _ _ E1 E2 Hd) as (Hd2 & Hm & He).
  assert (K2 : forall p, known st2 p -> known st p).
  { intros p [Hp|Hp]; [left; auto|right; rewrite <- He; exact Hp]. }
  destruct (reduce_eq lh rh) as [[lhs rhs]|].
  - destruct (_ && _); [injection E as <- <-; exact K2|].
    destruct (eq_rows lhs rhs d2) as [rows|] eqn:Er; [|discriminate].
    cbn [mbind option_bind] in E. injection E as <- <-.
    intros p [Hp|(x & y & d' & Hin & Hp)]; [apply K2; left; exact Hp|].
    cbn in Hin. apply elem_of_app in Hin as [Hin|Hin].
    + apply K2. right. eauto.
    + apply (eq_rows_deps _ _ _ _ _ _ _ Er) in Hin. subst d'. auto.
  - injection E as <- <-. intros p Hp. apply K2. eapply known_same; [| |exact Hp]; reflexivity.
Qed.

Lemma known_add_solution (x t : expr) (d : enode_pair_dependency) st
    (K : enode_pair -> Prop) (p : enode_pair) :
  (forall q, q ∈ linearize d -> K q) ->
  (forall q, known st q -> K q) ->
  known (add_solution x t d st) p -> K p.
Proof.
  intros Hd HK.
  assert (Hm : m_rep (add_solution x t d st) = solution_map.update x t d (m_rep st))
    by (unfold add_solution; destruct (_ && _); reflexivity).
  assert (He : m_eqs (add_solution x t d st) = m_eqs st)
    by (unfold add_solution; destruct (_ && _); reflexivity).
  intros Hp. unfold known in Hp. rewrite Hm, He, update_map in Hp.
  destruct Hp as [(k & v & d' & Hk & Hp)|Hp]; [|apply HK; right; exact Hp].
  destruct (decide (k = x)) as [->|Hne].
  - rewrite lookup_insert_eq in Hk. injection Hk as <- <-. auto.
  - rewrite lookup_insert_ne in Hk by congruence. apply HK. left. exists k, v, d'. auto.
Qed.

Lemma known_solve_unit_eq (fuel : nat) (l r : expr) (deps : enode_pair_dependency) st
    (b : bool) st' :
  solve_unit_eq fuel l r deps st = Some (b, st') ->
  (forall p, p ∈ linearize deps -> known st p) ->
  forall p, known st' p -> known st p.
Proof.
  unfold solve_unit_eq. intros E Hd.
  destruct (canonize fuel l deps st) as [[[lh d1] st1]|] eqn:E1; [|discriminate].
  cbn [mbind option_bind] in E.
  destruct (canonize fuel r d1 st1) as [[[rh d2] st2]|] eqn:E2; [|discriminate].
  cbn [mbind option_bind] in E.
  destruct (known_two_canonize _ _ _ _ _ _ _ _ _ _ _ E1 E2 Hd) as (Hd2 & Hm & He).
  assert (K2 : forall p, known st2 p -> known st p).
  { intros p [Hp|Hp]; [left; auto|right; rewrite <- He; exact Hp]. }
  assert (KA : forall x t p, known (add_solution x t d2 st2) p -> known st p).
  { intros x t p. apply known_add_solution; assumption. }
  destruct (bool_decide (lh = rh)); [injection E as <- <-; exact K2|].
  destruct (is_var lh && negb (occurs lh rh)); [injection E as <- <-; apply KA|].
  destruct (is_var rh && negb (occurs rh lh)); injection E as <- <-; [apply KA|exact K2].
Qed.

Lemma elem_of_removelast {A : Type} (l : list A) (x : A) : x ∈ removelast l -> x ∈ l.
Proof.
  destruct l as [|a l] using rev_ind; [auto|].
  rewrite removelast_last. intros Hx. apply elem_of_app. auto.
Qed.

Lemma known_remove_eq (i : nat) st (i' : nat) st' :
  remove_eq i st = Some (i', st') -> forall p, known st' p -> known st p.
Proof.
  unfold remove_eq. intros E.
  assert (X : m_rep st' = m_rep st /\ forall e, e ∈ m_eqs st' -> e ∈ m_eqs st).
  { destruct (bool_decide _).
    - destruct (m_eqs st !! (length (m_eqs st) - 1)) as [lst|] eqn:El; [|discriminate].
      cbn [mbind option_bind] in E. injection E as <- <-. split; [reflexivity|].
      cbn. intros e He. apply elem_of_removelast in He.
      apply list_elem_of_lookup in He as [j Hj].
      destruct (decide (j = i)) as [->|Hne].
      + assert (Hlt : i < length (m_eqs st))
          by (apply lookup_lt_Some in Hj; rewrite length_insert in Hj; exact Hj).
        rewrite list_lookup_insert_eq in Hj by exact Hlt. injection Hj as <-.
        eapply list_elem_of_lookup_2, El.
      + rewrite list_lookup_insert_ne in Hj by congruence. eapply list_elem_of_lookup_2, Hj.
    - injection E as <- <-. split; [reflexivity|]. cbn. intros e. apply elem_of_removelast. }
  destruct X as [Hr He]. intros p [Hp|(l & r & d & Hin & Hp)].
  - left. rewrite <- Hr. exact Hp.
  - right. exists l, r, d. auto.
Qed.

Lemma known_pre_process_eqs_loop (fuel : nat) (sos : bool) (i : nat) (change : bool) st
    (b : bool) st' :
  pre_process_eqs_loop fuel sos i change st = Some (b, st') ->
  forall p, known st' p -> known st p.
Proof.
  revert i change st. induction fuel as [|fuel IH]; intros i change st E;
    cbn [pre_process_eqs_loop] in E.
  - destruct (ctx_inconsistent (ctx st)); [injection E as <- <-; auto|].
    destruct (m_eqs st !! i) as [[[l r] d]|]; [discriminate|].
    injection E as <- <-; auto.
  - destruct (ctx_inconsistent (ctx st)); [injection E as <- <-; auto|].
    destruct (m_eqs st !! i) as [[[l r] d]|] eqn:Ei; [|injection E as <- <-; auto].
    assert (Hd : forall p, p ∈ linearize d -> known st p).
    { intros p Hp. right. exists l, r, d. split; [|exact Hp].
      eapply list_elem_of_lookup_2, Ei. }
    destruct (if sos then simplify_eq fuel l r d st else solve_unit_eq fuel l r d st)
      as [[b1 st1]|] eqn:E1; [|discriminate].
    cbn [mbind option_bind] in E.
    assert (K1 : forall p, known st1 p -> known st p).
    { destruct sos; [eapply known_simplify_eq|eapply known_solve_unit_eq]; eassumption. }
    destruct b1.
    + destruct (remove_eq i st1) as [[i2 st2]|] eqn:E2; [|discriminate].
      cbn [mbind option_bind] in E. intros p Hp. apply K1.
      eapply known_remove_eq; [exact E2|]. eapply IH; eassumption.
    + intros p Hp. apply K1. eapply IH; eassumption.
Qed.

Lemma known_solve_loop (fuel : nat) (change : bool) st (b : bool) st' :
  solve_loop fuel change st = Some (b, st') -> forall p, known st' p -> known st p.
Proof.
  revert change st. induction fuel as [|fuel IH]; intros change st E; cbn [solve_loop] in E.
  - destruct (ctx_inconsistent (ctx st)); [injection E as <- <-; auto|discriminate].
  - destruct (ctx_inconsistent (ctx st)); [injection E as <- <-; auto|].
    destruct (solve_basic_eqs fuel st) as [[b1 st1]|] eqn:E1; [|discriminate].
    cbn [mbind option_bind] in E.
    pose proof (known_pre_process_eqs_loop _ _ _ _ _ _ _ E1) as K1.
    destruct b1; [|injection E as <- <-; exact K1].
    destruct (simplify_eqs fuel st1) as [[b2 st2]|] eqn:E2; [|discriminate].
    cbn [mbind option_bind] in E.
    pose proof (known_pre_process_eqs_loop _ _ _ _ _ _ _ E2) as K2.
    intros p Hp. apply K1, K2. eapply IH; eassumption.
Qed.

Lemma known_check_ineqs_loop (fuel : nat) (ineqs : list expr) st (b : bool) st' :
  check_ineqs_loop fuel ineqs st = Some (b, st') -> forall p, known st' p -> known st p.
Proof.
  revert st. induction ineqs as [|a ineqs IH]; intros st E; cbn [check_ineqs_loop] in E.
  - injection E as <- <-. auto.
  - destruct (canonize fuel a None st) as [[[b0 eqs] st0]|] eqn:Ec; [|discriminate].
    cbn [mbind option_bind] in E.
    pose proof (canonize_canon_step _ _ _ _ _ _ _ Ec) as [Ho _].
    apply canonize_provenance in Ec as [_ Hm].
    assert (K0 : forall p, known st0 p -> known st p).
    { intros p [Hp|Hp]; [left; auto|].
      right. replace (m_eqs st) with (m_eqs st0)
        by (unfold outside_rep in Ho; congruence). exact Hp. }
    destruct (is_true b0).
    + injection E as <- <-. intros p Hp. apply K0.
      eapply known_same; [| |exact Hp]; reflexivity.
    + intros p Hp. apply K0. eapply IH; eassumption.
Qed.

Lemma branch_variable_loop_keeps (sz : nat) (idx : list nat) st (b : bool) st' :
  branch_variable_loop sz idx st = (b, st') ->
  m_rep st' = m_rep st /\ m_eqs st' = m_eqs st.
Proof.
  revert st. induction idx as [|i idx IH]; intros st E; cbn [branch_variable_loop] in E.
  - injection E as <- <-. auto.
  - destruct (m_eqs st !! ((i + m_branch_variable_head st) mod sz)) as [[[l r] d]|];
      [|injection E as <- <-; auto].
    destruct (match get_concat l with
              | [] => (false, st)
              | l0 :: _ => find_branch_candidate l0 (get_concat r) st
              end) as [b1 st1] eqn:E1.
    assert (X1 : m_rep st1 = m_rep st /\ m_eqs st1 = m_eqs st).
    { destruct (get_concat l); [injection E1 as <- <-; auto|].
      destruct b1.
      - apply find_branch_candidate_true in E1 as [c ->]. unfold proposed.
        destruct (ctx_e_internalized (ctx st) c); auto.
      - apply find_branch_candidate_false in E1. subst. auto. }
    destruct b1; [injection E as <- <-; exact X1|].
    destruct (match get_concat r with
              | [] => (false, st1)
              | r0 :: _ => find_branch_candidate r0 (get_concat l) st1
              end) as [b2 st2] eqn:E2.
    assert (X2 : m_rep st2 = m_rep st1 /\ m_eqs st2 = m_eqs st1).
    { destruct (get_concat r); [injection E2 as <- <-; auto|].
      destruct b2.
      - apply find_branch_candidate_true in E2 as [c ->]. unfold proposed.
        destruct (ctx_e_internalized (ctx st1) c); auto.
      - apply find_branch_candidate_false in E2. subst. auto. }
    destruct X1 as [Xr1 Xe1], X2 as [Xr2 Xe2].
    destruct b2; [injection E as <- <-; cbn; split; congruence|].
    apply IH in E as [Xr Xe]. split; congruence.
Qed.

(** X29.  The final check invents no dependency: every e-node pair found
    afterwards in a dependency of the solution map or of a pending equation
    was already in one of them before.  Together with the canonizer's
    bound this confines every justification the final check hands to the
    host to the e-node pairs of the equations that were given to the
    solver. *)
Theorem final_check_eh_invents_no_dependency (fuel : nat) st
    (status : final_check_status) st' :
  final_check_eh fuel st = Some (status, st') ->
  forall p, known st' p -> known st p.
Proof.
  unfold final_check_eh. intros E.
  destruct (check_ineqs fuel st) as [[ok st1]|] eqn:E1; [|discriminate].
  cbn [mbind option_bind] in E.
  pose proof (known_check_ineqs_loop _ _ _ _ _ E1) as K1.
  destruct ok; cbn [negb] in E; [|injection E as <- <-; exact K1].
  destruct (simplify_and_solve_eqs fuel st1) as [[change st2]|] eqn:E2; [|discriminate].
  cbn [mbind option_bind] in E.
  assert (K2 : forall p, known st2 p -> known st1 p).
  { unfold simplify_and_solve_eqs in E2.
    destruct (simplify_eqs fuel st1) as [[b1 st1']|] eqn:E21; [|discriminate].
    cbn [mbind option_bind] in E2.
    pose proof (known_pre_process_eqs_loop _ _ _ _ _ _ _ E21) as K21.
    intros p Hp. apply K21. eapply known_solve_loop; eassumption. }
  assert (K : forall p, known st2 p -> known st p) by (intros p Hp; apply K1, K2, Hp).
  destruct change; [injection E as <- <-; exact K|].
  destruct (ctx_inconsistent (ctx st2)); [injection E as <- <-; exact K|].
  destruct (branch_variable st2) as [b st3] eqn:E3.
  apply branch_variable_loop_keeps in E3 as [Hr He].
  assert (K3 : forall p, known st3 p -> known st p).
  { intros p Hp. apply K. eapply known_same; eassumption. }
  destruct b; [injection E as <- <-; exact K3|].
  unfold split_variable in E.
  destruct (ctx_inconsistent (ctx st3)); [injection E as <- <-; exact K3|].
  destruct (_ || _); injection E as <- <-; exact K3.
Qed.

End NoNewDependency.

Lemma canonize_justifies_from_solution_map_witness :
  (forall p, p ∈ linearize (mk_join dep_yz dep_xy) ->
     p ∈ linearize dep_yz \/ recorded (solution_map.m_map (m_rep st_ineqs)) p) /\
  (forall p, recorded (solution_map.m_map (m_rep st_ineqs)) p ->
     recorded (solution_map.m_map (m_rep st_ineqs)) p).
Proof.
  apply (canonize_justifies_from_solution_map 2 var_x dep_yz st_ineqs var_y).
  vm_compute. reflexivity.
Defined.

Lemma final_check_eh_invents_no_dependency_witness : known st_unit (var_x, var_y).
Proof.
  refine (final_check_eh_invents_no_dependency 5 st_unit FC_CONTINUE st_after_final_check
            _ (var_x, var_y) _).
  - vm_compute. reflexivity.
  - left. exists var_x, (mk_string "a"), dep_xy. split; [vm_compute; reflexivity|].
    apply list_elem_of_singleton. reflexivity.
Defined.

(** *** Expansion reaches the roots *)

Section Roots.
Context {C : Type} `{SmtContext C} `{Rewriter} `{AstIds}.
Implicit Type st : theory_seq C.

Lemma find_root (fuel : nat) (e r : expr) (d : enode_pair_dependency)
    (s s' : solution_map.t) :
  solution_map.find fuel e s = Some (r, d, s') ->
  solution_map.m_map s' !! r = None /\
  forall k, is_Some (solution_map.m_map s' !! k) <-> is_Some (solution_map.m_map s !! k).
Proof.
  unfold solution_map.find.
  destruct (solution_map.find_loop fuel (solution_map.m_map s) e None 0)
    as [[[r0 d0] n]|] eqn:El; [|discriminate].
  cbn [mbind option_bind]. intros [= -> -> <-].
  apply find_loop_inv in El as (ws & Hc & -> & -> & _). cbn [Nat.add].
  pose proof (chain_end_free _ _ _ _ Hc) as Hr.
  destruct (1 <? length ws) eqn:En; [|split; [exact Hr|tauto]].
  apply Nat.ltb_lt in En.
  assert (He : is_Some (solution_map.m_map s !! e)).
  { inversion Hc; subst; [cbn in En; lia|eauto]. }
  assert (Hne : e <> r) by (intros ->; rewrite Hr in He; destruct He; discriminate).
  rewrite update_map. split.
  - rewrite lookup_insert_ne by exact Hne. exact Hr.
  - intros k. destruct (decide (k = e)) as [->|Hk].
    + rewrite lookup_insert_eq. split; [intros _; exact He|eauto].
    + rewrite lookup_insert_ne by congruence. tauto.
Qed.

Lemma expand_roots (fuel : nat) (e : expr) (eqs : enode_pair_dependency) st
    (r : expr) (eqs' : enode_pair_dependency) st' :
  m_model_completion st = false ->
  expand fuel e eqs st = Some (r, eqs', st') ->
  (forall k, is_Some (solution_map.m_map (m_rep st') !! k)
             <-> is_Some (solution_map.m_map (m_rep st) !! k)) /\
  forall c, c ∈ get_concat r ->
    solution_map.m_map (m_rep st') !! c = None \/ is_bool c = true.
Proof.
  revert e eqs st r eqs' st'.
  induction fuel as [|fuel IH]; intros e eqs st r eqs' st' Hmc E; [discriminate|].
  cbn [expand] in E.
  destruct (solution_map.find fuel e (m_rep st)) as [[[e0 deps] rep]|] eqn:Ef; [|discriminate].
  cbn [mbind option_bind] in E.
  apply find_root in Ef as [Hroot Hkeys].
  assert (X2 : forall (mk : expr -> expr -> expr) e1 e2,
             ('(r1, eqs1, st1) ← expand fuel e1 (mk_join eqs deps) (set_m_rep rep st);
              '(r2, eqs2, st2) ← expand fuel e2 eqs1 st1;
              Some (mk r1 r2, eqs2, st2)) = Some (r, eqs', st') ->
             exists r1 r2,
               r = mk r1 r2 /\
               (forall k, is_Some (solution_map.m_map (m_rep st') !! k)
                          <-> is_Some (solution_map.m_map (m_rep st) !! k)) /\
               forall c, c ∈ get_concat r1 ++ get_concat r2 ->
                 solution_map.m_map (m_rep st') !! c = None \/ is_bool c = true).
  { intros mk e1 e2 E2.
    destruct (expand fuel e1 (mk_join eqs deps) (set_m_rep rep st))
      as [[[r1 eqs1] st1]|] eqn:E21; [|discriminate].
    cbn [mbind option_bind] in E2.
    destruct (expand fuel e2 eqs1 st1) as [[[r2 eqs2] st2]|] eqn:E22; [|discriminate].
    cbn [mbind option_bind] in E2. injection E2 as <- <- <-.
    pose proof (expand_canon_run _ _ _ _ _ _ _ E21) as ([Ho1 _] & _).
    assert (Hmc1 : m_model_completion st1 = false)
      by (unfold outside_rep in Ho1; cbn in Ho1; congruence).
    apply IH in E21 as [Hk1 Ha1]; [|exact Hmc].
    apply IH in E22 as [Hk2 Ha2]; [|exact Hmc1].
    cbn in Hk1. exists r1, r2. split; [reflexivity|]. split.
    - intros k. rewrite Hk2, Hk1. apply Hkeys.
    - intros c Hc. apply elem_of_app in Hc as [Hc|Hc]; [|auto].
      destruct (Ha1 c Hc) as [Hn|Hb]; [|auto]. left.
      apply eq_None_not_Some. rewrite Hk2. apply eq_None_not_Some. exact Hn. }
  assert (Leaf : is_concat e0 = None ->
                 (forall k, is_Some (solution_map.m_map (m_rep (set_m_rep rep st)) !! k)
                            <-> is_Some (solution_map.m_map (m_rep st) !! k)) /\
                 forall c, c ∈ get_concat e0 ->
                   solution_map.m_map (m_rep (set_m_rep rep st)) !! c = None
                   \/ is_bool c = true).
  { intros Hc. split; [exact Hkeys|]. intros c Hin. rewrite get_concat_unfold, Hc in Hin.
    apply list_elem_of_singleton in Hin. subst c. left. exact Hroot. }
  assert (Bool : forall (mk : expr -> expr -> expr),
             (forall a b, is_bool (mk a b) = true /\ get_concat (mk a b) = [mk a b]) ->
             forall e1 e2,
               ('(r1, eqs1, st1) ← expand fuel e1 (mk_join eqs deps) (set_m_rep rep st);
                '(r2, eqs2, st2) ← expand fuel e2 eqs1 st1;
                Some (mk r1 r2, eqs2, st2)) = Some (r, eqs', st') ->
               (forall k, is_Some (solution_map.m_map (m_rep st') !! k)
                          <-> is_Some (solution_map.m_map (m_rep st) !! k)) /\
               forall c, c ∈ get_concat r ->
                 solution_map.m_map (m_rep st') !! c = None \/ is_bool c = true).
  { intros mk Hmk e1 e2 E2. destruct (X2 mk e1 e2 E2) as (r1 & r2 & -> & Hk & _).
    split; [exact Hk|]. intros c Hc. destruct (Hmk r1 r2) as [Hb Hg].
    rewrite Hg in Hc. apply list_elem_of_singleton in Hc. subst c. auto. }
  destruct (is_concat e0) as [[e1 e2]|] eqn:Ec.
  { destruct (X2 mk_concat e1 e2 E) as (r1 & r2 & -> & Hk & Ha).
    split; [exact Hk|]. intros c Hc. rewrite get_concat_mk_concat in Hc. auto. }
  destruct (is_empty e0 || bool_decide (is_Some (is_string e0))).
  { injection E as <- <- <-. apply Leaf. reflexivity. }
  destruct (is_eq e0) as [[e1 e2]|]; [eapply (Bool mk_eq); [|exact E]; auto|].
  destruct (is_prefix e0) as [[e1 e2]|]; [eapply (Bool mk_prefix); [|exact E]; auto|].
  destruct (is_suffix e0) as [[e1 e2]|]; [eapply (Bool mk_suffix); [|exact E]; auto|].
  destruct (is_contains e0) as [[e1 e2]|]; [eapply (Bool mk_contains); [|exact E]; auto|].
  cbn [m_model_completion set_m_rep] in E. rewrite Hmc in E. cbn [andb] in E.
  injection E as <- <- <-. apply Leaf. reflexivity.
Qed.

(** X30.  Outside model-completion mode, [expand] substitutes solutions all
    the way: the solution map keeps its keys, and every concat-atom of the
    expanded term is either unsolved (the solution map has no entry for it)
    or a Boolean term built from expanded sides. *)
Theorem expand_reaches_roots (fuel : nat) (e : expr) (eqs : enode_pair_dependency) st
    (r : expr) (eqs' : enode_pair_dependency) st' :
  m_model_completion st = false ->
  expand fuel e eqs st = Some (r, eqs', st') ->
  (forall k, is_Some (solution_map.m_map (m_rep st') !! k)
             <-> is_Some (solution_map.m_map (m_rep st) !! k)) /\
  forall c, c ∈ get_concat r ->
    solution_map.m_map (m_rep st') !! c = None \/ is_bool c = true.
Proof. apply expand_roots. Qed.

End Roots.

Lemma expand_reaches_roots_witness :
  (forall k, is_Some (solution_map.m_map (m_rep st_ineqs) !! k)
             <-> is_Some (solution_map.m_map (m_rep st_ineqs) !! k)) /\
  forall c, c ∈ get_concat (mk_concat var_y var_z) ->
    solution_map.m_map (m_rep st_ineqs) !! c = None \/ is_bool c = true.
Proof.
  apply (expand_reaches_roots 3 (mk_concat var_x var_z) None st_ineqs
           (mk_concat var_y var_z) dep_xy st_ineqs eq_refl).
  vm_compute. reflexivity.
Defined.
